(** * Block-placement puzzle engine: a shallow embedding and its properties

    The development follows [Game.ts] (the game class with its board,
    placement, line clearing and game-over checks), [GameAI.ts] (the
    heuristic move search) and [constants.ts] (grid size, palette, shape
    catalog).  Two revisions of the game class are present in the sources:
    the current one, which delegates the search to [GameAI] and tracks a
    phase, and an earlier one that counts placed shapes; the parts on which
    they differ are kept apart in [Module Legacy].

    Conventions of the embedding.
    - JavaScript numbers that index the grid are integers here ([Z]); a grid
      position computed from a pointer may be negative.
    - A [TypeError] raised by reading a property of [undefined] is [None].
    - Rendering objects (sprites, containers, particles, tweens) are left
      out; what remains of a shape's container is its identity (a number,
      fresh for every container created) and its [dragging] flag.
    - A [Block] of the board is a mutable object that the clear animation
      keeps a reference to.  Blocks are created once per board, one per grid
      position, and never move, so a reference is the position (and the
      board it belongs to). *)

From stdpp Require Import base numbers option list.

Open Scope Z_scope.

(** ** Constants ([constants.ts]) *)

Definition GRID_SIZE : Z := 8.

Definition BLOCK_COLORS : list Z :=
  [ 0xff0000; 0x00ff00; 0x0000ff; 0xffff00; 0xff00ff; 0x00ffff; 0xffa500 ].

Definition SHAPES : list (list (list bool)) :=
  [ [[true]];
    [[true; true]];
    [[true]; [true]];
    [[true]; [true]; [true]; [true]];
    [[true; false]; [true; false]; [true; true]];
    [[false; true]; [false; true]; [true; true]];
    [[true; true]; [true; true]];
    [[false; true; true]; [true; true; false]];
    [[true; true; true]; [false; true; false]];
    [[true; true; false]; [false; true; true]] ].

(** ** Data ([types.ts]) *)

Record Position := mkPosition { row : Z; col : Z }.

Record Block := mkBlock {
  color : Z;
  position : Position;
  isEmpty : bool
}.

Record Shape := mkShape {
  blocks : list (list bool);
  shapeColor : Z;            (* [color] of the source's [Shape] *)
  container : nat;           (* identity of the shape's container object *)
  dragging : bool;           (* [container.dragging] *)
  width : Z;
  height : Z
}.

Abbreviation Board := (list (list Block)).

(** [board[r][c]] followed by a property read: [None] where the source
    would read a property of [undefined]. *)
Definition getBlock (board : Board) (r c : Z) : option Block :=
  if bool_decide (0 ≤ r ∧ 0 ≤ c)
  then line ← board !! Z.to_nat r; line !! Z.to_nat c
  else None.

(** ** Loops with an early [return true] *)

(** [for (x of l) { if (f x) return true; } return false;], also
    [Array.prototype.some]. *)
Fixpoint anyM {A} (f : A → option bool) (l : list A) : option bool :=
  match l with
  | [] => Some false
  | x :: rest => b ← f x; if b : bool then Some true else anyM f rest
  end.

(** ** Placement validation ([canPlaceShape]) *)

(** Inner loop over the cells of one shape row; [Some false] is the early
    [return false], [Some true] means the loop ran to its end. *)
Fixpoint canPlaceCells (board : Board) (r c : Z) (cells : list bool)
  : option bool :=
  match cells with
  | [] => Some true
  | cell :: rest =>
      if cell then
        blk ← getBlock board r c;
        if negb (isEmpty blk) then Some false
        else canPlaceCells board r (c + 1) rest
      else canPlaceCells board r (c + 1) rest
  end.

Fixpoint canPlaceRows (board : Board) (r c : Z) (rows : list (list bool))
  : option bool :=
  match rows with
  | [] => Some true
  | cells :: rest =>
      ok ← canPlaceCells board r c cells;
      if ok : bool then canPlaceRows board (r + 1) c rest else Some false
  end.

Definition canPlaceShape (board : Board) (startRow startCol : Z) (shape : Shape)
  : option bool :=
  if (startRow <? 0) || (startRow + Z.of_nat (length (blocks shape)) >? GRID_SIZE)
     || (startCol <? 0)
  then Some false
  else
    first ← head (blocks shape);
    if startCol + Z.of_nat (length first) >? GRID_SIZE then Some false
    else canPlaceRows board startRow startCol (blocks shape).

(** ** Move availability ([hasValidMoves]) *)

Definition shapeHasMove (board : Board) (shape : Shape) : option bool :=
  anyM (fun r => anyM (fun c => canPlaceShape board r c shape) (seqZ 0 GRID_SIZE))
       (seqZ 0 GRID_SIZE).

Definition hasValidMovesOn (board : Board) (shapes : list Shape) : option bool :=
  if 0 <? Z.of_nat (length shapes)
  then anyM (shapeHasMove board) shapes
  else Some false.

(** ** Rotation ([rotateShape]) *)

(** The cell [(r, c)] of a matrix, where it has one. *)
Definition cellAt (shape : list (list bool)) (r c : nat) : option bool :=
  line ← shape !! r; line !! c.

(** [shape[r][c]]; a read past the end of a row gives [undefined], which
    every use in the program only tests for truth, so it is read as
    [false]. *)
Definition readCell (shape : list (list bool)) (r c : nat) : bool :=
  default false (cellAt shape r c).

(** [m[r][c] = v] on a matrix that has the cell. *)
Definition writeCell (m : list (list bool)) (r c : nat) (v : bool)
  : list (list bool) :=
  alter (fun line => <[c := v]> line) r m.

Definition rotateShape (shape : list (list bool)) : option (list (list bool)) :=
  first ← head shape;                     (* [shape[0].length] *)
  let rows := length shape in
  let cols := length first in
  let rotated := replicate cols (replicate rows false) in
  Some (foldl (fun acc r =>
          foldl (fun acc c =>
            writeCell acc c (rows - 1 - r)%nat (readCell shape r c))
            acc (seq 0 cols))
          rotated (seq 0 rows)).

(** [for (r = 0; r < n; r++) shape = rotateShape(shape)] *)
Fixpoint rotateTimes (n : nat) (shape : list (list bool))
  : option (list (list bool)) :=
  match n with
  | O => Some shape
  | S k => shape' ← rotateShape shape; rotateTimes k shape'
  end.

(** ** The game object

    [Game] gathers the fields of the game class that the engine reads or
    writes ([gameBoard] and the members of [state]) together with what the
    schedulers hold on its behalf: the clear animations still running and
    the AI calls suspended at an [await]. *)

Inductive Phase := START | PLAYING | PAUSED | GAME_OVER.

(** A clear animation: references to the blocks whose [onComplete] has not
    run yet; when none is left the timeline's final call runs
    [checkGameOver]. *)
Abbreviation Timeline := (list Position).

(** A call of [executeMove] suspended at its first [await]: either a move
    it is about to place, or the [false] it is about to return. *)
Inductive AiCall :=
  | AiPlanned (shape : Shape) (r c : Z)
  | AiNoMove.

Record Game := mkGame {
  gameBoard : Board;
  score : Z;
  isGameOver : bool;
  shapes : list Shape;
  previousAIState : bool;
  isAIEnabled : bool;
  currentState : Phase;
  timelines : list Timeline;
  aiCalls : list AiCall;
  nextContainer : nat
}.

(** Field updates. *)
Definition withBoard (b : Board) (g : Game) : Game :=
  mkGame b (score g) (isGameOver g) (shapes g) (previousAIState g)
         (isAIEnabled g) (currentState g) (timelines g) (aiCalls g)
         (nextContainer g).
Definition withScore (n : Z) (g : Game) : Game :=
  mkGame (gameBoard g) n (isGameOver g) (shapes g) (previousAIState g)
         (isAIEnabled g) (currentState g) (timelines g) (aiCalls g)
         (nextContainer g).
Definition withShapes (l : list Shape) (g : Game) : Game :=
  mkGame (gameBoard g) (score g) (isGameOver g) l (previousAIState g)
         (isAIEnabled g) (currentState g) (timelines g) (aiCalls g)
         (nextContainer g).
Definition withAI (prev enabled : bool) (g : Game) : Game :=
  mkGame (gameBoard g) (score g) (isGameOver g) (shapes g) prev
         enabled (currentState g) (timelines g) (aiCalls g)
         (nextContainer g).
Definition withPhase (p : Phase) (g : Game) : Game :=
  mkGame (gameBoard g) (score g) (isGameOver g) (shapes g) (previousAIState g)
         (isAIEnabled g) p (timelines g) (aiCalls g) (nextContainer g).
Definition withTimelines (t : list Timeline) (g : Game) : Game :=
  mkGame (gameBoard g) (score g) (isGameOver g) (shapes g) (previousAIState g)
         (isAIEnabled g) (currentState g) t (aiCalls g) (nextContainer g).
Definition withAiCalls (a : list AiCall) (g : Game) : Game :=
  mkGame (gameBoard g) (score g) (isGameOver g) (shapes g) (previousAIState g)
         (isAIEnabled g) (currentState g) (timelines g) a (nextContainer g).
Definition withNextContainer (n : nat) (g : Game) : Game :=
  mkGame (gameBoard g) (score g) (isGameOver g) (shapes g) (previousAIState g)
         (isAIEnabled g) (currentState g) (timelines g) (aiCalls g) n.

Definition hasValidMoves (g : Game) : option bool :=
  hasValidMovesOn (gameBoard g) (shapes g).

(** ** Board construction and cell updates *)

(** [createEmptyBoard]: a fresh grid of empty blocks. *)
Definition createEmptyBoard : Board :=
  (fun r => (fun c => mkBlock 0 (mkPosition r c) true) <$> seqZ 0 GRID_SIZE)
    <$> seqZ 0 GRID_SIZE.

(** Assignment to the fields of the block at [(r, c)]. *)
Definition setBlock (board : Board) (r c : Z) (blk : Block) : Board :=
  alter (fun line => <[Z.to_nat c := blk]> line) (Z.to_nat r) board.

(** [clearBlock(block)], the block given by reference. *)
Definition clearBlock (ref : Position) (board : Board) : Board :=
  match getBlock board (row ref) (col ref) with
  | Some blk => setBlock board (row ref) (col ref) (mkBlock 0 (position blk) true)
  | None => board
  end.

(** ** Game over ([gameOver], [checkGameOver]) *)

Definition gameOver (g : Game) : Game :=
  mkGame (gameBoard g) (score g) true (shapes g) (previousAIState g)
         (isAIEnabled g) GAME_OVER (timelines g) (aiCalls g) (nextContainer g).

Definition checkGameOver (g : Game) : option Game :=
  valid ← hasValidMoves g;
  Some (if valid : bool then g else gameOver g).

(** ** Line clearing ([checkLines], [clearLines], [updateScore]) *)

(** [for (x of l) { if (f x) out.push(x); }] *)
Fixpoint filterM {A} (f : A → option bool) (l : list A) : option (list A) :=
  match l with
  | [] => Some []
  | x :: rest =>
      b ← f x;
      out ← filterM f rest;
      Some (if b : bool then x :: out else out)
  end.

(** The inner loops of [checkLines]: [isFull] stays [true] unless an empty
    block is met, at which the loop breaks. *)
Definition rowIsFull (board : Board) (r : Z) : option bool :=
  negb <$> anyM (fun c => isEmpty <$> getBlock board r c) (seqZ 0 GRID_SIZE).

Definition colIsFull (board : Board) (c : Z) : option bool :=
  negb <$> anyM (fun r => isEmpty <$> getBlock board r c) (seqZ 0 GRID_SIZE).

Definition rowsToRemove (board : Board) : option (list Z) :=
  filterM (rowIsFull board) (seqZ 0 GRID_SIZE).

Definition colsToRemove (board : Board) : option (list Z) :=
  filterM (colIsFull board) (seqZ 0 GRID_SIZE).

Global Instance Position_eq_dec : EqDecision Position.
Proof. solve_decision. Defined.

(** [if (!blocksToRemove.includes(b)) blocksToRemove.push(b)] *)
Definition pushIfAbsent (acc : list Position) (ref : Position) : list Position :=
  if bool_decide (ref ∈ acc) then acc else acc ++ [ref].

Definition blocksToRemove (rows cols : list Z) : list Position :=
  let acc :=
    foldl (fun acc r =>
      foldl (fun acc c => pushIfAbsent acc (mkPosition r c)) acc (seqZ 0 GRID_SIZE))
      [] rows in
  foldl (fun acc c =>
    foldl (fun acc r => pushIfAbsent acc (mkPosition r c)) acc (seqZ 0 GRID_SIZE))
    acc cols.

(** [clearLines] starts the animation; the blocks are cleared by its
    callbacks ([timelineStep] below), not by this call. *)
Definition clearLines (rows cols : list Z) (g : Game) : Game :=
  withTimelines (timelines g ++ [blocksToRemove rows cols]) g.

Definition updateScore (linesCleared : Z) (g : Game) : Game :=
  withScore (score g + linesCleared * 100) g.

(** The first [if] of [checkLines]. *)
Definition clearFullLines (rows cols : list Z) (g : Game) : Game :=
  if (0 <? Z.of_nat (length rows)) || (0 <? Z.of_nat (length cols))
  then updateScore (Z.of_nat (length rows) + Z.of_nat (length cols))
                   (clearLines rows cols g)
  else g.

Definition checkLines (g : Game) : option Game :=
  rows ← rowsToRemove (gameBoard g);
  cols ← colsToRemove (gameBoard g);
  let g1 := clearFullLines rows cols g in
  if Z.of_nat (length (shapes g1)) =? 1 then
    valid ← hasValidMoves g1;
    Some (if valid : bool then g1 else gameOver g1)
  else Some g1.

(** One callback of the [k]-th running clear animation: the next block's
    [onComplete] clears it; after the last block the timeline's call runs
    [checkGameOver]. *)
Definition timelineStep (k : nat) (g : Game) : option Game :=
  match timelines g !! k with
  | None => Some g
  | Some (ref :: rest) =>
      Some (withTimelines (<[k := rest]> (timelines g))
              (withBoard (clearBlock ref (gameBoard g)) g))
  | Some [] => checkGameOver (withTimelines (delete k (timelines g)) g)
  end.

(** All callbacks of one animation, first to last. *)
Definition applyClear (refs : list Position) (board : Board) : Board :=
  foldl (fun b ref => clearBlock ref b) board refs.

(** ** Committing a placement ([placeShape]) *)

Definition fillBlock (board : Board) (r c : Z) (shade : Z) : option Board :=
  blk ← getBlock board r c;
  Some (setBlock board r c (mkBlock shade (position blk) false)).

Fixpoint placeCells (shade : Z) (board : Board) (r c : Z) (cells : list bool)
  : option Board :=
  match cells with
  | [] => Some board
  | cell :: rest =>
      if cell : bool then
        board' ← fillBlock board r c shade;
        placeCells shade board' r (c + 1) rest
      else placeCells shade board r (c + 1) rest
  end.

Fixpoint placeRows (shade : Z) (board : Board) (r c : Z) (rows : list (list bool))
  : option Board :=
  match rows with
  | [] => Some board
  | cells :: rest =>
      board' ← placeCells shade board r c cells;
      placeRows shade board' (r + 1) c rest
  end.

Definition placeShape (startRow startCol : Z) (shape : Shape) (g : Game)
  : option Game :=
  board' ← placeRows (shapeColor shape) (gameBoard g) startRow startCol
                     (blocks shape);
  checkLines (withBoard board' g).

(** ** Batch generation ([generateNewShapes]) *)

(** The three random numbers drawn for one shape; each is
    [Math.floor(Math.random() * n)], an index below [n]. *)
Record Draw := mkDraw { shapeIndex : nat; colorIndex : nat; rotations : nat }.

Definition newShape (d : Draw) (cid : nat) : option Shape :=
  base ← SHAPES !! shapeIndex d;
  shade ← BLOCK_COLORS !! colorIndex d;
  shape ← rotateTimes (rotations d) base;
  first ← head shape;
  Some (mkShape shape shade cid false
                (Z.of_nat (length first)) (Z.of_nat (length shape))).

Definition generateNewShapes (rng : nat → Draw) (g : Game) : option Game :=
  if isGameOver g then Some g
  else if 0 <? Z.of_nat (length (shapes g)) then Some g
  else
    s0 ← newShape (rng 0%nat) (nextContainer g);
    s1 ← newShape (rng 1%nat) (nextContainer g + 1)%nat;
    s2 ← newShape (rng 2%nat) (nextContainer g + 2)%nat;
    let g1 := withNextContainer (nextContainer g + 3)%nat
                (withShapes (shapes g ++ [s0; s1; s2]) g) in
    valid ← hasValidMoves g1;
    Some (if valid : bool then g1 else gameOver g1).

(** ** Drag and drop ([onDragStart], [onDragEnd]) *)

Definition setDragging (b : bool) (s : Shape) : Shape :=
  mkShape (blocks s) (shapeColor s) (container s) b (width s) (height s).

(** [shapes.indexOf(shape)] followed by [splice(index, 1)] when found. *)
Definition removeShape (cid : nat) (g : Game) : Game :=
  match list_find (fun s => container s = cid) (shapes g) with
  | Some (i, _) => withShapes (delete i (shapes g)) g
  | None => g
  end.

Definition onDragStart (cid : nat) (g : Game) : Game :=
  match list_find (fun s => container s = cid) (shapes g) with
  | None => g
  | Some (i, s) =>
      if isGameOver g then g
      else withShapes (<[i := setDragging true s]> (shapes g)) g
  end.

Definition onDragEnd (gridPos : Position) (rng : nat → Draw) (g : Game)
  : option Game :=
  match list_find (fun s => dragging s = true) (shapes g) with
  | None => Some g
  | Some (i, s) =>
      let draggedShape := setDragging false s in
      let g0 := withShapes (<[i := draggedShape]> (shapes g)) g in
      ok ← canPlaceShape (gameBoard g0) (row gridPos) (col gridPos) draggedShape;
      if ok : bool then
        g1 ← placeShape (row gridPos) (col gridPos) draggedShape g0;
        let g2 := removeShape (container draggedShape) g1 in
        g3 ← checkLines g2;
        if Z.of_nat (length (shapes g3)) =? 0
        then generateNewShapes rng g3
        else Some g3
      else Some g0
  end.

(** ** Heuristic search ([GameAI]) *)

Inductive Score := NegInfinity | Finite (z : Z).

(** [a > b] on scores. *)
Definition scoreGt (a b : Score) : bool :=
  match a, b with
  | Finite x, Finite y => y <? x
  | Finite _, NegInfinity => true
  | NegInfinity, _ => false
  end.

Record Move := mkMove { moveRow : Z; moveCol : Z; moveScore : Score }.

(** [for (x of l) { s = f(s, x); }] with a body that may throw. *)
Fixpoint forM {A S} (f : S → A → option S) (l : list A) (s : S) : option S :=
  match l with
  | [] => Some s
  | x :: rest => s' ← f s x; forM f rest s'
  end.

(** The two loops over a shape matrix, running [f] at every [true] cell
    with the board coordinates of the cell. *)
Fixpoint forCells {S} (f : S → Z → Z → option S) (r c : Z) (cells : list bool)
  (s : S) : option S :=
  match cells with
  | [] => Some s
  | cell :: rest =>
      if cell : bool then s' ← f s r c; forCells f r (c + 1) rest s'
      else forCells f r (c + 1) rest s
  end.

Fixpoint forShape {S} (f : S → Z → Z → option S) (r c : Z)
  (rows : list (list bool)) (s : S) : option S :=
  match rows with
  | [] => Some s
  | cells :: rest => s' ← forCells f r c cells s; forShape f (r + 1) c rest s'
  end.

(** [board[r][c] = true] on the scratch board.  A column past the end of
    the row would extend the row in the source; the scans below read the
    first [GRID_SIZE] columns only, so the write is dropped here. *)
Definition markCell (sim : list (list bool)) (r c : Z) : option (list (list bool)) :=
  if bool_decide (0 ≤ r) then
    line ← sim !! Z.to_nat r;
    Some (<[Z.to_nat r :=
             if bool_decide (0 ≤ c) then <[Z.to_nat c := true]> line else line]> sim)
  else None.

Definition simulatePlacement (board : Board) (r c : Z) (shape : Shape)
  : option (list (list bool)) :=
  sim ← mapM (fun i => mapM (fun j => (fun blk => negb (isEmpty blk))
                                        <$> getBlock board i j)
                            (seqZ 0 GRID_SIZE))
             (seqZ 0 GRID_SIZE);
  forShape markCell r c (blocks shape) sim.

(** The counters of one row or column scan. *)
Record Scan := mkScan { lineBlocks : Z; lineGaps : Z; lastWasEmpty : bool }.

Definition scanCell (s : Scan) (filled : bool) : Scan :=
  if negb filled then
    mkScan (lineBlocks s)
           (if negb (lastWasEmpty s) && (0 <? lineBlocks s)
            then lineGaps s + 1 else lineGaps s)
           true
  else mkScan (lineBlocks s + 1) (lineGaps s) false.

Definition scanLine (cells : list bool) : Scan :=
  foldl scanCell (mkScan 0 0 false) cells.

Definition simCell (sim : list (list bool)) (r c : Z) : bool :=
  readCell sim (Z.to_nat r) (Z.to_nat c).

(** [(wouldClearLines, wouldCreateGaps)] after the scans of [lines]. *)
Definition tally (acc : Z * Z) (lines : list Scan) : Z * Z :=
  foldl (fun acc s =>
           ((if lineBlocks s =? GRID_SIZE then acc.1 + 1 else acc.1),
            acc.2 + lineGaps s))
        acc lines.

Definition directions : list (Z * Z) := [(-1, 0); (1, 0); (0, -1); (0, 1)].

(** [(touchingBlocks, touchingEdges)] updated for one direction. *)
Definition touch (board : Board) (boardRow boardCol : Z) (acc : Z * Z)
  (d : Z * Z) : option (Z * Z) :=
  let newRow := boardRow + d.1 in
  let newCol := boardCol + d.2 in
  if (0 <=? newRow) && (newRow <? GRID_SIZE)
     && (0 <=? newCol) && (newCol <? GRID_SIZE)
  then
    blk ← getBlock board newRow newCol;
    Some (if negb (isEmpty blk) then (acc.1 + 1, acc.2) else acc)
  else Some (acc.1, acc.2 + 1).

Definition touching (board : Board) (r c : Z) (shape : Shape) : option (Z * Z) :=
  forShape (fun acc boardRow boardCol =>
              forM (touch board boardRow boardCol) directions acc)
           r c (blocks shape) (0, 0).

(** The score [findBestMove] gives to placing [shape] at [(r, c)]. *)
Definition evalMove (board : Board) (r c : Z) (shape : Shape) : option Z :=
  sim ← simulatePlacement board r c shape;
  let rowScans :=
    (fun i => scanLine ((fun j => simCell sim i j) <$> seqZ 0 GRID_SIZE))
      <$> seqZ 0 GRID_SIZE in
  let colScans :=
    (fun j => scanLine ((fun i => simCell sim i j) <$> seqZ 0 GRID_SIZE))
      <$> seqZ 0 GRID_SIZE in
  let '(wouldClearLines, wouldCreateGaps) := tally (tally (0, 0) rowScans) colScans in
  '(touchingBlocks, touchingEdges) ← touching board r c shape;
  Some (wouldClearLines * 1000 - wouldCreateGaps * 50
        + touchingBlocks * 100 - touchingEdges * 30
        + (GRID_SIZE - r) * 20
        + (if 0 <? wouldClearLines then 2000 else 0)).

(** The local variables of [findBestMove]. *)
Record Best := mkBest {
  bestScore : Score; bestRow : Z; bestCol : Z; foundValidMove : bool
}.

(** The body of the two position loops of [findBestMove]. *)
Definition visit (board : Board) (shape : Shape) (r : Z) (acc : Best) (c : Z)
  : option Best :=
  ok ← canPlaceShape board r c shape;
  if ok : bool then
    s ← evalMove board r c shape;
    Some (if scoreGt (Finite s) (bestScore acc)
          then mkBest (Finite s) r c true
          else mkBest (bestScore acc) (bestRow acc) (bestCol acc) true)
  else Some acc.

Definition findBestMove (board : Board) (shape : Shape) : option Move :=
  acc ← forM (fun acc r => forM (visit board shape r) (seqZ 0 GRID_SIZE) acc)
             (seqZ 0 GRID_SIZE) (mkBest NegInfinity 0 0 false);
  Some (if foundValidMove acc
        then mkMove (bestRow acc) (bestCol acc) (bestScore acc)
        else mkMove (-1) (-1) NegInfinity).

(** The loop over the shapes in [executeMove]: [(bestShape, bestMove)]. *)
Definition selectMove (board : Board) (batch : list Shape)
  : option (option Shape * Move) :=
  forM (fun best shape =>
          move ← findBestMove board shape;
          Some (if scoreGt (moveScore move) (moveScore best.2)
                then (Some shape, move) else best))
       batch (None, mkMove (-1) (-1) NegInfinity).

(** [executeMove] up to its first [await]. *)
Definition executeMove (board : Board) (batch : list Shape) : option AiCall :=
  best ← selectMove board batch;
  Some (match best.1 with
        | Some shape =>
            if scoreGt (moveScore best.2) NegInfinity
            then AiPlanned shape (moveRow best.2) (moveCol best.2)
            else AiNoMove
        | None => AiNoMove
        end).

(** ** The AI loop ([runAI]) *)

Definition isPlaying (p : Phase) : bool :=
  match p with PLAYING => true | _ => false end.

(** [runAI] up to the [await] of [executeMove]. *)
Definition runAI (g : Game) : option Game :=
  if negb (isAIEnabled g) || isGameOver g || negb (isPlaying (currentState g))
  then Some g
  else
    call ← executeMove (gameBoard g) (shapes g);
    Some (withAiCalls (aiCalls g ++ [call]) g).

(** The callback [runAI] hands to [executeMove]. *)
Definition onPlaceShape (r c : Z) (shape : Shape) (rng : nat → Draw) (g : Game)
  : option Game :=
  g1 ← placeShape r c shape g;
  g2 ← checkLines g1;
  let g3 := removeShape (container shape) g2 in
  if Z.of_nat (length (shapes g3)) =? 0
  then generateNewShapes rng g3
  else Some g3.

(** The [k]-th suspended AI call resumes: the planned move is placed (or
    [false] is returned and a batch is asked for), then [runAI] calls
    itself. *)
Definition aiResume (k : nat) (rng : nat → Draw) (g : Game) : option Game :=
  match aiCalls g !! k with
  | None => Some g
  | Some call =>
      let g0 := withAiCalls (delete k (aiCalls g)) g in
      g1 ← match call with
           | AiPlanned shape r c => onPlaceShape r c shape rng g0
           | AiNoMove => generateNewShapes rng g0
           end;
      runAI g1
  end.

(** The AI button. *)
Definition toggleAI (g : Game) : option Game :=
  let g1 := withAI (previousAIState g) (negb (isAIEnabled g)) g in
  if isAIEnabled g1 then runAI g1 else Some g1.

(** ** Screens ([startGame], [resetGame], pause menu) *)

(** [resetGame] replaces [state]; the board object is left as it is until
    the next [startGame]. *)
Definition resetGame (g : Game) : Game :=
  mkGame (gameBoard g) 0 false [] false false START
         (timelines g) (aiCalls g) (nextContainer g).

(** [startGame] installs a fresh board.  Animations still running hold
    blocks of the previous board, which the game no longer reads: their
    block callbacks are dropped, their final [checkGameOver] call stays. *)
Definition startGame (rng : nat → Draw) (g : Game) : option Game :=
  generateNewShapes rng
    (withTimelines ((fun _ => []) <$> timelines g)
       (withBoard createEmptyBoard (withPhase PLAYING g))).

(** The settings button opens the pause menu. *)
Definition onSettings (g : Game) : Game :=
  withPhase PAUSED (withAI (isAIEnabled g) false g).

Definition onContinue (g : Game) : option Game :=
  let g1 := withAI (previousAIState g) (previousAIState g) (withPhase PLAYING g) in
  if isAIEnabled g1 then runAI g1 else Some g1.

Definition onHome (g : Game) : Game := resetGame g.

(** ** Events

    Everything that can run a handler of the game: the pointer, the menus,
    the animation scheduler and the resumption of a suspended AI call.
    Handlers are taken to be invocable in every state. *)
Inductive Event :=
  | EvStart (rng : nat → Draw)
  | EvSettings
  | EvContinue
  | EvHome
  | EvDragStart (cid : nat)
  | EvDragEnd (gridPos : Position) (rng : nat → Draw)
  | EvToggleAI
  | EvAiResume (k : nat) (rng : nat → Draw)
  | EvTimeline (k : nat).

Definition step (g : Game) (e : Event) : option Game :=
  match e with
  | EvStart rng => startGame rng g
  | EvSettings => Some (onSettings g)
  | EvContinue => onContinue g
  | EvHome => Some (onHome g)
  | EvDragStart cid => Some (onDragStart cid g)
  | EvDragEnd gridPos rng => onDragEnd gridPos rng g
  | EvToggleAI => toggleAI g
  | EvAiResume k rng => aiResume k rng g
  | EvTimeline k => timelineStep k g
  end.

Definition run (events : list Event) (g : Game) : option Game :=
  forM step events g.

(** The game object as the constructor leaves it. *)
Definition newGame : Game :=
  mkGame [] 0 false [] false false START [] [] 0.

(** ** The earlier revision of the game class

    It has no phases, no pause and no reset; it counts the shapes placed
    since the last batch and searches moves itself, with the same loops as
    [executeMove] and [findBestMove].  Its state is kept in a [Game] whose
    [currentState], [previousAIState] and [aiCalls] it never reads, next to
    its counter and its own suspended AI calls.  [canPlaceShape],
    [hasValidMoves], [rotateShape], [updateScore] and [clearBlock] are the
    same text in both revisions and are shared. *)
Module Legacy.

(** A suspended [runAI]: at the pacing delay, or at the move animation. *)
Inductive Suspended :=
  | AtDelay (shape : Shape) (r c : Z)
  | AtTween (shape : Shape) (r c : Z).

Record State := mkState {
  game : Game;
  placedShapesCount : Z;
  suspended : list Suspended
}.

Definition withGame (g : Game) (st : State) : State :=
  mkState g (placedShapesCount st) (suspended st).

Definition gameOver (g : Game) : Game :=
  mkGame (gameBoard g) (score g) true (shapes g) (previousAIState g)
         (isAIEnabled g) (currentState g) (timelines g) (aiCalls g)
         (nextContainer g).

Definition checkGameOver (g : Game) : option Game :=
  valid ← hasValidMoves g;
  Some (if valid : bool then g else gameOver g).

(** The rows are pushed without the [includes] test. *)
Definition blocksToRemove (rows cols : list Z) : list Position :=
  let acc :=
    foldl (fun acc r =>
      foldl (fun acc c => acc ++ [mkPosition r c]) acc (seqZ 0 GRID_SIZE))
      [] rows in
  foldl (fun acc c =>
    foldl (fun acc r => pushIfAbsent acc (mkPosition r c)) acc (seqZ 0 GRID_SIZE))
    acc cols.

Definition clearLines (rows cols : list Z) (g : Game) : Game :=
  withTimelines (timelines g ++ [blocksToRemove rows cols]) g.

Definition checkLines (g : Game) : option Game :=
  rows ← rowsToRemove (gameBoard g);
  cols ← colsToRemove (gameBoard g);
  let g1 :=
    if (0 <? Z.of_nat (length rows)) || (0 <? Z.of_nat (length cols))
    then updateScore (Z.of_nat (length rows) + Z.of_nat (length cols))
                     (clearLines rows cols g)
    else g in
  if Z.of_nat (length (shapes g1)) =? 1 then
    valid ← hasValidMoves g1;
    Some (if valid : bool then g1 else gameOver g1)
  else Some g1.

(** The blocks' tweens end in the order of the list; the callback of the
    last block also runs [checkGameOver]. *)
Definition timelineStep (k : nat) (g : Game) : option Game :=
  match timelines g !! k with
  | None | Some [] => Some g
  | Some [ref] =>
      checkGameOver (withTimelines (delete k (timelines g))
                       (withBoard (clearBlock ref (gameBoard g)) g))
  | Some (ref :: rest) =>
      Some (withTimelines (<[k := rest]> (timelines g))
              (withBoard (clearBlock ref (gameBoard g)) g))
  end.

Definition placeShape (startRow startCol : Z) (shape : Shape) (g : Game)
  : option Game :=
  board' ← placeRows (shapeColor shape) (gameBoard g) startRow startCol
                     (blocks shape);
  checkLines (withBoard board' g).

(** No test of the current batch: it is dropped and the counter reset. *)
Definition generateNewShapes (rng : nat → Draw) (st : State) : option State :=
  let g := game st in
  if isGameOver g then Some st
  else
    s0 ← newShape (rng 0%nat) (nextContainer g);
    s1 ← newShape (rng 1%nat) (nextContainer g + 1)%nat;
    s2 ← newShape (rng 2%nat) (nextContainer g + 2)%nat;
    let g1 := withNextContainer (nextContainer g + 3)%nat
                (withShapes [s0; s1; s2] g) in
    valid ← hasValidMoves g1;
    Some (mkState (if valid : bool then g1 else gameOver g1) 0 (suspended st)).

Definition onDragEnd (gridPos : Position) (rng : nat → Draw) (st : State)
  : option State :=
  let g := game st in
  match list_find (fun s => dragging s = true) (shapes g) with
  | None => Some st
  | Some (i, s) =>
      let draggedShape := setDragging false s in
      let g0 := withShapes (<[i := draggedShape]> (shapes g)) g in
      ok ← canPlaceShape (gameBoard g0) (row gridPos) (col gridPos) draggedShape;
      if ok : bool then
        g1 ← placeShape (row gridPos) (col gridPos) draggedShape g0;
        let g2 := removeShape (container draggedShape) g1 in
        g3 ← checkLines g2;
        let st3 := mkState g3 (placedShapesCount st + 1) (suspended st) in
        if 3 <=? placedShapesCount st3
        then generateNewShapes rng st3
        else Some st3
      else Some (withGame g0 st)
  end.

(** One activation of [runAI], up to its first [await] or its return.
    In the branch without a move the source asks for a batch and calls
    [runAI] again at once: the flag tells that this next activation is
    due. *)
Definition runAI (rng : nat → Draw) (st : State) : option (State * bool) :=
  let g := game st in
  if negb (isAIEnabled g) || isGameOver g then Some (st, false)
  else
    call ← executeMove (gameBoard g) (shapes g);
    match call with
    | AiPlanned shape r c =>
        Some (mkState g (placedShapesCount st)
                      (suspended st ++ [AtDelay shape r c]), false)
    | AiNoMove =>
        st' ← generateNewShapes rng st;
        Some (st', true)
    end.

(** The [k]-th suspended call resumes.  Both resumptions give up when the
    AI has been switched off; the second places the move and calls
    [runAI] (the flag, as above). *)
Definition aiResume (k : nat) (rng : nat → Draw) (st : State)
  : option (State * bool) :=
  match suspended st !! k with
  | None => Some (st, false)
  | Some call =>
      let rest := delete k (suspended st) in
      let g := game st in
      if negb (isAIEnabled g)
      then Some (mkState g (placedShapesCount st) rest, false)
      else
        match call with
        | AtDelay shape r c =>
            Some (mkState g (placedShapesCount st) (rest ++ [AtTween shape r c]),
                  false)
        | AtTween shape r c =>
            g1 ← placeShape r c shape g;
            g2 ← checkLines g1;
            let g3 := removeShape (container shape) g2 in
            let st3 := mkState g3 (placedShapesCount st + 1) rest in
            st4 ← (if 3 <=? placedShapesCount st3
                   then generateNewShapes rng st3 else Some st3);
            Some (st4, true)
        end
  end.

End Legacy.

(** ** Vocabulary of the statements *)

(** The board is a full [GRID_SIZE] by [GRID_SIZE] grid. *)
Definition gridWf (board : Board) : Prop :=
  length board = Z.to_nat GRID_SIZE ∧
  Forall (fun line => length line = Z.to_nat GRID_SIZE) board.

Definition inGrid (r c : Z) : Prop :=
  0 ≤ r < GRID_SIZE ∧ 0 ≤ c < GRID_SIZE.

(** A shape as [generateNewShapes] builds them: a rectangular matrix with
    at least one row, and [width] and [height] its dimensions. *)
Definition shapeWf (s : Shape) : Prop :=
  blocks s ≠ [] ∧
  height s = Z.of_nat (length (blocks s)) ∧
  Forall (fun line => Z.of_nat (length line) = width s) (blocks s).

(** The game holds a full grid and well-formed shapes. *)
Definition gameWf (g : Game) : Prop :=
  gridWf (gameBoard g) ∧ Forall shapeWf (shapes g).

(** The board cell at [(r, c)] holds a placed block. *)
Definition filledAt (board : Board) (r c : Z) : Prop :=
  ∃ blk, getBlock board r c = Some blk ∧ isEmpty blk = false.

(** The board cell at [(r, c)] is an empty block with the colour 0. *)
Definition emptyAt (board : Board) (r c : Z) : Prop :=
  ∃ blk, getBlock board r c = Some blk ∧ isEmpty blk = true ∧ color blk = 0.

(** The shape matrix has a [true] cell at [(i, j)]. *)
Definition shapeCell (shape : Shape) (i j : nat) : Prop :=
  ∃ line, blocks shape !! i = Some line ∧ line !! j = Some true.

(** Placed at [(r, c)], the shape would cover a placed block. *)
Definition overlaps (board : Board) (shape : Shape) (r c : Z) : Prop :=
  ∃ i j, shapeCell shape i j ∧ filledAt board (r + Z.of_nat i) (c + Z.of_nat j).

(** A matrix of [rows] lines of [cols] cells each. *)
Definition rect (m : list (list bool)) (rows cols : nat) : Prop :=
  length m = rows ∧ Forall (fun line => length line = cols) m.

(** Placing [shape] at [(r, c)] is a candidate of the search, of score [s]. *)
Definition candidate (board : Board) (shape : Shape) (r c s : Z) : Prop :=
  canPlaceShape board r c shape = Some true ∧ evalMove board r c shape = Some s.

(** Scan order of the positions: row by row, each row from its first
    column. *)
Definition scannedBefore (r' c' r c : Z) : Prop :=
  r' < r ∨ (r' = r ∧ c' < c).

(** The positions of the grid up to, and without, [(r, c)] in scan order. *)
Definition seenUpTo (r c : Z) (r' c' : Z) : Prop :=
  inGrid r' c' ∧ scannedBefore r' c' r c.

(** What [findBestMove] holds after the positions in [seen]: nothing when
    none of them is valid, else the first of the valid positions with the
    greatest score. *)
Definition bestAmong (board : Board) (shape : Shape) (seen : Z → Z → Prop)
  (acc : Best) : Prop :=
  (foundValidMove acc = false ∧ bestScore acc = NegInfinity ∧
   ∀ r c, seen r c → canPlaceShape board r c shape = Some false) ∨
  (foundValidMove acc = true ∧
   ∃ s, bestScore acc = Finite s ∧ seen (bestRow acc) (bestCol acc) ∧
        candidate board shape (bestRow acc) (bestCol acc) s ∧
        ∀ r c t, seen r c → candidate board shape r c t →
                 t ≤ s ∧ (scannedBefore r c (bestRow acc) (bestCol acc) → t < s)).

(** Scan order of the candidates of a batch: shapes in batch order, then
    positions in scan order. *)
Definition triedBefore (i' : nat) (r' c' : Z) (i : nat) (r c : Z) : Prop :=
  (i' < i)%nat ∨ (i' = i ∧ scannedBefore r' c' r c).

(** What the loop of [executeMove] holds after the shapes in [pre]. *)
Definition bestOfBatch (board : Board) (pre : list Shape)
  (best : option Shape * Move) : Prop :=
  (best.1 = None ∧ moveScore best.2 = NegInfinity ∧
   ∀ shape r c, shape ∈ pre → inGrid r c →
                canPlaceShape board r c shape = Some false) ∨
  (∃ shape i s,
     best.1 = Some shape ∧ pre !! i = Some shape ∧
     moveScore best.2 = Finite s ∧
     inGrid (moveRow best.2) (moveCol best.2) ∧
     candidate board shape (moveRow best.2) (moveCol best.2) s ∧
     ∀ i' shape' r' c' t,
       pre !! i' = Some shape' → inGrid r' c' → candidate board shape' r' c' t →
       t ≤ s ∧ (triedBefore i' r' c' i (moveRow best.2) (moveCol best.2) → t < s)).

(** The cell invariant: an empty block has the colour 0, a placed block a
    colour other than 0. *)
Definition blockOk (blk : Block) : Prop :=
  if isEmpty blk then color blk = 0 else color blk ≠ 0.

Definition cellInv (board : Board) : Prop := Forall (Forall blockOk) board.

(** The shapes in play (in the batch, in a move the AI is about to place)
    carry a colour other than 0. *)
Definition callColourOk (call : AiCall) : Prop :=
  match call with
  | AiPlanned shape _ _ => shapeColor shape ≠ 0
  | AiNoMove => True
  end.

Definition coloursOk (g : Game) : Prop :=
  Forall (fun s => shapeColor s ≠ 0) (shapes g) ∧ Forall callColourOk (aiCalls g).

Definition stateInv (g : Game) : Prop := cellInv (gameBoard g) ∧ coloursOk g.

(** The batch by the identities of its shapes' containers. *)
Definition batchIds (g : Game) : list nat := container <$> shapes g.

(** No cell holds a block in [board'] that held none in [board]. *)
Definition noNewBlocks (board board' : Board) : Prop :=
  ∀ r c, filledAt board' r c → filledAt board r c.

(** Nothing is on its way to the board: no shape is being dragged and no AI
    call is suspended. *)
Definition quiet (g : Game) : Prop :=
  Forall (fun s => dragging s = false) (shapes g) ∧ aiCalls g = [].

(** Number of placed blocks on the board, of [true] cells in a matrix. *)
Definition filledCells (board : Board) : nat :=
  length (filter (fun blk => isEmpty blk = false) (concat board)).

Definition trueCells (m : list (list bool)) : nat :=
  length (filter (fun cell => cell = true) (concat m)).

Definition outOfBounds (shape : Shape) (r c : Z) : Prop :=
  r < 0 ∨ c < 0 ∨ r + height shape > GRID_SIZE ∨ c + width shape > GRID_SIZE.


(** ** Sample data *)

(** A game just started, before its first batch. *)
Definition emptyGame : Game := withBoard createEmptyBoard newGame.

(** The L of the catalog. *)
Definition matrixL : list (list bool) :=
  [[true; false]; [true; false]; [true; true]].

(** A board with blocks exactly where [f] says. *)
Definition boardOf (f : Z → Z → bool) : Board :=
  (fun r => (fun c => if f r c then mkBlock 0xff0000 (mkPosition r c) false
                      else mkBlock 0 (mkPosition r c) true)
              <$> seqZ 0 GRID_SIZE)
    <$> seqZ 0 GRID_SIZE.

(** Single block, horizontal domino. *)
Definition unitShape (cid : nat) : Shape := mkShape [[true]] 0xff0000 cid false 1 1.
Definition domino (cid : nat) : Shape := mkShape [[true; true]] 0x00ff00 cid false 2 1.

(** Random draws that always give index 0 and no rotation. *)
Definition noDraw : nat → Draw := fun _ => mkDraw 0 0 0.

(** Every other cell taken: no two neighbouring cells are free. *)
Definition stuckBoard : Board := boardOf (fun r c => Z.odd (r + c)).

(** A single block in hand over [stuckBoard], two dominoes waiting. *)
Definition stuckGame : Game :=
  mkGame stuckBoard 0 false
         [setDragging true (unitShape 0); domino 1; domino 2]
         false false PLAYING [] [] 3.

(** A play that leads to such a position from a new game: 33 single
    blocks are dragged one by one to every other cell and to the last
    corner, no line being ever full; the batch that follows the 33rd has a
    single block and two dominoes. *)
Definition gridCells : list Position :=
  r ← seqZ 0 GRID_SIZE; c ← seqZ 0 GRID_SIZE; [mkPosition r c].

Definition stuckCells : list Position :=
  filter (fun p => Z.odd (row p + col p) = true) gridCells ++ [mkPosition 7 7].

Definition blockAndDominoes : nat → Draw :=
  fun i => match i with O => mkDraw 0 0 0 | _ => mkDraw 1 1 0 end.

Definition dragTo (cid : nat) (pos : Position) (rng : nat → Draw) : list Event :=
  [EvDragStart cid; EvDragEnd pos rng].

Definition stuckPlay : list Event :=
  EvStart noDraw ::
  concat (imap (fun k pos =>
                  dragTo k pos (if (k =? 32)%nat then blockAndDominoes else noDraw))
               stuckCells).

(** One domino left over [stuckBoard]. *)
Definition lastShapeGame : Game :=
  mkGame stuckBoard 0 false [domino 1] false false PLAYING [] [] 3.

(** The earlier revision with the AI switched on, one shape placed, and
    two dominoes that fit nowhere on [stuckBoard]. *)
Definition legacyStuck : Legacy.State :=
  Legacy.mkState
    (mkGame stuckBoard 0 false [domino 1; domino 2] false true START [] [] 3)
    1 [].

(** The earlier revision while its AI animates a move for a shape (the
    single block 0) that the player has meanwhile placed by hand; the
    player now holds the domino 1, the domino 2 waits. *)
Definition legacyRace : Legacy.State :=
  Legacy.mkState
    (mkGame (boardOf (fun r c => (r =? 0) && (c =? 0))) 0 false
            [setDragging true (domino 1); domino 2] false true START [] [] 3)
    1 [Legacy.AtTween (unitShape 0) 5 5].

(** Row 3 lacks its last block only. *)
Definition almostRowBoard : Board :=
  boardOf (fun r c => (r =? 3) && (c <? 7)).

Definition almostRowGame : Game :=
  mkGame almostRowBoard 0 false
         [setDragging true (unitShape 0); domino 1; domino 2]
         false false PLAYING [] [] 3.

(** Row 3 and column 2 full, nothing else. *)
Definition crossBoard : Board := boardOf (fun r c => (r =? 3) || (c =? 2)).

Definition crossGame : Game :=
  mkGame crossBoard 0 false [] false false PLAYING [] [] 0.

(** A play that completes row 0 and column 0 with one drop, from a new
    game in which every draw gives the single block: fourteen blocks are
    dragged to the other cells of the row and of the column, the fifteenth
    to their corner. *)
Definition crossCells : list Position :=
  (mkPosition 0 <$> seqZ 1 7) ++ ((fun r => mkPosition r 0) <$> seqZ 1 7).

Definition crossApproach : list Event :=
  EvStart noDraw :: concat (imap (fun k pos => dragTo k pos noDraw) crossCells).

Definition crossPlay : list Event :=
  crossApproach ++ dragTo 14 (mkPosition 0 0) noDraw.

(** Every callback of the two clear animations that the last drop of
    [crossPlay] starts: fifteen blocks and the final call, twice. *)
Definition bothAnimations : list Event :=
  replicate 16 (EvTimeline 0) ++ replicate 16 (EvTimeline 0).

(** A running game with a batch of two on the empty board. *)
Definition sampleGame : Game :=
  withPhase PLAYING (withShapes [unitShape 0; domino 1] emptyGame).

(** ** Vocabulary of the further properties *)

(** What [Math.floor(Math.random() * n)] can give for the shape and the
    colour: indices into the catalog and the palette. *)
Definition drawOk (d : Draw) : Prop :=
  (shapeIndex d < length SHAPES)%nat ∧ (colorIndex d < length BLOCK_COLORS)%nat.

Definition rngOk (rng : nat → Draw) : Prop := ∀ i, drawOk (rng i).

Definition eventOk (e : Event) : Prop :=
  match e with
  | EvStart rng | EvDragEnd _ rng | EvAiResume _ rng => rngOk rng
  | _ => True
  end.

(** A move the AI is about to place lies on the board. *)
Definition callWf (call : AiCall) : Prop :=
  match call with
  | AiPlanned shape r c => shapeWf shape ∧ ¬ outOfBounds shape r c
  | AiNoMove => True
  end.

(** A game that has been started: a full grid, well-formed shapes in the
    batch and in the moves the AI is about to place. *)
Definition playable (g : Game) : Prop := gameWf g ∧ Forall callWf (aiCalls g).

(** A shape of the catalog, rotated any number of times, is at most four
    cells wide and high. *)
Definition small (s : Shape) : Prop := height s ≤ 4 ∧ width s ≤ 4.


(** A session after the start: a drag and a drop, the AI switched on and
    resumed, the pause menu, an animation callback, back to the start
    screen. *)
Definition sampleSession : list Event :=
  [EvDragStart 0; EvDragEnd (mkPosition 0 0) noDraw; EvToggleAI;
   EvAiResume 0 noDraw; EvSettings; EvContinue; EvTimeline 0; EvHome].

(** A clear animation at work over [crossBoard], a single block in the
    batch. *)
Definition clearingGame : Game :=
  mkGame crossBoard 0 false [unitShape 0] false false PLAYING
         [[mkPosition 3 0; mkPosition 3 1]] [] 1.

(** The animations two line checks in a row leave. *)
Definition twice (rows cols : list Z) : list (list Position) :=
  if decide (rows = [] ∧ cols = []) then []
  else [blocksToRemove rows cols; blocksToRemove rows cols].

(** What a player may try after the game is over. *)
Definition afterGameOver : list Event :=
  [EvDragStart 1; EvDragEnd (mkPosition 0 0) noDraw; EvToggleAI;
   EvAiResume 0 noDraw; EvSettings; EvContinue; EvTimeline 0; EvStart noDraw].

(** The game paused while a call of the AI is suspended: the AI had chosen
    cell (1, 7) for the single block; a block has been put there since. *)
Definition pausedGame : Game :=
  mkGame (boardOf (fun r c => (r =? 1) && (c =? 7))) 0 false
         [unitShape 0; domino 1] true false PAUSED []
         [AiPlanned (unitShape 0) 1 7] 2.

(** Every block sits at the position it carries. *)
Definition positionsOk (board : Board) : Prop :=
  ∀ r c blk, getBlock board r c = Some blk → position blk = mkPosition r c.

(** A score made of line clears: a multiple of 100, not negative. *)
Definition lineScore (n : Z) : Prop := ∃ k, 0 ≤ k ∧ n = k * 100.

(** What the scan of a line remembers of the cell before: whether it held
    a block. *)
Definition prevFilled (s : Scan) : bool :=
  negb (lastWasEmpty s) && (0 <? lineBlocks s).

(** The scans [findBestMove] makes of the rows and columns of a simulated
    board, and the totals [(wouldClearLines, wouldCreateGaps)] it draws
    from them for the placement of [shape] at [(r, c)]. *)
Definition rowScans (sim : list (list bool)) : list Scan :=
  (fun i => scanLine ((fun j => simCell sim i j) <$> seqZ 0 GRID_SIZE))
    <$> seqZ 0 GRID_SIZE.

Definition colScans (sim : list (list bool)) : list Scan :=
  (fun j => scanLine ((fun i => simCell sim i j) <$> seqZ 0 GRID_SIZE))
    <$> seqZ 0 GRID_SIZE.

Definition predicted (board : Board) (r c : Z) (shape : Shape) : option (Z * Z) :=
  sim ← simulatePlacement board r c shape;
  Some (tally (tally (0, 0) (rowScans sim)) (colScans sim)).

(** The shape, placed at [(r, c)], covers the cell [(i, j)]. *)
Definition covers (shape : Shape) (r c i j : Z) : Prop :=
  ∃ a b, shapeCell shape a b ∧ i = r + Z.of_nat a ∧ j = c + Z.of_nat b.

(** A simulated board: a full grid of booleans. *)
Definition simWf (sim : list (list bool)) : Prop :=
  rect sim (Z.to_nat GRID_SIZE) (Z.to_nat GRID_SIZE).

(** Two dominoes over [stuckBoard], the AI switched on. *)
Definition stuckAiGame : Game :=
  mkGame stuckBoard 0 false [domino 1; domino 2] false true PLAYING [] [] 3.

(** ** Layout ([constants.ts], [calculateShapePosition], [getGridPosition])

    Lengths are whole pixels; the quotients the source takes of them are
    exact, and [Math.floor] of a quotient by [BLOCK_SIZE] is [Z.div]. *)

Definition GAME_WIDTH : Z := 400.
Definition GAME_HEIGHT : Z := 700.
Definition BLOCK_SIZE : Z := 40.
Definition BOARD_OFFSET_X : Z := (GAME_WIDTH - GRID_SIZE * BLOCK_SIZE) / 2.
Definition BOARD_OFFSET_Y : Z := 80.

(** [SHAPES_AREA.x] and [SHAPES_AREA.y]. *)
Definition SHAPES_AREA_x : Z := 20.
Definition SHAPES_AREA_y : Z := BOARD_OFFSET_Y + GRID_SIZE * BLOCK_SIZE + 40.

(** Where the [index]-th shape of a batch is shown: [(x, y)] of its
    container. *)
Definition calculateShapePosition (index shapeWidth shapeHeight : Z) : Z * Z :=
  let availableWidth := GAME_WIDTH - 40 in
  let slotWidth := availableWidth / 3 in
  let centerX := SHAPES_AREA_x + slotWidth * index + slotWidth / 2 in
  (centerX - shapeWidth * BLOCK_SIZE / 2, SHAPES_AREA_y).

(** The cell a container at [(x, y)] is dropped on.  The board container
    sits at the origin of the stage, so [toLocal] leaves the coordinates as
    they are. *)
Definition getGridPosition (x y : Z) : Position :=
  mkPosition ((y - BOARD_OFFSET_Y + BLOCK_SIZE / 2) / BLOCK_SIZE)
             ((x - BOARD_OFFSET_X + BLOCK_SIZE / 2) / BLOCK_SIZE).

(** Where [createEmptyBoard] draws the cell [(row, col)]. *)
Definition cellX (col : Z) : Z := col * BLOCK_SIZE + BOARD_OFFSET_X.
Definition cellY (row : Z) : Z := row * BLOCK_SIZE + BOARD_OFFSET_Y.
(** * Properties *)

(** ** The grid *)

Lemma getBlock_Some board r c blk :
  getBlock board r c = Some blk ↔
  0 ≤ r ∧ 0 ≤ c ∧
  ∃ line, board !! Z.to_nat r = Some line ∧ line !! Z.to_nat c = Some blk.
Proof.
  unfold getBlock. case_bool_decide as H.
  - destruct (board !! Z.to_nat r) as [line|] eqn:E; simpl.
    + split.
      * intros Hl. destruct H. eauto 6.
      * intros (_ & _ & line' & Hl & Hc). by simplify_eq.
    + split; [done|]. intros (_ & _ & line' & Hl & _). done.
  - split; [done|]. intros (? & ? & _). lia.
Qed.

Lemma gridWf_line board i line :
  gridWf board → board !! i = Some line → length line = Z.to_nat GRID_SIZE.
Proof.
  intros [_ Hall] Hi. rewrite Forall_lookup in Hall. by eapply Hall.
Qed.

Lemma getBlock_inGrid board r c :
  gridWf board → inGrid r c → is_Some (getBlock board r c).
Proof.
  intros Hwf [Hr Hc].
  destruct (lookup_lt_is_Some_2 board (Z.to_nat r)) as [line Hline].
  { destruct Hwf as [-> _]. lia. }
  destruct (lookup_lt_is_Some_2 line (Z.to_nat c)) as [blk Hblk].
  { rewrite (gridWf_line _ _ _ Hwf Hline). lia. }
  exists blk. apply getBlock_Some. eauto 6 with lia.
Qed.

Lemma getBlock_is_Some_inGrid board r c :
  gridWf board → is_Some (getBlock board r c) → inGrid r c.
Proof.
  intros Hwf [blk H]. apply getBlock_Some in H as (Hr & Hc & line & Hl & Hb).
  pose proof (lookup_lt_Some _ _ _ Hl) as H1.
  pose proof (lookup_lt_Some _ _ _ Hb) as H2.
  rewrite (gridWf_line _ _ _ Hwf Hl) in H2.
  destruct Hwf as [Hlen _]. rewrite Hlen in H1.
  unfold inGrid. lia.
Qed.

Lemma gridWf_createEmptyBoard : gridWf createEmptyBoard.
Proof.
  split; [reflexivity|]. unfold createEmptyBoard.
  apply Forall_fmap, Forall_forall. intros r _. unfold compose.
  by rewrite length_fmap, length_seqZ.
Qed.

Lemma gridWf_boardOf f : gridWf (boardOf f).
Proof.
  split.
  - unfold boardOf. by rewrite length_fmap, length_seqZ.
  - unfold boardOf. apply Forall_fmap, Forall_forall. intros r _. unfold compose.
    by rewrite length_fmap, length_seqZ.
Qed.

(** ** Placement validation *)

Lemma canPlaceCells_true board r c cells :
  canPlaceCells board r c cells = Some true ↔
  ∀ j, cells !! j = Some true →
       ∃ blk, getBlock board r (c + Z.of_nat j) = Some blk ∧ isEmpty blk = true.
Proof.
  revert c. induction cells as [|cell rest IH]; intros c; simpl.
  - split; [|done]. intros _ j Hj. by rewrite lookup_nil in Hj.
  - destruct cell.
    + destruct (getBlock board r c) as [blk|] eqn:E; simpl.
      * destruct (isEmpty blk) eqn:Eb; simpl.
        -- rewrite IH. split.
           ++ intros H [|j] Hj; simpl in *.
              ** exists blk. by rewrite Z.add_0_r.
              ** destruct (H j Hj) as (b & Hb & He). exists b.
                 split; [|done]. rewrite <- Hb. f_equal. lia.
           ++ intros H j Hj. destruct (H (S j) Hj) as (b & Hb & He).
              exists b. split; [|done]. rewrite <- Hb. f_equal. lia.
        -- split; [done|]. intros H. destruct (H 0%nat eq_refl) as (b & Hb & He).
           rewrite Z.add_0_r in Hb. congruence.
      * split; [done|]. intros H. destruct (H 0%nat eq_refl) as (b & Hb & He).
        rewrite Z.add_0_r in Hb. congruence.
    + rewrite IH. split.
      * intros H [|j] Hj; simpl in *; [done|].
        destruct (H j Hj) as (b & Hb & He). exists b.
        split; [|done]. rewrite <- Hb. f_equal. lia.
      * intros H j Hj. destruct (H (S j) Hj) as (b & Hb & He).
        exists b. split; [|done]. rewrite <- Hb. f_equal. lia.
Qed.

Lemma canPlaceCells_total board r c cells :
  (∀ j, cells !! j = Some true → is_Some (getBlock board r (c + Z.of_nat j))) →
  is_Some (canPlaceCells board r c cells).
Proof.
  revert c. induction cells as [|cell rest IH]; intros c H; simpl; [done|].
  assert (Hrest : ∀ j, rest !! j = Some true →
                       is_Some (getBlock board r (c + 1 + Z.of_nat j))).
  { intros j Hj. specialize (H (S j) Hj).
    replace (c + 1 + Z.of_nat j) with (c + Z.of_nat (S j)) by lia. done. }
  destruct cell; [|by apply IH].
  destruct (H 0%nat eq_refl) as [blk Hblk]. rewrite Z.add_0_r in Hblk.
  rewrite Hblk. simpl. destruct (isEmpty blk); simpl; [by apply IH|done].
Qed.

Lemma canPlaceRows_true board r c rows :
  canPlaceRows board r c rows = Some true ↔
  ∀ i line j, rows !! i = Some line → line !! j = Some true →
       ∃ blk, getBlock board (r + Z.of_nat i) (c + Z.of_nat j) = Some blk
              ∧ isEmpty blk = true.
Proof.
  revert r. induction rows as [|cells rest IH]; intros r; simpl.
  - split; [|done]. intros _ i line j Hi. by rewrite lookup_nil in Hi.
  - destruct (canPlaceCells board r c cells) as [[]|] eqn:E; simpl.
    + rewrite IH. pose proof (proj1 (canPlaceCells_true _ _ _ _) E) as E1. split.
      * intros H [|i] line j Hi Hj; simpl in *.
        -- simplify_eq. rewrite Z.add_0_r. by apply E1.
        -- destruct (H i line j Hi Hj) as (b & Hb & He). exists b.
           split; [|done]. rewrite <- Hb. f_equal. lia.
      * intros H i line j Hi Hj. destruct (H (S i) line j Hi Hj) as (b & Hb & He).
        exists b. split; [|done]. rewrite <- Hb. f_equal. lia.
    + split; [done|]. intros H.
      assert (canPlaceCells board r c cells = Some true) as E'; [|congruence].
      apply canPlaceCells_true. intros j Hj.
      destruct (H 0%nat cells j eq_refl Hj) as (b & Hb & He).
      rewrite Z.add_0_r in Hb. eauto.
    + split; [done|]. intros H.
      assert (canPlaceCells board r c cells = Some true) as E'; [|congruence].
      apply canPlaceCells_true. intros j Hj.
      destruct (H 0%nat cells j eq_refl Hj) as (b & Hb & He).
      rewrite Z.add_0_r in Hb. eauto.
Qed.

Lemma canPlaceRows_total board r c rows :
  (∀ i line j, rows !! i = Some line → line !! j = Some true →
       is_Some (getBlock board (r + Z.of_nat i) (c + Z.of_nat j))) →
  is_Some (canPlaceRows board r c rows).
Proof.
  revert r. induction rows as [|cells rest IH]; intros r H; simpl; [done|].
  destruct (canPlaceCells_total board r c cells) as [ok Hok].
  { intros j Hj. specialize (H 0%nat cells j eq_refl Hj).
    by rewrite Z.add_0_r in H. }
  rewrite Hok. simpl. destruct ok; [|done]. apply IH.
  intros i line j Hi Hj. specialize (H (S i) line j Hi Hj).
  replace (r + 1 + Z.of_nat i) with (r + Z.of_nat (S i)) by lia. done.
Qed.

Lemma shapeWf_cell_bounds shape i j :
  shapeWf shape → shapeCell shape i j →
  Z.of_nat i < height shape ∧ Z.of_nat j < width shape.
Proof.
  intros (_ & Hh & Hw) (line & Hi & Hj).
  rewrite Forall_lookup in Hw. specialize (Hw _ _ Hi).
  apply lookup_lt_Some in Hi, Hj. lia.
Qed.

Lemma canPlaceShape_unfold board shape r c :
  shapeWf shape →
  canPlaceShape board r c shape =
  if bool_decide (outOfBounds shape r c) then Some false
  else canPlaceRows board r c (blocks shape).
Proof.
  intros (Hne & Hh & Hw). unfold canPlaceShape, outOfBounds.
  destruct (blocks shape) as [|first rest] eqn:E; [done|].
  apply Forall_cons_1 in Hw as [Hw _]. rewrite Hh, <- Hw.
  cbn [head mbind option_bind]. rewrite !Z.gtb_ltb.
  destruct (Z.ltb_spec r 0), (Z.ltb_spec GRID_SIZE (r + Z.of_nat (length (first :: rest)))),
    (Z.ltb_spec c 0), (Z.ltb_spec GRID_SIZE (c + Z.of_nat (length first)));
    cbn [orb]; case_bool_decide; try done; lia.
Qed.

Lemma canPlaceShape_total board shape r c :
  gridWf board → shapeWf shape → is_Some (canPlaceShape board r c shape).
Proof.
  intros Hg Hs. rewrite canPlaceShape_unfold by done.
  case_bool_decide as Hb; [done|].
  apply canPlaceRows_total. intros i line j Hi Hj.
  apply getBlock_inGrid; [done|].
  destruct (shapeWf_cell_bounds shape i j Hs) as [H1 H2]; [by exists line|].
  unfold outOfBounds in Hb. unfold inGrid. lia.
Qed.

(** C2: on a full grid and for a rectangular shape, [canPlaceShape] answers
    [false] when the shape would leave the grid, [false] when one of its
    [true] cells would lie on a placed block, and [true] otherwise. *)
Theorem canPlaceShape_correct board shape r c :
  gridWf board → shapeWf shape →
  (outOfBounds shape r c → canPlaceShape board r c shape = Some false) ∧
  (overlaps board shape r c → canPlaceShape board r c shape = Some false) ∧
  (¬ outOfBounds shape r c → ¬ overlaps board shape r c →
   canPlaceShape board r c shape = Some true).
Proof.
  intros Hg Hs.
  assert (Hoob : outOfBounds shape r c → canPlaceShape board r c shape = Some false).
  { intros H. rewrite canPlaceShape_unfold by done. by rewrite bool_decide_eq_true_2. }
  split; [done|]. split.
  - intros Hov. destruct (decide (outOfBounds shape r c)) as [|Hin]; [by apply Hoob|].
    destruct (canPlaceShape_total board shape r c Hg Hs) as [[] Hb]; [|done].
    exfalso. rewrite canPlaceShape_unfold in Hb by done.
    rewrite bool_decide_eq_false_2 in Hb by done.
    destruct Hov as (i & j & (line & Hi & Hj) & blk & Hblk & Hfilled).
    destruct (proj1 (canPlaceRows_true _ _ _ _) Hb i line j Hi Hj) as (b & Hb' & He).
    congruence.
  - intros Hin Hov. rewrite canPlaceShape_unfold by done.
    rewrite bool_decide_eq_false_2 by done.
    apply canPlaceRows_true. intros i line j Hi Hj.
    destruct (getBlock_inGrid board (r + Z.of_nat i) (c + Z.of_nat j) Hg) as [blk Hblk].
    { destruct (shapeWf_cell_bounds shape i j Hs) as [H1 H2]; [by exists line|].
      unfold outOfBounds in Hin. unfold inGrid. lia. }
    exists blk. split; [done|]. destruct (isEmpty blk) eqn:E; [done|].
    exfalso. apply Hov. exists i, j. split; [by exists line|]. by exists blk.
Qed.

Lemma canPlaceShape_correct_witness :
  (outOfBounds (domino 0) 0 7 →
   canPlaceShape createEmptyBoard 0 7 (domino 0) = Some false) ∧
  (overlaps createEmptyBoard (domino 0) 0 7 →
   canPlaceShape createEmptyBoard 0 7 (domino 0) = Some false) ∧
  (¬ outOfBounds (domino 0) 0 7 → ¬ overlaps createEmptyBoard (domino 0) 0 7 →
   canPlaceShape createEmptyBoard 0 7 (domino 0) = Some true).
Proof.
  apply canPlaceShape_correct.
  - apply gridWf_createEmptyBoard.
  - split; [done|]. split; [done|]. by repeat constructor.
Defined.

(** ** Writing one block *)

Lemma setBlock_lookup_eq board r c old new :
  getBlock board r c = Some old →
  getBlock (setBlock board r c new) r c = Some new.
Proof.
  intros H. apply getBlock_Some in H as (Hr & Hc & line & Hl & Hb).
  apply getBlock_Some. do 2 (split; [done|]).
  exists (<[Z.to_nat c := new]> line). split.
  - unfold setBlock. by rewrite list_lookup_alter_eq, Hl.
  - apply list_lookup_insert_eq. by eapply lookup_lt_Some.
Qed.

Lemma setBlock_lookup_ne board r c r' c' new :
  is_Some (getBlock board r c) → (r', c') ≠ (r, c) →
  getBlock (setBlock board r c new) r' c' = getBlock board r' c'.
Proof.
  intros [old H] Hne. apply getBlock_Some in H as (Hr & Hc & line & Hl & Hb).
  unfold getBlock, setBlock. case_bool_decide as Hpos; [|done].
  destruct (decide (Z.to_nat r = Z.to_nat r')) as [Heq|Hneq].
  - rewrite <- Heq, list_lookup_alter_eq, Hl. simpl.
    apply list_lookup_insert_ne. intros Hc'. apply Hne. f_equal; lia.
  - by rewrite list_lookup_alter_ne.
Qed.

Lemma setBlock_gridWf board r c new :
  gridWf board → gridWf (setBlock board r c new).
Proof.
  intros [Hlen Hall]. split.
  - unfold setBlock. by rewrite length_alter.
  - apply Forall_alter; [done|]. intros line _ Hline. by rewrite length_insert.
Qed.

Lemma filter_insert_length {A} (P : A → Prop) `{!∀ x, Decision (P x)}
    (l : list A) i old new :
  l !! i = Some old →
  (length (filter P (<[i := new]> l)) + (if decide (P old) then 1 else 0) =
   length (filter P l) + (if decide (P new) then 1 else 0))%nat.
Proof.
  intros Hi. rewrite insert_take_drop by (by eapply lookup_lt_Some).
  rewrite <- (take_drop_middle l i old Hi) at 3.
  rewrite !filter_app, !length_app, !filter_cons.
  repeat case_decide; simpl; lia.
Qed.

Lemma filledCells_setBlock board r c old new :
  getBlock board r c = Some old →
  (filledCells (setBlock board r c new) + (if isEmpty old then 0 else 1) =
   filledCells board + (if isEmpty new then 0 else 1))%nat.
Proof.
  intros H. apply getBlock_Some in H as (Hr & Hc & line & Hl & Hb).
  unfold filledCells, setBlock.
  assert (alter (λ line, <[Z.to_nat c:=new]> line) (Z.to_nat r) board
          = take (Z.to_nat r) board ++ <[Z.to_nat c:=new]> line
              :: drop (S (Z.to_nat r)) board) as ->.
  { apply list_eq. intros i. rewrite list_lookup_alter.
    rewrite <- (insert_take_drop board (Z.to_nat r)) by (by eapply lookup_lt_Some).
    case_decide as Hi.
    - subst i. rewrite Hl. simpl. symmetry. apply list_lookup_insert_eq.
      by eapply lookup_lt_Some.
    - by rewrite list_lookup_insert_ne. }
  rewrite <- (take_drop_middle board (Z.to_nat r) line Hl) at 3.
  rewrite !concat_app, !concat_cons, !filter_app, !length_app.
  pose proof (filter_insert_length (λ blk, isEmpty blk = false) line
                (Z.to_nat c) old new Hb) as Hcount.
  cbv beta in Hcount.
  destruct (isEmpty old), (isEmpty new); repeat case_decide; try done; lia.
Qed.

(** ** Early-exit loops *)

Lemma anyM_false {A} (f : A → option bool) l :
  anyM f l = Some false ↔ Forall (λ x, f x = Some false) l.
Proof.
  induction l as [|x rest IH]; simpl.
  - split; [by constructor|done].
  - destruct (f x) as [[]|] eqn:E; simpl.
    + split; [done|]. intros [? _]%Forall_cons_1. congruence.
    + split.
      * intros H. constructor; [done|]. by apply IH.
      * intros [_ H]%Forall_cons_1. by apply IH.
    + split; [done|]. intros [? _]%Forall_cons_1. congruence.
Qed.

Lemma anyM_total {A} (f : A → option bool) l :
  Forall (λ x, is_Some (f x)) l → is_Some (anyM f l).
Proof.
  induction 1 as [|x rest [b Hb] _ IH]; simpl; [done|].
  rewrite Hb. simpl. by destruct b.
Qed.

Lemma anyM_true {A} (f : A → option bool) l :
  Forall (λ x, is_Some (f x)) l →
  anyM f l = Some true ↔ Exists (λ x, f x = Some true) l.
Proof.
  induction 1 as [|x rest [b Hb] _ IH]; simpl.
  - split; [done|]. by intros ?%Exists_nil.
  - rewrite Hb. simpl. destruct b.
    + split; [|done]. intros _. by left.
    + split.
      * intros H. right. by apply IH.
      * intros [H|H]%Exists_cons; [congruence|]. by apply IH.
Qed.

Lemma filterM_total {A} (f : A → option bool) l :
  Forall (λ x, is_Some (f x)) l → is_Some (filterM f l).
Proof.
  induction 1 as [|x rest [b Hb] _ [out Hout]]; simpl; [done|].
  rewrite Hb, Hout. by simpl.
Qed.

Lemma filterM_filter {A} (f : A → option bool) l out :
  filterM f l = Some out → out = filter (λ x, f x = Some true) l.
Proof.
  revert out. induction l as [|x rest IH]; intros out; simpl.
  - by intros [= <-].
  - destruct (f x) as [b|] eqn:Hb; [|done]. simpl.
    destruct (filterM f rest) as [out'|]; [|done]. simpl. intros [= <-].
    rewrite (IH out' eq_refl). destruct b.
    + by rewrite filter_cons_True.
    + rewrite filter_cons_False; [done|]. congruence.
Qed.

Lemma forM_app {A S} (f : S → A → option S) l1 l2 s :
  forM f (l1 ++ l2) s = s' ← forM f l1 s; forM f l2 s'.
Proof.
  revert s. induction l1 as [|x rest IH]; intros s; simpl; [done|].
  destruct (f s x); simpl; [apply IH|done].
Qed.

(** ** Detection of full lines *)

Lemma seqZ_grid_Forall (P : Z → Prop) :
  (∀ i, 0 ≤ i < GRID_SIZE → P i) → Forall P (seqZ 0 GRID_SIZE).
Proof. intros H. apply Forall_seqZ. intros i Hi. apply H. lia. Qed.

Lemma isEmpty_getBlock_false board r c :
  isEmpty <$> getBlock board r c = Some false ↔ filledAt board r c.
Proof.
  unfold filledAt. destruct (getBlock board r c) as [blk|]; simpl.
  - split.
    + intros [= H]. eauto.
    + intros (b & [= <-] & H). by rewrite H.
  - split; [done|]. by intros (b & ? & _).
Qed.

Lemma rowIsFull_spec board r :
  gridWf board → 0 ≤ r < GRID_SIZE →
  ∃ b, rowIsFull board r = Some b ∧
       (b = true ↔ ∀ c, 0 ≤ c < GRID_SIZE → filledAt board r c).
Proof.
  intros Hwf Hr. unfold rowIsFull.
  set (f := λ c, isEmpty <$> getBlock board r c).
  assert (Htot : Forall (λ c, is_Some (f c)) (seqZ 0 GRID_SIZE)).
  { apply seqZ_grid_Forall. intros c Hc.
    destruct (getBlock_inGrid board r c Hwf) as [blk Hblk]; [done|].
    unfold f. rewrite Hblk. by eexists. }
  destruct (anyM_total f _ Htot) as [b Hb]. rewrite Hb. simpl.
  exists (negb b). split; [done|]. destruct b; simpl.
  - split; [done|]. intros Hall.
    apply anyM_true in Hb; [|done]. apply Exists_exists in Hb as (c & Hc & Hfc).
    apply elem_of_seqZ in Hc.
    assert (f c = Some false) by (apply isEmpty_getBlock_false, Hall; lia).
    congruence.
  - split; [|done]. intros _ c Hc. apply isEmpty_getBlock_false.
    apply anyM_false in Hb. rewrite Forall_forall in Hb. apply Hb.
    apply elem_of_seqZ. lia.
Qed.

Lemma colIsFull_spec board c :
  gridWf board → 0 ≤ c < GRID_SIZE →
  ∃ b, colIsFull board c = Some b ∧
       (b = true ↔ ∀ r, 0 ≤ r < GRID_SIZE → filledAt board r c).
Proof.
  intros Hwf Hc. unfold colIsFull.
  set (f := λ r, isEmpty <$> getBlock board r c).
  assert (Htot : Forall (λ r, is_Some (f r)) (seqZ 0 GRID_SIZE)).
  { apply seqZ_grid_Forall. intros r Hr.
    destruct (getBlock_inGrid board r c Hwf) as [blk Hblk]; [done|].
    unfold f. rewrite Hblk. by eexists. }
  destruct (anyM_total f _ Htot) as [b Hb]. rewrite Hb. simpl.
  exists (negb b). split; [done|]. destruct b; simpl.
  - split; [done|]. intros Hall.
    apply anyM_true in Hb; [|done]. apply Exists_exists in Hb as (r & Hr & Hfr).
    apply elem_of_seqZ in Hr.
    assert (f r = Some false) by (apply isEmpty_getBlock_false, Hall; lia).
    congruence.
  - split; [|done]. intros _ r Hr. apply isEmpty_getBlock_false.
    apply anyM_false in Hb. rewrite Forall_forall in Hb. apply Hb.
    apply elem_of_seqZ. lia.
Qed.

Lemma rowsToRemove_total board :
  gridWf board → is_Some (rowsToRemove board).
Proof.
  intros Hwf. apply filterM_total, seqZ_grid_Forall. intros r Hr.
  destruct (rowIsFull_spec board r Hwf Hr) as (b & -> & _). by eexists.
Qed.

Lemma colsToRemove_total board :
  gridWf board → is_Some (colsToRemove board).
Proof.
  intros Hwf. apply filterM_total, seqZ_grid_Forall. intros c Hc.
  destruct (colIsFull_spec board c Hwf Hc) as (b & -> & _). by eexists.
Qed.

Lemma rowsToRemove_spec board rows :
  gridWf board → rowsToRemove board = Some rows →
  NoDup rows ∧
  ∀ r, r ∈ rows ↔
       0 ≤ r < GRID_SIZE ∧ ∀ c, 0 ≤ c < GRID_SIZE → filledAt board r c.
Proof.
  intros Hwf H. apply filterM_filter in H as ->. split.
  - apply NoDup_filter, NoDup_seqZ.
  - intros r. rewrite list_elem_of_filter, elem_of_seqZ. split.
    + intros [Hfull Hr]. assert (0 ≤ r < GRID_SIZE) as Hr' by lia.
      split; [done|].
      destruct (rowIsFull_spec board r Hwf Hr') as (b & Hb & Hiff).
      apply Hiff. congruence.
    + intros [Hr Hall]. split; [|lia].
      destruct (rowIsFull_spec board r Hwf Hr) as (b & Hb & Hiff).
      rewrite Hb. f_equal. by apply Hiff.
Qed.

Lemma colsToRemove_spec board cols :
  gridWf board → colsToRemove board = Some cols →
  NoDup cols ∧
  ∀ c, c ∈ cols ↔
       0 ≤ c < GRID_SIZE ∧ ∀ r, 0 ≤ r < GRID_SIZE → filledAt board r c.
Proof.
  intros Hwf H. apply filterM_filter in H as ->. split.
  - apply NoDup_filter, NoDup_seqZ.
  - intros c. rewrite list_elem_of_filter, elem_of_seqZ. split.
    + intros [Hfull Hc]. assert (0 ≤ c < GRID_SIZE) as Hc' by lia.
      split; [done|].
      destruct (colIsFull_spec board c Hwf Hc') as (b & Hb & Hiff).
      apply Hiff. congruence.
    + intros [Hc Hall]. split; [|lia].
      destruct (colIsFull_spec board c Hwf Hc) as (b & Hb & Hiff).
      rewrite Hb. f_equal. by apply Hiff.
Qed.

(** ** Move availability and the line check *)

Lemma shapeHasMove_total board shape :
  gridWf board → shapeWf shape → is_Some (shapeHasMove board shape).
Proof.
  intros Hg Hs. apply anyM_total, seqZ_grid_Forall. intros r _.
  apply anyM_total, seqZ_grid_Forall. intros c _.
  by apply canPlaceShape_total.
Qed.

Lemma shapeHasMove_true board shape :
  gridWf board → shapeWf shape →
  shapeHasMove board shape = Some true ↔
  ∃ r c, inGrid r c ∧ canPlaceShape board r c shape = Some true.
Proof.
  intros Hg Hs. unfold shapeHasMove.
  assert (Hin : ∀ r, Forall (λ c, is_Some (canPlaceShape board r c shape))
                       (seqZ 0 GRID_SIZE)).
  { intros r. apply seqZ_grid_Forall. intros c _. by apply canPlaceShape_total. }
  rewrite anyM_true.
  2:{ apply seqZ_grid_Forall. intros r _. by apply anyM_total. }
  rewrite Exists_exists. split.
  - intros (r & Hr & H). apply anyM_true in H; [|done].
    apply Exists_exists in H as (c & Hc & H).
    apply elem_of_seqZ in Hr, Hc. exists r, c. unfold inGrid. split; [lia|done].
  - intros (r & c & [Hr Hc] & H). exists r. split; [apply elem_of_seqZ; lia|].
    apply anyM_true; [done|]. apply Exists_exists. exists c.
    split; [apply elem_of_seqZ; lia|done].
Qed.

Lemma hasValidMovesOn_total board batch :
  gridWf board → Forall shapeWf batch → is_Some (hasValidMovesOn board batch).
Proof.
  intros Hg Hs. unfold hasValidMovesOn. case_match; [|done].
  apply anyM_total. eapply Forall_impl; [done|]. intros shape Hshape.
  by apply shapeHasMove_total.
Qed.

Lemma hasValidMovesOn_true board batch :
  gridWf board → Forall shapeWf batch →
  hasValidMovesOn board batch = Some true ↔
  ∃ shape r c, shape ∈ batch ∧ inGrid r c ∧
               canPlaceShape board r c shape = Some true.
Proof.
  intros Hg Hs. unfold hasValidMovesOn.
  destruct (0 <? Z.of_nat (length batch)) eqn:E.
  - rewrite anyM_true.
    2:{ eapply Forall_impl; [done|]. intros. by apply shapeHasMove_total. }
    rewrite Exists_exists. rewrite Forall_forall in Hs. split.
    + intros (shape & Hin & H). apply shapeHasMove_true in H; [|done|by apply Hs].
      destruct H as (r & c & ? & ?). by exists shape, r, c.
    + intros (shape & r & c & Hin & Hrc & H). exists shape. split; [done|].
      apply shapeHasMove_true; [done|by apply Hs|]. by exists r, c.
  - apply Z.ltb_ge in E. destruct batch; [|rewrite length_cons in E; lia].
    split; [done|].
    intros (shape & r & c & Hin & _). by apply elem_of_nil in Hin.
Qed.

Lemma checkLines_total g : gameWf g → is_Some (checkLines g).
Proof.
  intros [Hg Hs]. unfold checkLines.
  destruct (rowsToRemove_total _ Hg) as [rows ->].
  destruct (colsToRemove_total _ Hg) as [cols ->]. simpl.
  set (g1 := clearFullLines rows cols g).
  assert (gameBoard g1 = gameBoard g ∧ shapes g1 = shapes g) as [Hb Hsh].
  { unfold g1, clearFullLines. by case_match. }
  case_match; [|done].
  destruct (hasValidMovesOn_total (gameBoard g1) (shapes g1)) as [valid Hv].
  { by rewrite Hb. } { by rewrite Hsh. }
  unfold hasValidMoves. rewrite Hv. by simpl.
Qed.

(** What [checkLines] leaves alone: the board (the blocks are cleared later,
    by the animation) and the batch. *)
Lemma checkLines_frame g g' :
  checkLines g = Some g' →
  gameBoard g' = gameBoard g ∧ shapes g' = shapes g ∧
  isAIEnabled g' = isAIEnabled g ∧ previousAIState g' = previousAIState g ∧
  aiCalls g' = aiCalls g ∧ nextContainer g' = nextContainer g.
Proof.
  unfold checkLines. intros H.
  destruct (rowsToRemove (gameBoard g)) as [rows|]; [|done].
  destruct (colsToRemove (gameBoard g)) as [cols|]; [|done]. simpl in H.
  set (g1 := clearFullLines rows cols g) in H.
  assert (gameBoard g1 = gameBoard g ∧ shapes g1 = shapes g ∧
          isAIEnabled g1 = isAIEnabled g ∧ previousAIState g1 = previousAIState g ∧
          aiCalls g1 = aiCalls g ∧ nextContainer g1 = nextContainer g) as Hg1.
  { unfold g1, clearFullLines. destruct (_ || _); repeat split; reflexivity. }
  case_match.
  - destruct (hasValidMoves g1) as [[]|]; simpl in H; [| |done].
    + injection H as <-. apply Hg1.
    + injection H as <-. simpl. apply Hg1.
  - injection H as <-. apply Hg1.
Qed.

(** ** Committing a placement *)

Lemma fillBlock_spec board r c shade blk :
  gridWf board → getBlock board r c = Some blk →
  ∃ board', fillBlock board r c shade = Some board' ∧ gridWf board' ∧
    getBlock board' r c = Some (mkBlock shade (position blk) false) ∧
    (∀ r' c', (r', c') ≠ (r, c) → getBlock board' r' c' = getBlock board r' c') ∧
    (filledCells board' + (if isEmpty blk then 0 else 1) = filledCells board + 1)%nat.
Proof.
  intros Hwf Hblk. unfold fillBlock. rewrite Hblk. simpl. eexists. split; [done|].
  split; [by apply setBlock_gridWf|]. split; [by eapply setBlock_lookup_eq|].
  split.
  - intros r' c' Hne. by apply setBlock_lookup_ne.
  - by rewrite (filledCells_setBlock board r c blk).
Qed.

Lemma placeCells_spec shade board r c cells :
  gridWf board →
  (∀ j, cells !! j = Some true →
        ∃ blk, getBlock board r (c + Z.of_nat j) = Some blk ∧ isEmpty blk = true) →
  ∃ board', placeCells shade board r c cells = Some board' ∧ gridWf board' ∧
    (∀ j, cells !! j = Some true →
          ∃ blk, getBlock board' r (c + Z.of_nat j) = Some blk ∧
                 isEmpty blk = false ∧ color blk = shade) ∧
    (∀ r' c', (∀ j, cells !! j = Some true → (r', c') ≠ (r, c + Z.of_nat j)) →
              getBlock board' r' c' = getBlock board r' c') ∧
    filledCells board' =
      (filledCells board + length (filter (λ cell, cell = true) cells))%nat.
Proof.
  revert board c. induction cells as [|cell rest IH]; intros board c Hwf Hfree.
  - exists board. simpl. split; [done|]. split; [done|]. split; [|split].
    + intros j Hj. by rewrite lookup_nil in Hj.
    + done.
    + lia.
  - cbn [placeCells]. destruct cell.
    + destruct (Hfree 0%nat eq_refl) as (blk & Hblk & Hemp).
      rewrite Z.add_0_r in Hblk.
      destruct (fillBlock_spec board r c shade blk Hwf Hblk)
        as (b1 & -> & Hwf1 & Hget1 & Hother1 & Hcount1).
      cbn [mbind option_bind]. rewrite Hemp in Hcount1.
      destruct (IH b1 (c + 1)) as (b2 & -> & Hwf2 & Hset2 & Hother2 & Hcount2);
        [done| |].
      { intros j Hj. destruct (Hfree (S j) Hj) as (blk' & Hblk' & Hemp').
        exists blk'. split; [|done]. rewrite Hother1 by (intros [=]; lia).
        rewrite <- Hblk'. f_equal. lia. }
      exists b2. split; [done|]. split; [done|]. split; [|split].
      * intros [|j] Hj.
        -- rewrite Z.add_0_r, Hother2, Hget1 by (intros j' _ [=]; lia).
           by eexists.
        -- destruct (Hset2 j Hj) as (blk' & Hblk' & ?). exists blk'.
           split; [|done]. rewrite <- Hblk'. f_equal. lia.
      * intros r' c' Hne. rewrite Hother2, Hother1.
        -- done.
        -- specialize (Hne 0%nat eq_refl). by rewrite Z.add_0_r in Hne.
        -- intros j Hj. specialize (Hne (S j) Hj).
           by replace (c + 1 + Z.of_nat j) with (c + Z.of_nat (S j)) by lia.
      * rewrite filter_cons_True by done. simpl. lia.
    + destruct (IH board (c + 1)) as (b2 & -> & Hwf2 & Hset2 & Hother2 & Hcount2);
        [done| |].
      { intros j Hj. destruct (Hfree (S j) Hj) as (blk' & Hblk' & Hemp').
        exists blk'. split; [|done]. rewrite <- Hblk'. f_equal. lia. }
      exists b2. split; [done|]. split; [done|]. split; [|split].
      * intros [|j] Hj; [done|].
        destruct (Hset2 j Hj) as (blk' & Hblk' & ?). exists blk'.
        split; [|done]. rewrite <- Hblk'. f_equal. lia.
      * intros r' c' Hne. apply Hother2. intros j Hj. specialize (Hne (S j) Hj).
        by replace (c + 1 + Z.of_nat j) with (c + Z.of_nat (S j)) by lia.
      * rewrite filter_cons_False by done. done.
Qed.

Lemma placeRows_spec shade board r c rows :
  gridWf board →
  (∀ i line j, rows !! i = Some line → line !! j = Some true →
        ∃ blk, getBlock board (r + Z.of_nat i) (c + Z.of_nat j) = Some blk
               ∧ isEmpty blk = true) →
  ∃ board', placeRows shade board r c rows = Some board' ∧ gridWf board' ∧
    (∀ i line j, rows !! i = Some line → line !! j = Some true →
          ∃ blk, getBlock board' (r + Z.of_nat i) (c + Z.of_nat j) = Some blk ∧
                 isEmpty blk = false ∧ color blk = shade) ∧
    (∀ r' c', (∀ i line j, rows !! i = Some line → line !! j = Some true →
                           (r', c') ≠ (r + Z.of_nat i, c + Z.of_nat j)) →
              getBlock board' r' c' = getBlock board r' c') ∧
    filledCells board' = (filledCells board + trueCells rows)%nat.
Proof.
  revert board r. induction rows as [|cells rest IH]; intros board r Hwf Hfree.
  - exists board. simpl. split; [done|]. split; [done|]. split; [|split].
    + intros i line j Hi. by rewrite lookup_nil in Hi.
    + done.
    + unfold trueCells. simpl. lia.
  - cbn [placeRows].
    destruct (placeCells_spec shade board r c cells Hwf)
      as (b1 & -> & Hwf1 & Hset1 & Hother1 & Hcount1).
    { intros j Hj. specialize (Hfree 0%nat cells j eq_refl Hj).
      by rewrite Z.add_0_r in Hfree. }
    cbn [mbind option_bind].
    destruct (IH b1 (r + 1)) as (b2 & -> & Hwf2 & Hset2 & Hother2 & Hcount2);
      [done| |].
    { intros i line j Hi Hj.
      destruct (Hfree (S i) line j Hi Hj) as (blk & Hblk & Hemp).
      exists blk. split; [|done]. rewrite Hother1 by (intros j' _ [=]; lia).
      rewrite <- Hblk. f_equal. lia. }
    exists b2. split; [done|]. split; [done|]. split; [|split].
    + intros [|i] line j Hi Hj.
      * simpl in Hi. injection Hi as <-.
        rewrite Z.add_0_r, Hother2 by (intros i' l' j' _ _ [=]; lia).
        by apply Hset1.
      * destruct (Hset2 i line j Hi Hj) as (blk & Hblk & ?). exists blk.
        split; [|done]. rewrite <- Hblk. f_equal. lia.
    + intros r' c' Hne. rewrite Hother2, Hother1.
      * done.
      * intros j Hj. specialize (Hne 0%nat cells j eq_refl Hj).
        by rewrite Z.add_0_r in Hne.
      * intros i line j Hi Hj. specialize (Hne (S i) line j Hi Hj).
        by replace (r + 1 + Z.of_nat i) with (r + Z.of_nat (S i)) by lia.
    + rewrite Hcount2, Hcount1. unfold trueCells. simpl.
      rewrite filter_app, length_app. lia.
Qed.

(** ** The blocks of a clear *)

Lemma pushIfAbsent_spec acc ref :
  (NoDup acc → NoDup (pushIfAbsent acc ref)) ∧
  (∀ p, p ∈ pushIfAbsent acc ref ↔ p ∈ acc ∨ p = ref).
Proof.
  unfold pushIfAbsent. case_bool_decide as Hin; split.
  - done.
  - intros p. split; [by left|]. intros [Hp|Hp]; [done|by subst].
  - intros Hnd. apply NoDup_app. split; [done|]. split.
    + intros x Hx Hx'%list_elem_of_singleton. by subst.
    + apply NoDup_singleton.
  - intros p. rewrite elem_of_app, list_elem_of_singleton. done.
Qed.

Lemma pushAll_spec (f : Z → Position) l acc :
  (NoDup acc → NoDup (foldl (λ acc x, pushIfAbsent acc (f x)) acc l)) ∧
  (∀ p, p ∈ foldl (λ acc x, pushIfAbsent acc (f x)) acc l ↔
        p ∈ acc ∨ ∃ x, x ∈ l ∧ p = f x).
Proof.
  revert acc. induction l as [|x rest IH]; intros acc; simpl.
  - split; [done|]. intros p. split; [by left|].
    intros [?|(x & Hx & _)]; [done|]. by apply elem_of_nil in Hx.
  - destruct (IH (pushIfAbsent acc (f x))) as [Hnd Hmem].
    destruct (pushIfAbsent_spec acc (f x)) as [Hnd1 Hmem1]. split.
    + intros H. by apply Hnd, Hnd1.
    + intros p. rewrite Hmem, Hmem1. split.
      * intros [[?|Hp]|(y & Hy & Hp)]; try subst p.
        -- by left.
        -- right. exists x. split; [apply elem_of_cons; by left|done].
        -- right. exists y. split; [apply elem_of_cons; by right|done].
      * intros [?|(y & Hy & Hp)]; [by left; left|]. subst p.
        apply elem_of_cons in Hy as [Hy|Hy]; [subst; by left; right|].
        right. by exists y.
Qed.

Lemma pushLines_spec (f : Z → Z → Position) lines acc :
  (NoDup acc →
   NoDup (foldl (λ acc a, foldl (λ acc b, pushIfAbsent acc (f a b)) acc
                            (seqZ 0 GRID_SIZE)) acc lines)) ∧
  (∀ p, p ∈ foldl (λ acc a, foldl (λ acc b, pushIfAbsent acc (f a b)) acc
                              (seqZ 0 GRID_SIZE)) acc lines ↔
        p ∈ acc ∨ ∃ a b, a ∈ lines ∧ 0 ≤ b < GRID_SIZE ∧ p = f a b).
Proof.
  revert acc. induction lines as [|a rest IH]; intros acc; cbn [foldl].
  - split; [done|]. intros p. split; [by left|].
    intros [?|(a & b & Ha & _)]; [done|]. by apply elem_of_nil in Ha.
  - set (acc1 := foldl (λ acc b, pushIfAbsent acc (f a b)) acc (seqZ 0 GRID_SIZE)).
    destruct (IH acc1) as [Hnd Hmem].
    destruct (pushAll_spec (f a) (seqZ 0 GRID_SIZE) acc) as [Hnd1 Hmem1].
    fold acc1 in Hnd1, Hmem1. split.
    + intros H. by apply Hnd, Hnd1.
    + intros p. rewrite Hmem, Hmem1. split.
      * intros [[?|(b & Hb & Hp)]|(a' & b & Ha' & Hb & Hp)]; try subst p.
        -- by left.
        -- right. exists a, b. apply elem_of_seqZ in Hb.
           split; [apply elem_of_cons; by left|]. split; [lia|done].
        -- right. exists a', b. split; [apply elem_of_cons; by right|done].
      * intros [?|(a' & b & Ha' & Hb & Hp)]; [by left; left|]. subst p.
        apply elem_of_cons in Ha' as [Ha'|Ha']; [subst a'|].
        -- left; right. exists b. split; [apply elem_of_seqZ; lia|done].
        -- right. by exists a', b.
Qed.

Lemma blocksToRemove_spec rows cols :
  NoDup (blocksToRemove rows cols) ∧
  ∀ r c, mkPosition r c ∈ blocksToRemove rows cols ↔
         (r ∈ rows ∧ 0 ≤ c < GRID_SIZE) ∨ (c ∈ cols ∧ 0 ≤ r < GRID_SIZE).
Proof.
  unfold blocksToRemove.
  set (acc := foldl (λ acc r, foldl (λ acc c, pushIfAbsent acc (mkPosition r c))
                                 acc (seqZ 0 GRID_SIZE)) [] rows).
  destruct (pushLines_spec (λ r c, mkPosition r c) rows []) as [Hnd1 Hmem1].
  fold acc in Hnd1, Hmem1.
  destruct (pushLines_spec (λ c r, mkPosition r c) cols acc) as [Hnd2 Hmem2].
  split.
  - apply Hnd2, Hnd1, NoDup_nil_2.
  - intros r c. rewrite Hmem2, Hmem1. split.
    + intros [[Hnil|(a & b & Ha & Hb & Hp)]|(a & b & Ha & Hb & Hp)];
        try (injection Hp as -> ->).
      * by apply elem_of_nil in Hnil.
      * by left.
      * by right.
    + intros [[Hr Hc]|[Hc Hr]].
      * left; right. by exists r, c.
      * right. by exists c, r.
Qed.

(** ** The earlier revision's clear

    Its [clearLines] pushes the blocks of the rows without the [includes]
    test; on the rows [checkLines] selects, which are distinct, it hands the
    same blocks to the animation. *)

Lemma pushAll_fresh (f : Z → Position) l acc :
  NoDup (acc ++ (f <$> l)) →
  foldl (λ acc x, pushIfAbsent acc (f x)) acc l = acc ++ (f <$> l).
Proof.
  revert acc. induction l as [|x rest IH]; intros acc Hnd; simpl.
  - by rewrite app_nil_r.
  - assert (f x ∉ acc) as Hfresh.
    { apply NoDup_app in Hnd as (_ & Hdisj & _). intros Hin.
      apply (Hdisj _ Hin). rewrite fmap_cons. apply elem_of_cons. by left. }
    unfold pushIfAbsent at 2. rewrite bool_decide_eq_false_2 by done.
    rewrite IH.
    + by rewrite <- app_assoc.
    + by rewrite <- app_assoc.
Qed.

Lemma appendAll_flat (f : Z → Position) l acc :
  foldl (λ acc x, acc ++ [f x]) acc l = acc ++ (f <$> l).
Proof.
  revert acc. induction l as [|x rest IH]; intros acc; simpl.
  - by rewrite app_nil_r.
  - rewrite IH. by rewrite <- app_assoc.
Qed.

Lemma pushRows_fresh rows acc :
  NoDup (acc ++ (rows ≫= λ r, mkPosition r <$> seqZ 0 GRID_SIZE)) →
  foldl (λ acc r, foldl (λ acc c, pushIfAbsent acc (mkPosition r c)) acc
                        (seqZ 0 GRID_SIZE)) acc rows
  = acc ++ (rows ≫= λ r, mkPosition r <$> seqZ 0 GRID_SIZE).
Proof.
  revert acc. induction rows as [|r rest IH]; intros acc Hnd.
  - simpl. by rewrite app_nil_r.
  - cbn [foldl]. rewrite bind_cons in Hnd |- *. rewrite app_assoc in Hnd.
    rewrite (pushAll_fresh (mkPosition r)).
    + rewrite IH by done. by rewrite <- app_assoc.
    + by apply NoDup_app in Hnd as (? & _).
Qed.

Lemma appendRows_flat rows acc :
  foldl (λ acc r, foldl (λ acc c, acc ++ [mkPosition r c]) acc
                        (seqZ 0 GRID_SIZE)) acc rows
  = acc ++ (rows ≫= λ r, mkPosition r <$> seqZ 0 GRID_SIZE).
Proof.
  revert acc. induction rows as [|r rest IH]; intros acc.
  - simpl. by rewrite app_nil_r.
  - cbn [foldl]. rewrite bind_cons, (appendAll_flat (mkPosition r)), IH.
    by rewrite <- app_assoc.
Qed.

Lemma Legacy_blocksToRemove_eq rows cols :
  NoDup rows → Legacy.blocksToRemove rows cols = blocksToRemove rows cols.
Proof.
  intros Hnd. unfold Legacy.blocksToRemove, blocksToRemove.
  rewrite appendRows_flat, pushRows_fresh; [done|]. rewrite app_nil_l.
  apply NoDup_bind; [| |done].
  - intros r1 r2 p _ _ (c1 & -> & _)%list_elem_of_fmap (c2 & [= ->] & _)%list_elem_of_fmap.
    done.
  - intros r _. apply NoDup_fmap_2; [|apply NoDup_seqZ]. by intros c1 c2 [= ->].
Qed.

Lemma rowsToRemove_NoDup board rows : rowsToRemove board = Some rows → NoDup rows.
Proof. intros ->%filterM_filter. apply NoDup_filter, NoDup_seqZ. Qed.

(** The two revisions of [checkLines] agree but for the phase field, which
    the earlier one does not have. *)
Lemma Legacy_checkLines_agrees g p :
  withPhase p <$> Legacy.checkLines g = withPhase p <$> checkLines g.
Proof.
  unfold Legacy.checkLines, checkLines.
  destruct (rowsToRemove (gameBoard g)) as [rows|] eqn:Hrows; [|done].
  destruct (colsToRemove (gameBoard g)) as [cols|]; [|done].
  cbn [mbind option_bind]. unfold clearFullLines, Legacy.clearLines, clearLines.
  rewrite (Legacy_blocksToRemove_eq rows cols) by (by eapply rowsToRemove_NoDup).
  destruct ((0 <? Z.of_nat (length rows)) || (0 <? Z.of_nat (length cols)));
    (case_match; [|done]); by destruct (hasValidMoves _) as [[]|].
Qed.

Lemma canPlaceShape_true_rows board r c shape :
  canPlaceShape board r c shape = Some true →
  canPlaceRows board r c (blocks shape) = Some true.
Proof.
  unfold canPlaceShape. destruct (_ || _); [done|].
  destruct (head (blocks shape)); [|done]. simpl. by case_match.
Qed.

Lemma Legacy_placeShape_agrees r c shape g p :
  withPhase p <$> Legacy.placeShape r c shape g
  = withPhase p <$> placeShape r c shape g.
Proof.
  unfold Legacy.placeShape, placeShape.
  destruct (placeRows _ _ _ _ _) as [board'|]; [|done]. cbn [mbind option_bind].
  apply Legacy_checkLines_agrees.
Qed.

(** C3: under [canPlaceShape], [placeShape] returns, and on its return the
    cells under a [true] cell of the shape hold a block of the shape's
    colour, every other cell holds what it held, and the number of placed
    blocks has grown by the number of [true] cells of the shape.  The
    earlier revision's [placeShape] leaves the same board. *)
Theorem placeShape_commits g shape r c :
  gameWf g →
  canPlaceShape (gameBoard g) r c shape = Some true →
  ∃ g', placeShape r c shape g = Some g' ∧
    (∀ i j, shapeCell shape i j →
       ∃ blk, getBlock (gameBoard g') (r + Z.of_nat i) (c + Z.of_nat j) = Some blk
              ∧ isEmpty blk = false ∧ color blk = shapeColor shape) ∧
    (∀ r' c', (∀ i j, shapeCell shape i j →
                      (r', c') ≠ (r + Z.of_nat i, c + Z.of_nat j)) →
       getBlock (gameBoard g') r' c' = getBlock (gameBoard g) r' c') ∧
    filledCells (gameBoard g') =
      (filledCells (gameBoard g) + trueCells (blocks shape))%nat ∧
    gameBoard <$> Legacy.placeShape r c shape g = Some (gameBoard g').
Proof.
  intros [Hg Hs] Hcan. apply canPlaceShape_true_rows in Hcan.
  destruct (placeRows_spec (shapeColor shape) (gameBoard g) r c (blocks shape) Hg)
    as (board' & Hplace & Hwf' & Hset & Hother & Hcount).
  { by apply canPlaceRows_true. }
  unfold placeShape. rewrite Hplace. cbn [mbind option_bind].
  destruct (checkLines_total (withBoard board' g)) as [g' Hg']; [by split|].
  exists g'. split; [done|].
  assert (gameBoard <$> Legacy.placeShape r c shape g = Some (gameBoard g')) as Hold.
  { pose proof (Legacy_placeShape_agrees r c shape g (currentState g)) as Hagree.
    unfold placeShape in Hagree at 1. rewrite Hplace in Hagree.
    cbn [mbind option_bind] in Hagree. rewrite Hg' in Hagree.
    destruct (Legacy.placeShape r c shape g) as [g1|]; [|done].
    simpl in Hagree |- *.
    assert (withPhase (currentState g) g1 = withPhase (currentState g) g') as Heq
      by congruence.
    apply (f_equal gameBoard) in Heq. simpl in Heq. by rewrite Heq. }
  apply checkLines_frame in Hg' as (Hboard & _). rewrite Hboard in *. simpl.
  split; [|split; [|split; [done|done]]].
  - intros i j (line & Hi & Hj). by eapply Hset.
  - intros r' c' Hne. apply Hother. intros i line j Hi Hj.
    apply Hne. by exists line.
Qed.

Lemma placeShape_commits_witness :
  ∃ g', placeShape 0 0 (unitShape 0) emptyGame = Some g' ∧
    (∀ i j, shapeCell (unitShape 0) i j →
       ∃ blk, getBlock (gameBoard g') (0 + Z.of_nat i) (0 + Z.of_nat j) = Some blk
              ∧ isEmpty blk = false ∧ color blk = shapeColor (unitShape 0)) ∧
    (∀ r' c', (∀ i j, shapeCell (unitShape 0) i j →
                      (r', c') ≠ (0 + Z.of_nat i, 0 + Z.of_nat j)) →
       getBlock (gameBoard g') r' c' = getBlock (gameBoard emptyGame) r' c') ∧
    filledCells (gameBoard g') =
      (filledCells (gameBoard emptyGame) + trueCells (blocks (unitShape 0)))%nat ∧
    gameBoard <$> Legacy.placeShape 0 0 (unitShape 0) emptyGame
    = Some (gameBoard g').
Proof.
  apply placeShape_commits.
  - split; [apply gridWf_createEmptyBoard|constructor].
  - vm_compute. reflexivity.
Defined.

(** ** Clearing blocks *)

Lemma clearBlock_gridWf ref board : gridWf board → gridWf (clearBlock ref board).
Proof.
  intros H. unfold clearBlock. case_match; [|done]. by apply setBlock_gridWf.
Qed.

Lemma clearBlock_at ref board :
  is_Some (getBlock board (row ref) (col ref)) →
  emptyAt (clearBlock ref board) (row ref) (col ref).
Proof.
  intros [blk Hblk]. unfold clearBlock. rewrite Hblk.
  eexists. split; [by eapply setBlock_lookup_eq|done].
Qed.

Lemma clearBlock_other ref board r c :
  (r, c) ≠ (row ref, col ref) →
  getBlock (clearBlock ref board) r c = getBlock board r c.
Proof.
  intros Hne. unfold clearBlock.
  destruct (getBlock board (row ref) (col ref)) eqn:E; [|done].
  apply setBlock_lookup_ne; [by rewrite E|done].
Qed.

Lemma clearBlock_emptyAt ref board r c :
  emptyAt board r c → emptyAt (clearBlock ref board) r c.
Proof.
  intros (blk & Hblk & He & Hc).
  destruct (decide ((r, c) = (row ref, col ref))) as [[= -> ->]|Hne].
  - apply clearBlock_at. by rewrite Hblk.
  - exists blk. by rewrite clearBlock_other.
Qed.

Lemma applyClear_gridWf refs board : gridWf board → gridWf (applyClear refs board).
Proof.
  revert board. induction refs as [|ref rest IH]; intros board H; [done|].
  apply IH. by apply clearBlock_gridWf.
Qed.

Lemma applyClear_emptyAt refs board r c :
  emptyAt board r c → emptyAt (applyClear refs board) r c.
Proof.
  revert board. induction refs as [|ref rest IH]; intros board H; [done|].
  apply IH. by apply clearBlock_emptyAt.
Qed.

Lemma applyClear_other refs board r c :
  mkPosition r c ∉ refs →
  getBlock (applyClear refs board) r c = getBlock board r c.
Proof.
  revert board. induction refs as [|ref rest IH]; intros board H; [done|].
  apply not_elem_of_cons in H as [Hne Hrest]. simpl.
  rewrite IH by done. apply clearBlock_other.
  intros [= -> ->]. apply Hne. by destruct ref.
Qed.

Lemma applyClear_at refs board r c :
  gridWf board → inGrid r c → mkPosition r c ∈ refs →
  emptyAt (applyClear refs board) r c.
Proof.
  revert board. induction refs as [|ref rest IH]; intros board Hwf Hin Hel.
  - by apply elem_of_nil in Hel.
  - simpl. apply elem_of_cons in Hel as [<-|Hel].
    + apply applyClear_emptyAt. apply (clearBlock_at (mkPosition r c)).
      by apply getBlock_inGrid.
    + apply IH; [by apply clearBlock_gridWf|done..].
Qed.

(** The callbacks of one animation, run to the last block, do
    [applyClear]. *)
Lemma run_timeline_blocks g k targets :
  timelines g !! k = Some targets →
  run (replicate (length targets) (EvTimeline k)) g =
  Some (withTimelines (<[k := []]> (timelines g))
          (withBoard (applyClear targets (gameBoard g)) g)).
Proof.
  revert g. induction targets as [|ref rest IH]; intros g Hk.
  - simpl. f_equal. destruct g. unfold withTimelines, withBoard. simpl in *.
    f_equal. by rewrite list_insert_id.
  - cbn [length replicate run forM step]. unfold timelineStep. rewrite Hk.
    cbn [mbind option_bind]. unfold run in IH. rewrite IH.
    + f_equal. unfold withTimelines, withBoard. simpl. f_equal.
      by rewrite list_insert_insert_eq.
    + simpl. apply list_lookup_insert_eq. by eapply lookup_lt_Some.
Qed.

Lemma checkLines_result g rows cols g' :
  rowsToRemove (gameBoard g) = Some rows →
  colsToRemove (gameBoard g) = Some cols →
  checkLines g = Some g' →
  score g' = score (clearFullLines rows cols g) ∧
  timelines g' = timelines (clearFullLines rows cols g).
Proof.
  intros Hr Hc. unfold checkLines. rewrite Hr, Hc. cbn [mbind option_bind].
  intros H. case_match.
  - destruct (hasValidMoves _) as [[]|]; simpl in H; [| |done];
      by injection H as <-.
  - by injection H as <-.
Qed.

Lemma clearFullLines_score rows cols g :
  score (clearFullLines rows cols g) =
  score g + (Z.of_nat (length rows) + Z.of_nat (length cols)) * 100.
Proof.
  unfold clearFullLines.
  destruct (Z.ltb_spec 0 (Z.of_nat (length rows))),
           (Z.ltb_spec 0 (Z.of_nat (length cols))); simpl; lia.
Qed.

Lemma clearFullLines_timelines rows cols g :
  timelines (clearFullLines rows cols g) =
  if decide (rows = [] ∧ cols = []) then timelines g
  else timelines g ++ [blocksToRemove rows cols].
Proof.
  unfold clearFullLines. destruct rows, cols; simpl; try done;
    case_decide as H; try done; by destruct H.
Qed.

(** One call of [checkLines] returns; a row (a column) is among the lines to remove
    exactly when each of its [GRID_SIZE] cells holds a block; the blocks handed
    to the clear animation are those of the selected rows and columns, each
    once; when the animation has run them, these cells are empty and all
    others are as before; the score has grown by 100 for every selected row
    and column, hence by 200 for one row together with one column.  The
    earlier revision's [checkLines] does the same. *)
Lemma checkLines_clears_by_line g :
  gameWf g →
  ∃ rows cols g',
    rowsToRemove (gameBoard g) = Some rows ∧
    colsToRemove (gameBoard g) = Some cols ∧
    checkLines g = Some g' ∧
    (∀ r, r ∈ rows ↔
          0 ≤ r < GRID_SIZE ∧ ∀ c, 0 ≤ c < GRID_SIZE → filledAt (gameBoard g) r c) ∧
    (∀ c, c ∈ cols ↔
          0 ≤ c < GRID_SIZE ∧ ∀ r, 0 ≤ r < GRID_SIZE → filledAt (gameBoard g) r c) ∧
    let targets := blocksToRemove rows cols in
    NoDup targets ∧
    (∀ r c, mkPosition r c ∈ targets ↔ inGrid r c ∧ (r ∈ rows ∨ c ∈ cols)) ∧
    (timelines g' = if decide (rows = [] ∧ cols = []) then timelines g
                    else timelines g ++ [targets]) ∧
    (¬ (rows = [] ∧ cols = []) →
     ∃ g'', run (replicate (length targets) (EvTimeline (length (timelines g)))) g'
            = Some g'' ∧
            gameBoard g'' = applyClear targets (gameBoard g)) ∧
    (∀ r c, mkPosition r c ∈ targets →
            emptyAt (applyClear targets (gameBoard g)) r c) ∧
    (∀ r c, mkPosition r c ∉ targets →
            getBlock (applyClear targets (gameBoard g)) r c
            = getBlock (gameBoard g) r c) ∧
    score g' = score g + (Z.of_nat (length rows) + Z.of_nat (length cols)) * 100 ∧
    (length rows = 1%nat → length cols = 1%nat → score g' = score g + 200) ∧
    Legacy.blocksToRemove rows cols = targets ∧
    (∀ p, withPhase p <$> Legacy.checkLines g = Some (withPhase p g')).
Proof.
  intros Hwf. pose proof Hwf as [Hg Hs].
  destruct (rowsToRemove_total _ Hg) as [rows Hrows].
  destruct (colsToRemove_total _ Hg) as [cols Hcols].
  destruct (checkLines_total g Hwf) as [g' Hg'].
  exists rows, cols, g'. do 3 (split; [done|]).
  destruct (rowsToRemove_spec _ _ Hg Hrows) as [_ Hr].
  destruct (colsToRemove_spec _ _ Hg Hcols) as [_ Hc].
  do 2 (split; [done|]). intros targets.
  destruct (blocksToRemove_spec rows cols) as [Hnd Hmem]. fold targets in Hnd, Hmem.
  assert (Htargets : ∀ r c, mkPosition r c ∈ targets ↔ inGrid r c ∧ (r ∈ rows ∨ c ∈ cols)).
  { intros r c. rewrite Hmem. unfold inGrid. split.
    - intros [[Hin Hcb]|[Hin Hrb]].
      + destruct (proj1 (Hr r) Hin) as [Hrb _]. split; [done|by left].
      + destruct (proj1 (Hc c) Hin) as [Hcb _]. split; [done|by right].
    - intros [[Hrb Hcb] [Hin|Hin]]; [left|right]; done. }
  destruct (checkLines_result g rows cols g' Hrows Hcols Hg') as [Hscore Htl].
  rewrite clearFullLines_score in Hscore. rewrite clearFullLines_timelines in Htl.
  split; [done|]. split; [done|]. split; [done|]. split; [|split; [|split; [|split]]].
  - intros Hsome. rewrite decide_False in Htl by done.
    eexists. split.
    + apply run_timeline_blocks. rewrite Htl.
      rewrite lookup_app_r by done. by rewrite Nat.sub_diag.
    + simpl. by apply checkLines_frame in Hg' as (-> & _).
  - intros r c Hin. apply applyClear_at; [done| |done]. by apply Htargets.
  - intros r c Hnin. by apply applyClear_other.
  - done.
  - split; [|split].
    + intros H1 H2. rewrite Hscore, H1, H2. lia.
    + apply Legacy_blocksToRemove_eq. by eapply rowsToRemove_NoDup.
    + intros p. by rewrite Legacy_checkLines_agrees, Hg'.
Qed.

Lemma checkLines_clears_by_line_witness :
  ∃ rows cols g',
    rowsToRemove (gameBoard crossGame) = Some rows ∧
    colsToRemove (gameBoard crossGame) = Some cols ∧
    checkLines crossGame = Some g' ∧
    (∀ r, r ∈ rows ↔
          0 ≤ r < GRID_SIZE ∧
          ∀ c, 0 ≤ c < GRID_SIZE → filledAt (gameBoard crossGame) r c) ∧
    (∀ c, c ∈ cols ↔
          0 ≤ c < GRID_SIZE ∧
          ∀ r, 0 ≤ r < GRID_SIZE → filledAt (gameBoard crossGame) r c) ∧
    let targets := blocksToRemove rows cols in
    NoDup targets ∧
    (∀ r c, mkPosition r c ∈ targets ↔ inGrid r c ∧ (r ∈ rows ∨ c ∈ cols)) ∧
    (timelines g' = if decide (rows = [] ∧ cols = []) then timelines crossGame
                    else timelines crossGame ++ [targets]) ∧
    (¬ (rows = [] ∧ cols = []) →
     ∃ g'', run (replicate (length targets)
                   (EvTimeline (length (timelines crossGame)))) g'
            = Some g'' ∧
            gameBoard g'' = applyClear targets (gameBoard crossGame)) ∧
    (∀ r c, mkPosition r c ∈ targets →
            emptyAt (applyClear targets (gameBoard crossGame)) r c) ∧
    (∀ r c, mkPosition r c ∉ targets →
            getBlock (applyClear targets (gameBoard crossGame)) r c
            = getBlock (gameBoard crossGame) r c) ∧
    score g' = score crossGame
               + (Z.of_nat (length rows) + Z.of_nat (length cols)) * 100 ∧
    (length rows = 1%nat → length cols = 1%nat → score g' = score crossGame + 200) ∧
    Legacy.blocksToRemove rows cols = targets ∧
    (∀ p, withPhase p <$> Legacy.checkLines crossGame = Some (withPhase p g')).
Proof.
  apply checkLines_clears_by_line.
  split; [apply gridWf_boardOf|constructor].
Defined.

(** A full row crossing a full column: two lines, 200 points, and the 15
    blocks of their union handed to the animation, after which the board is
    empty. *)
Example checkLines_row_and_column :
  (score <$> checkLines crossGame) = Some 200 ∧
  (fmap length ∘ timelines <$> checkLines crossGame) = Some [15%nat] ∧
  (filledCells ∘ gameBoard
     <$> (checkLines crossGame ≫= run (replicate 15 (EvTimeline 0)))) = Some 0%nat.
Proof. repeat split; vm_compute; reflexivity. Qed.

(** C1: after a commit the lines are not scored once.  In the play
    [crossPlay] from a new game the score is 0 before the last drop, which
    completes row 0 and column 0 at once; the drop runs the line check in
    [placeShape] and again in [onDragEnd], on the same board, so the score
    is 400 and not 200, and two animations are started, each holding the
    15 blocks of the row and the column: the block at their crossing, like
    every other, is cleared by both.  When all their callbacks have run the
    board is empty and the score still 400.  The earlier revision's drop
    handler does the same: one completed row gives 200. *)
Theorem commit_scores_lines_twice :
  (score <$> run crossApproach newGame) = Some 0 ∧
  ((fun g => (score g, timelines g)) <$> run crossPlay newGame)
  = Some (400, [blocksToRemove [0] [0]; blocksToRemove [0] [0]]) ∧
  length (blocksToRemove [0] [0]) = 15%nat ∧
  ((fun g => (score g, filledCells (gameBoard g)))
     <$> run (crossPlay ++ bothAnimations) newGame) = Some (400, 0%nat) ∧
  (score ∘ Legacy.game
     <$> Legacy.onDragEnd (mkPosition 3 7) noDraw (Legacy.mkState almostRowGame 0 []))
  = Some 200.
Proof. repeat split; vm_compute; reflexivity. Qed.


(** ** Rotation *)

Lemma cellAt_rect m rows cols r c :
  rect m rows cols →
  is_Some (cellAt m r c) ↔ (r < rows)%nat ∧ (c < cols)%nat.
Proof.
  intros [Hlen Hall]. unfold cellAt. rewrite Forall_lookup in Hall. split.
  - intros [v Hv]. destruct (m !! r) as [line|] eqn:E; [|done]. simpl in Hv.
    pose proof (lookup_lt_Some _ _ _ E). pose proof (lookup_lt_Some _ _ _ Hv) as Hv'.
    rewrite (Hall _ _ E) in Hv'. lia.
  - intros [Hr Hc]. destruct (lookup_lt_is_Some_2 m r) as [line E]; [lia|].
    rewrite E. simpl. apply lookup_lt_is_Some_2. rewrite (Hall _ _ E). lia.
Qed.

Lemma rect_ext m1 m2 rows cols :
  rect m1 rows cols → rect m2 rows cols →
  (∀ r c, (r < rows)%nat → (c < cols)%nat → readCell m1 r c = readCell m2 r c) →
  m1 = m2.
Proof.
  intros H1 H2 Heq. apply list_eq. intros r.
  destruct (decide (r < rows)%nat) as [Hr|Hr].
  - destruct H1 as [Hl1 Ha1], H2 as [Hl2 Ha2].
    destruct (lookup_lt_is_Some_2 m1 r) as [l1 E1]; [lia|].
    destruct (lookup_lt_is_Some_2 m2 r) as [l2 E2]; [lia|].
    rewrite E1, E2. f_equal. rewrite Forall_lookup in Ha1, Ha2.
    pose proof (Ha1 _ _ E1) as Hlen1. pose proof (Ha2 _ _ E2) as Hlen2.
    apply list_eq. intros c. destruct (decide (c < cols)%nat) as [Hc|Hc].
    + specialize (Heq r c Hr Hc). unfold readCell, cellAt in Heq.
      rewrite E1, E2 in Heq. simpl in Heq.
      destruct (lookup_lt_is_Some_2 l1 c) as [v1 Ev1]; [lia|].
      destruct (lookup_lt_is_Some_2 l2 c) as [v2 Ev2]; [lia|].
      rewrite Ev1, Ev2 in *. simpl in Heq. by subst.
    + rewrite !lookup_ge_None_2 by lia. done.
  - destruct H1 as [Hl1 _], H2 as [Hl2 _]. rewrite !lookup_ge_None_2 by lia. done.
Qed.

Lemma writeCell_rect m rows cols i j v :
  rect m rows cols → rect (writeCell m i j v) rows cols.
Proof.
  intros [Hlen Hall]. unfold writeCell. split; [by rewrite length_alter|].
  apply Forall_alter; [done|]. intros line _ Hline. by rewrite length_insert.
Qed.

Lemma writeCell_cellAt m i j v i' j' :
  cellAt (writeCell m i j v) i' j' =
  if decide (i = i' ∧ j = j' ∧ is_Some (cellAt m i j)) then Some v
  else cellAt m i' j'.
Proof.
  unfold writeCell, cellAt. rewrite list_lookup_alter.
  destruct (decide (i = i')) as [->|Hi].
  - destruct (m !! i') as [line|] eqn:E; simpl.
    + destruct (decide (j = j')) as [->|Hj].
      * destruct (decide (j' < length line)%nat) as [Hlt|Hge].
        -- rewrite list_lookup_insert_eq by done. rewrite decide_True; [done|].
           split; [done|]. split; [done|]. by apply lookup_lt_is_Some_2.
        -- rewrite list_insert_ge by lia. rewrite decide_False; [done|].
           intros (_ & _ & Hs). apply lookup_lt_is_Some_1 in Hs. lia.
      * rewrite list_lookup_insert_ne by done. rewrite decide_False; [done|].
        by intros (_ & ? & _).
    + rewrite decide_False; [done|]. by intros (_ & _ & [? ?]).
  - rewrite decide_False; [done|]. by intros (? & _).
Qed.

Lemma rotate_inner_rect (f : nat → bool) k l acc rows cols :
  rect acc rows cols →
  rect (foldl (λ acc c, writeCell acc c k (f c)) acc l) rows cols.
Proof.
  revert acc. induction l as [|x rest IH]; intros acc H; [done|].
  apply IH. by apply writeCell_rect.
Qed.

Lemma rotate_inner_cellAt (f : nat → bool) k l acc i j :
  cellAt (foldl (λ acc c, writeCell acc c k (f c)) acc l) i j =
  if decide (i ∈ l ∧ j = k ∧ is_Some (cellAt acc i j)) then Some (f i)
  else cellAt acc i j.
Proof.
  revert acc. induction l as [|x rest IH]; intros acc.
  - cbn [foldl]. rewrite decide_False; [done|]. intros [H _]. by apply elem_of_nil in H.
  - cbn [foldl]. rewrite IH. rewrite !writeCell_cellAt.
    assert (Hcons : ∀ y, y ∈ x :: rest ↔ y = x ∨ y ∈ rest) by (intros; apply elem_of_cons).
    assert (Hsome : ∀ v : bool, is_Some (Some v)) by (intros; by eexists).
    repeat case_decide; destruct_and?; subst; try done; exfalso;
      rewrite ?Hcons in *; intuition (subst; eauto using is_Some_None).
Qed.
Lemma cellAt_blank rows cols i j :
  cellAt (replicate cols (replicate rows false)) i j =
  if decide (i < cols ∧ j < rows)%nat then Some false else None.
Proof.
  unfold cellAt. destruct (decide (i < cols)%nat) as [Hi|Hi].
  - rewrite lookup_replicate_2 by done. simpl.
    destruct (decide (j < rows)%nat) as [Hj|Hj].
    + rewrite lookup_replicate_2 by done. by rewrite decide_True.
    + rewrite lookup_ge_None_2 by (rewrite length_replicate; lia).
      rewrite decide_False; [done|lia].
  - rewrite lookup_ge_None_2 by (rewrite length_replicate; lia). simpl.
    rewrite decide_False; [done|lia].
Qed.

Lemma rect_blank rows cols : rect (replicate cols (replicate rows false)) cols rows.
Proof.
  split; [apply length_replicate|]. apply Forall_replicate, length_replicate.
Qed.

(** The matrix after the first [n] passes of the outer loop. *)
Lemma rotate_outer shape rows cols n :
  (n ≤ rows)%nat →
  let res :=
    foldl (λ acc r,
             foldl (λ acc c, writeCell acc c (rows - 1 - r)%nat (readCell shape r c))
                   acc (seq 0 cols))
          (replicate cols (replicate rows false)) (seq 0 n) in
  rect res cols rows ∧
  ∀ i j, cellAt res i j =
         if decide (i < cols ∧ j < rows)%nat
         then Some (if decide (rows - 1 - j < n)%nat
                    then readCell shape (rows - 1 - j) i else false)
         else None.
Proof.
  induction n as [|n IH]; intros Hn res.
  - split; [apply rect_blank|]. intros i j. unfold res. cbn [seq foldl].
    rewrite cellAt_blank. case_decide; [|done]. rewrite decide_False; [done|lia].
  - destruct IH as [Hrect Hcell]; [lia|].
    unfold res. rewrite seq_S, foldl_app. cbn [foldl]. split.
    + by apply rotate_inner_rect.
    + intros i j. rewrite rotate_inner_cellAt, Hcell.
      assert (Hseq : i ∈ seq 0 cols ↔ (i < cols)%nat).
      { rewrite elem_of_seq. lia. }
      repeat case_decide; rewrite ?Hseq in *; destruct_and?; subst; try done;
        try lia.
      * do 2 f_equal. lia.
      * exfalso. match goal with H : ¬ (_ ∧ _ ∧ _) |- _ => apply H end.
        split; [done|]. split; [lia|]. by eexists.
Qed.

(** [rotateShape] in closed form. *)
Lemma rotateShape_rect m rows cols :
  rect m rows cols → (0 < rows)%nat →
  ∃ m', rotateShape m = Some m' ∧ rect m' cols rows ∧
        ∀ i j, (i < cols)%nat → (j < rows)%nat →
               cellAt m' i j = Some (readCell m (rows - 1 - j) i).
Proof.
  intros [Hlen Hall] Hpos. unfold rotateShape.
  destruct m as [|first rest] eqn:Em; [simpl in Hlen; lia|]. rewrite <- Em in *.
  assert (length first = cols) as Hfirst.
  { rewrite Em in Hall. by apply Forall_cons_1 in Hall as [? _]. }
  replace (head m) with (Some first) by (by rewrite Em).
  cbn [mbind option_bind]. rewrite Hlen, Hfirst.
  destruct (rotate_outer m rows cols rows (le_n _)) as [Hrect Hcell].
  eexists. split; [done|]. split; [done|].
  intros i j Hi Hj. rewrite Hcell. rewrite decide_True by done.
  by rewrite decide_True by lia.
Qed.

Lemma rotateShape_readCell m rows cols :
  rect m rows cols → (0 < rows)%nat →
  ∃ m', rotateShape m = Some m' ∧ rect m' cols rows ∧
        ∀ i j, (i < cols)%nat → (j < rows)%nat →
               readCell m' i j = readCell m (rows - 1 - j) i.
Proof.
  intros Hrect Hpos.
  destruct (rotateShape_rect m rows cols Hrect Hpos) as (m' & Hm' & Hr' & Hcell).
  exists m'. split; [done|]. split; [done|]. intros i j Hi Hj.
  unfold readCell at 1. by rewrite Hcell.
Qed.

(** C6: on a rectangular matrix with at least one row, [rotateShape] returns
    a matrix with [matrix'[c][rows-1-r] = matrix[r][c]] at every cell
    [(r, c)] of the argument; four rotations of a rectangular matrix with at
    least one row and one column give the matrix back. *)
Theorem rotateShape_clockwise m rows cols :
  rect m rows cols → (0 < rows)%nat →
  (∃ m', rotateShape m = Some m' ∧ rect m' cols rows ∧
         ∀ r c v, cellAt m r c = Some v →
                  cellAt m' c (rows - 1 - r) = Some v) ∧
  ((0 < cols)%nat → rotateTimes 4 m = Some m).
Proof.
  intros Hrect Hrows. split.
  - destruct (rotateShape_rect m rows cols Hrect Hrows) as (m' & Hm' & Hr' & Hcell).
    exists m'. split; [done|]. split; [done|]. intros r c v Hv.
    assert (is_Some (cellAt m r c)) as Hin by (by rewrite Hv).
    apply (cellAt_rect m rows cols) in Hin as [Hr Hc]; [|done].
    rewrite Hcell by lia. f_equal.
    replace (rows - 1 - (rows - 1 - r))%nat with r by lia.
    unfold readCell. by rewrite Hv.
  - intros Hcols.
    destruct (rotateShape_readCell m rows cols Hrect Hrows) as (m1 & E1 & R1 & C1).
    destruct (rotateShape_readCell m1 cols rows R1 Hcols) as (m2 & E2 & R2 & C2).
    destruct (rotateShape_readCell m2 rows cols R2 Hrows) as (m3 & E3 & R3 & C3).
    destruct (rotateShape_readCell m3 cols rows R3 Hcols) as (m4 & E4 & R4 & C4).
    cbn [rotateTimes]. rewrite E1. cbn [mbind option_bind].
    rewrite E2. cbn [mbind option_bind]. rewrite E3. cbn [mbind option_bind].
    rewrite E4. cbn [mbind option_bind]. f_equal.
    apply (rect_ext m4 m rows cols R4 Hrect). intros a b Ha Hb.
    rewrite C4, C3, C2, C1 by lia. f_equal; lia.
Qed.

Lemma rotateShape_clockwise_witness :
  (∃ m', rotateShape matrixL = Some m' ∧ rect m' 2 3 ∧
         ∀ r c v, cellAt matrixL r c = Some v →
                  cellAt m' c (3 - 1 - r) = Some v) ∧
  ((0 < 2)%nat → rotateTimes 4 matrixL = Some matrixL).
Proof.
  apply (rotateShape_clockwise matrixL 3 2).
  - split; [reflexivity|]. repeat constructor.
  - lia.
Defined.

(** Every matrix of the catalog comes back after four rotations. *)
Example rotateTimes_catalog : Forall (fun m => rotateTimes 4 m = Some m) SHAPES.
Proof. repeat (apply Forall_cons; split; [reflexivity|]). apply Forall_nil_2. Qed.


(** ** Loops with a state *)

(** Invariant rule for [forM]: [Inv pre s] relates the state to the part of
    the list already visited. *)
Lemma forM_invariant {A St} (f : St → A → option St) (Inv : list A → St → Prop) l s0 :
  Inv [] s0 →
  (∀ pre x post s s', l = pre ++ x :: post → Inv pre s → f s x = Some s' →
                      Inv (pre ++ [x]) s') →
  ∀ s', forM f l s0 = Some s' → Inv l s'.
Proof.
  intros H0 Hstep.
  assert (Hgen : ∀ rest pre s s', l = pre ++ rest → Inv pre s →
                                  forM f rest s = Some s' → Inv l s').
  { induction rest as [|x rest IH]; intros pre s s' Hl Hinv Hrun.
    - simpl in Hrun. injection Hrun as <-. by rewrite Hl, app_nil_r.
    - simpl in Hrun. destruct (f s x) as [s1|] eqn:E; [|done]. simpl in Hrun.
      apply (IH (pre ++ [x]) s1 s'); [by rewrite <- app_assoc| |done].
      by eapply Hstep. }
  intros s'. by apply (Hgen l []).
Qed.

(** Termination rule: the body returns wherever the invariant holds. *)
Lemma forM_total {A St} (f : St → A → option St) (Inv : list A → St → Prop) l s0 :
  Inv [] s0 →
  (∀ pre x post s, l = pre ++ x :: post → Inv pre s →
                   ∃ s', f s x = Some s' ∧ Inv (pre ++ [x]) s') →
  ∃ s', forM f l s0 = Some s' ∧ Inv l s'.
Proof.
  intros H0 Hstep.
  assert (Hgen : ∀ rest pre s, l = pre ++ rest → Inv pre s →
                               ∃ s', forM f rest s = Some s' ∧ Inv l s').
  { induction rest as [|x rest IH]; intros pre s Hl Hinv.
    - exists s. split; [done|]. by rewrite Hl, app_nil_r.
    - destruct (Hstep pre x rest s Hl Hinv) as (s1 & Hs1 & Hinv1).
      simpl. rewrite Hs1. simpl. apply (IH (pre ++ [x])); [|done].
      by rewrite <- app_assoc. }
  by apply (Hgen l []).
Qed.

(** The same for the loops over a shape matrix, with an invariant that
    does not depend on the position. *)
Lemma forCells_total {St} (f : St → Z → Z → option St) (Inv : St → Prop) r c cells s :
  Inv s →
  (∀ j s, cells !! j = Some true → Inv s →
          ∃ s', f s r (c + Z.of_nat j) = Some s' ∧ Inv s') →
  ∃ s', forCells f r c cells s = Some s' ∧ Inv s'.
Proof.
  revert c s. induction cells as [|cell rest IH]; intros c s Hinv Hstep.
  - by exists s.
  - assert (Hrest : ∀ j s, rest !! j = Some true → Inv s →
                           ∃ s', f s r (c + 1 + Z.of_nat j) = Some s' ∧ Inv s').
    { intros j s1 Hj Hs1. destruct (Hstep (S j) s1 Hj Hs1) as (s' & Hs' & ?).
      exists s'. split; [|done]. rewrite <- Hs'. f_equal. lia. }
    simpl. destruct cell; [|by apply IH].
    destruct (Hstep 0%nat s eq_refl Hinv) as (s1 & Hs1 & Hinv1).
    rewrite Z.add_0_r in Hs1. rewrite Hs1. simpl. by apply IH.
Qed.

Lemma forShape_total {St} (f : St → Z → Z → option St) (Inv : St → Prop) r c rows s :
  Inv s →
  (∀ i line j s, rows !! i = Some line → line !! j = Some true → Inv s →
          ∃ s', f s (r + Z.of_nat i) (c + Z.of_nat j) = Some s' ∧ Inv s') →
  ∃ s', forShape f r c rows s = Some s' ∧ Inv s'.
Proof.
  revert r s. induction rows as [|cells rest IH]; intros r s Hinv Hstep.
  - by exists s.
  - simpl. destruct (forCells_total f Inv r c cells s Hinv) as (s1 & -> & Hinv1).
    { intros j s1 Hj Hs1. specialize (Hstep 0%nat cells j s1 eq_refl Hj Hs1).
      by rewrite Z.add_0_r in Hstep. }
    simpl. apply IH; [done|]. intros i line j s2 Hi Hj Hs2.
    destruct (Hstep (S i) line j s2 Hi Hj Hs2) as (s' & Hs' & ?).
    exists s'. split; [|done]. rewrite <- Hs'. f_equal. lia.
Qed.

(** ** The heuristic returns a score at every valid position *)

Lemma touch_total board br bc acc d :
  gridWf board → is_Some (touch board br bc acc d).
Proof.
  intros Hwf. unfold touch. case_match eqn:E; [|done].
  destruct (getBlock_inGrid board (br + d.1) (bc + d.2) Hwf) as [blk ->].
  - unfold inGrid.
    apply andb_prop in E as [E E4]. apply andb_prop in E as [E E3].
    apply andb_prop in E as [E1 E2]. lia.
  - done.
Qed.

Lemma touching_total board r c shape :
  gridWf board → is_Some (touching board r c shape).
Proof.
  intros Hwf. unfold touching.
  destruct (forShape_total
              (λ acc br bc, forM (touch board br bc) directions acc)
              (λ _, True) r c (blocks shape) (0, 0) I) as (s' & -> & _); [|done].
  intros i line j s _ _ _.
  destruct (forM_total (touch board (r + Z.of_nat i) (c + Z.of_nat j))
              (λ _ _, True) directions s I) as (s' & -> & _); [|by eexists].
  intros pre d post s1 _ _. destruct (touch_total board (r + Z.of_nat i)
    (c + Z.of_nat j) s1 d Hwf) as [s2 ->]. by eexists.
Qed.

Lemma markCell_total sim r c :
  0 ≤ r < Z.of_nat (length sim) →
  ∃ sim', markCell sim r c = Some sim' ∧ length sim' = length sim.
Proof.
  intros Hr. unfold markCell. rewrite bool_decide_eq_true_2 by lia.
  destruct (lookup_lt_is_Some_2 sim (Z.to_nat r)) as [line ->]; [lia|].
  simpl. eexists. split; [done|]. by rewrite length_insert.
Qed.

Lemma simulatePlacement_total board r c shape :
  gridWf board → canPlaceShape board r c shape = Some true →
  is_Some (simulatePlacement board r c shape).
Proof.
  intros Hwf Hcan. unfold simulatePlacement.
  destruct (mapM_is_Some_2
    (λ i, mapM (λ j, (λ blk, negb (isEmpty blk)) <$> getBlock board i j)
               (seqZ 0 GRID_SIZE)) (seqZ 0 GRID_SIZE)) as [sim Hsim].
  { apply seqZ_grid_Forall. intros i Hi. apply mapM_is_Some_2.
    apply seqZ_grid_Forall. intros j Hj. unfold compose.
    destruct (getBlock_inGrid board i j Hwf) as [blk ->]; [done|]. by eexists. }
  rewrite Hsim. cbn [mbind option_bind].
  apply length_mapM in Hsim. rewrite length_seqZ in Hsim.
  apply canPlaceShape_true_rows in Hcan.
  destruct (forShape_total markCell (λ s, length s = Z.to_nat GRID_SIZE)
              r c (blocks shape) sim) as (sim' & -> & _); [done| |done].
  intros i line j s Hi Hj Hlen.
  destruct (proj1 (canPlaceRows_true _ _ _ _) Hcan i line j Hi Hj) as (blk & Hblk & _).
  assert (inGrid (r + Z.of_nat i) (c + Z.of_nat j)) as [Hr _].
  { apply (getBlock_is_Some_inGrid board); [done|by eexists]. }
  destruct (markCell_total s (r + Z.of_nat i) (c + Z.of_nat j)) as (s' & -> & Hlen').
  { rewrite Hlen. lia. }
  exists s'. split; [done|]. by rewrite Hlen'.
Qed.

Lemma evalMove_total board r c shape :
  gridWf board → canPlaceShape board r c shape = Some true →
  is_Some (evalMove board r c shape).
Proof.
  intros Hwf Hcan. unfold evalMove.
  destruct (simulatePlacement_total board r c shape Hwf Hcan) as [sim ->].
  cbn [mbind option_bind]. destruct (tally _ _) as [clear gaps].
  destruct (touching_total board r c shape Hwf) as [[tb te] ->]. by eexists.
Qed.

(** ** The search keeps the first best candidate *)

Lemma seqZ_split n pre x post :
  seqZ 0 n = pre ++ x :: post → x = Z.of_nat (length pre) ∧ 0 ≤ x < n.
Proof.
  intros H.
  assert (seqZ 0 n !! length pre = Some x) as Hx.
  { rewrite H. by apply list_lookup_middle. }
  apply lookup_seqZ in Hx. lia.
Qed.

Lemma bestAmong_ext board shape (seen seen' : Z → Z → Prop) acc :
  (∀ r c, seen r c ↔ seen' r c) →
  bestAmong board shape seen acc → bestAmong board shape seen' acc.
Proof.
  intros Heq [(Hf & Hs & Hnone)|(Hf & s & Hs & Hseen & Hcand & Hmax)].
  - left. split; [done|]. split; [done|]. intros r c H. by apply Hnone, Heq.
  - right. split; [done|]. exists s. split; [done|]. split; [by apply Heq|].
    split; [done|]. intros r c t H. by apply Hmax, Heq.
Qed.

(** One pass of the body of the position loops. *)
Lemma visit_bestAmong board shape (seen : Z → Z → Prop) r c acc acc' :
  (∀ r' c', seen r' c' → scannedBefore r' c' r c) →
  bestAmong board shape seen acc →
  visit board shape r acc c = Some acc' →
  bestAmong board shape (λ r' c', seen r' c' ∨ (r' = r ∧ c' = c)) acc'.
Proof.
  intros Hbefore Hinv. unfold visit.
  destruct (canPlaceShape board r c shape) as [[]|] eqn:Hcan; [| |done].
  - cbn [mbind option_bind].
    destruct (evalMove board r c shape) as [t|] eqn:Ht; [|done].
    cbn [mbind option_bind]. intros [= <-].
    assert (Hhere : ∀ t', candidate board shape r c t' → t' = t).
    { intros t' [_ Ht']. congruence. }
    destruct Hinv as [(Hf & Hs & Hnone)|(Hf & s & Hs & Hseen & Hcand & Hmax)].
    + rewrite Hs. simpl. right. split; [done|]. exists t. simpl.
      split; [done|]. split; [by right|]. split; [by split|].
      intros r' c' t' [Hin|[-> ->]] Hc'.
      * destruct Hc' as [Hc' _]. rewrite (Hnone r' c' Hin) in Hc'. done.
      * rewrite (Hhere t' Hc'). unfold scannedBefore. lia.
    + rewrite Hs. simpl. destruct (Z.ltb_spec s t) as [Hlt|Hge].
      * right. split; [done|]. exists t. simpl.
        split; [done|]. split; [by right|]. split; [by split|].
        intros r' c' t' [Hin|[-> ->]] Hc'.
        -- destruct (Hmax r' c' t' Hin Hc') as [Hle _]. lia.
        -- rewrite (Hhere t' Hc'). unfold scannedBefore. lia.
      * right. split; [done|]. exists s. simpl.
        split; [done|]. split; [by left|]. split; [done|].
        intros r' c' t' [Hin|[-> ->]] Hc'.
        -- by apply Hmax.
        -- rewrite (Hhere t' Hc'). split; [done|].
           specialize (Hbefore _ _ Hseen). unfold scannedBefore in *. lia.
  - intros [= <-].
    destruct Hinv as [(Hf & Hs & Hnone)|(Hf & s & Hs & Hseen & Hcand & Hmax)].
    + left. split; [done|]. split; [done|].
      intros r' c' [Hin|[-> ->]]; [by apply Hnone|done].
    + right. split; [done|]. exists s. split; [done|]. split; [by left|].
      split; [done|]. intros r' c' t' [Hin|[-> ->]] Hc'; [by apply Hmax|].
      destruct Hc' as [Hc' _]. congruence.
Qed.

Lemma seenUpTo_step r c r' c' :
  0 ≤ r < GRID_SIZE → 0 ≤ c < GRID_SIZE →
  seenUpTo r (c + 1) r' c' ↔ seenUpTo r c r' c' ∨ (r' = r ∧ c' = c).
Proof. unfold seenUpTo, scannedBefore, inGrid. lia. Qed.

Lemma seenUpTo_row_end r r' c' :
  seenUpTo r GRID_SIZE r' c' ↔ seenUpTo (r + 1) 0 r' c'.
Proof. unfold seenUpTo, scannedBefore, inGrid. lia. Qed.

(** The inner loop, over the columns of row [r]. *)
Lemma findBestMove_row board shape r acc acc' :
  0 ≤ r < GRID_SIZE →
  bestAmong board shape (seenUpTo r 0) acc →
  forM (visit board shape r) (seqZ 0 GRID_SIZE) acc = Some acc' →
  bestAmong board shape (seenUpTo (r + 1) 0) acc'.
Proof.
  intros Hr Hinv Hrun.
  eapply bestAmong_ext; [apply seenUpTo_row_end|].
  replace GRID_SIZE with (Z.of_nat (length (seqZ 0 GRID_SIZE))) at 1
    by (rewrite length_seqZ; done).
  revert acc' Hrun.
  apply (forM_invariant (visit board shape r)
           (λ pre acc, bestAmong board shape (seenUpTo r (Z.of_nat (length pre))) acc)).
  - done.
  - intros pre c post s s' Hsplit Hs Hvisit.
    apply seqZ_split in Hsplit as [-> Hc].
    eapply bestAmong_ext; [|eapply visit_bestAmong; [|exact Hs|exact Hvisit]].
    + intros r' c'. rewrite length_app. simpl.
      rewrite Nat2Z.inj_add. simpl. symmetry. by apply seenUpTo_step.
    + by intros r' c' [_ ?].
Qed.

(** Both loops: every position of the grid has been seen. *)
Lemma findBestMove_loops board shape acc :
  forM (λ acc r, forM (visit board shape r) (seqZ 0 GRID_SIZE) acc)
       (seqZ 0 GRID_SIZE) (mkBest NegInfinity 0 0 false) = Some acc →
  bestAmong board shape inGrid acc.
Proof.
  intros Hrun.
  eapply (bestAmong_ext _ _ (seenUpTo GRID_SIZE 0)).
  { unfold seenUpTo, scannedBefore, inGrid. lia. }
  replace GRID_SIZE with (Z.of_nat (length (seqZ 0 GRID_SIZE))) at 1
    by (rewrite length_seqZ; done).
  revert acc Hrun.
  apply (forM_invariant _
           (λ pre acc, bestAmong board shape (seenUpTo (Z.of_nat (length pre)) 0) acc)).
  - left. split; [done|]. split; [done|]. simpl.
    unfold seenUpTo, scannedBefore, inGrid. lia.
  - intros pre r post s s' Hsplit Hs Hrow.
    apply seqZ_split in Hsplit as [-> Hr]. rewrite length_app. simpl.
    rewrite Nat2Z.inj_add. simpl. by eapply findBestMove_row.
Qed.

(** What [findBestMove] returns. *)
Lemma findBestMove_result board shape move :
  findBestMove board shape = Some move →
  (moveScore move = NegInfinity ∧
   ∀ r c, inGrid r c → canPlaceShape board r c shape = Some false) ∨
  (∃ s, moveScore move = Finite s ∧ inGrid (moveRow move) (moveCol move) ∧
        candidate board shape (moveRow move) (moveCol move) s ∧
        ∀ r c t, inGrid r c → candidate board shape r c t →
                 t ≤ s ∧ (scannedBefore r c (moveRow move) (moveCol move) → t < s)).
Proof.
  unfold findBestMove.
  destruct (forM _ _ _) as [acc|] eqn:Hrun; [|done]. cbn [mbind option_bind].
  intros [= <-]. apply findBestMove_loops in Hrun.
  destruct Hrun as [(Hf & Hs & Hnone)|(Hf & s & Hs & Hseen & Hcand & Hmax)];
    rewrite Hf; simpl.
  - by left.
  - right. by exists s.
Qed.

Lemma findBestMove_total board shape :
  gridWf board → shapeWf shape → is_Some (findBestMove board shape).
Proof.
  intros Hg Hs. unfold findBestMove.
  destruct (forM_total
              (λ acc r, forM (visit board shape r) (seqZ 0 GRID_SIZE) acc)
              (λ _ _, True) (seqZ 0 GRID_SIZE) (mkBest NegInfinity 0 0 false) I)
    as (acc & -> & _); [|by eexists].
  intros _ r _ acc _ _.
  destruct (forM_total (visit board shape r) (λ _ _, True)
              (seqZ 0 GRID_SIZE) acc I) as (acc' & -> & _); [|by eexists].
  intros _ c _ acc1 _ _. unfold visit.
  destruct (canPlaceShape_total board shape r c Hg Hs) as [[] Hcan]; rewrite Hcan.
  - cbn [mbind option_bind].
    destruct (evalMove_total board r c shape Hg Hcan) as [t ->]. by eexists.
  - by eexists.
Qed.

(** One pass of the loop over the shapes. *)
Lemma selectMove_step board pre shape best move :
  bestOfBatch board pre best →
  findBestMove board shape = Some move →
  bestOfBatch board (pre ++ [shape])
    (if scoreGt (moveScore move) (moveScore best.2) then (Some shape, move) else best).
Proof.
  intros Hinv Hmove. apply findBestMove_result in Hmove.
  assert (Hlast : (pre ++ [shape]) !! length pre = Some shape).
  { by apply list_lookup_middle. }
  assert (Hidx : ∀ i sh, (pre ++ [shape]) !! i = Some sh →
                         pre !! i = Some sh ∧ (i < length pre)%nat
                         ∨ i = length pre ∧ sh = shape).
  { intros i sh Hi. apply lookup_app_Some in Hi as [Hi|[Hge Hi]].
    - left. split; [done|]. by eapply lookup_lt_Some.
    - right. apply list_lookup_singleton_Some in Hi as [Hi ->]. split; [lia|done]. }
  destruct Hmove as [(Hm & Hnone)|(t & Hm & Hin & Hcand & Hmax)]; rewrite Hm.
  - (* the shape has no valid position *)
    simpl. destruct Hinv as [(Hb & Hs & Hpre)|(sh & i & s & Hb & Hi & Hs & Hg & Hc & Hall)].
    + left. split; [done|]. split; [done|].
      intros sh r c [Hsh|Hsh%list_elem_of_singleton]%elem_of_app Hrc.
      * by apply Hpre.
      * subst sh. by apply Hnone.
    + right. exists sh, i, s. split; [done|].
      split; [by apply lookup_app_l_Some|]. do 3 (split; [done|]).
      intros i' sh' r' c' t' Hi' Hrc' Hc'.
      destruct (Hidx i' sh' Hi') as [[Hi'' _]|[-> ->]]; [by eapply Hall|].
      destruct Hc' as [Hc' _]. rewrite (Hnone r' c' Hrc') in Hc'. done.
  - (* the shape has a best position, of score [t] *)
    destruct Hinv as [(Hb & Hs & Hpre)|(sh & i & s & Hb & Hi & Hs & Hg & Hc & Hall)];
      rewrite Hs; simpl.
    + right. exists shape, (length pre), t. simpl.
      do 5 (split; [done|]).
      intros i' sh' r' c' t' Hi' Hrc' Hc'.
      destruct (Hidx i' sh' Hi') as [[Hi'' _]|[-> ->]].
      * destruct Hc' as [Hc' _].
        rewrite (Hpre sh' r' c') in Hc'; [done| |done].
        by eapply list_elem_of_lookup_2.
      * destruct (Hmax r' c' t' Hrc' Hc') as [Hle Hlt]. split; [done|].
        intros [?|[_ ?]]; [lia|by apply Hlt].
    + destruct (Z.ltb_spec s t) as [Hlt|Hge].
      * right. exists shape, (length pre), t. simpl.
        do 5 (split; [done|]).
        intros i' sh' r' c' t' Hi' Hrc' Hc'.
        destruct (Hidx i' sh' Hi') as [[Hi'' _]|[-> ->]].
        -- destruct (Hall i' sh' r' c' t' Hi'' Hrc' Hc') as [Hle _]. lia.
        -- destruct (Hmax r' c' t' Hrc' Hc') as [Hle Hlt']. split; [done|].
           intros [?|[_ ?]]; [lia|by apply Hlt'].
      * right. exists sh, i, s. split; [done|].
        split; [by apply lookup_app_l_Some|]. do 3 (split; [done|]).
        intros i' sh' r' c' t' Hi' Hrc' Hc'.
        destruct (Hidx i' sh' Hi') as [[Hi'' _]|[-> ->]]; [by eapply Hall|].
        destruct (Hmax r' c' t' Hrc' Hc') as [Hle _]. split; [lia|].
        apply lookup_lt_Some in Hi. intros [?|[? _]]; lia.
Qed.

Lemma selectMove_result board batch best :
  selectMove board batch = Some best → bestOfBatch board batch best.
Proof.
  unfold selectMove. revert best.
  apply (forM_invariant _ (bestOfBatch board)).
  - left. split; [done|]. split; [done|]. intros shape r c Hin.
    by apply elem_of_nil in Hin.
  - intros pre shape post best best' _ Hinv Hstep.
    destruct (findBestMove board shape) as [move|] eqn:Hmove; [|done].
    cbn [mbind option_bind] in Hstep. injection Hstep as <-.
    by apply selectMove_step.
Qed.

Lemma selectMove_total board batch :
  gridWf board → Forall shapeWf batch → is_Some (selectMove board batch).
Proof.
  intros Hg Hs. unfold selectMove.
  destruct (forM_total
    (λ best shape, move ← findBestMove board shape;
       Some (if scoreGt (moveScore move) (moveScore best.2)
             then (Some shape, move) else best))
    (λ _ _, True) batch (None, mkMove (-1) (-1) NegInfinity) I)
    as (best & -> & _); [|by eexists].
  intros pre shape post best Hsplit _.
  destruct (findBestMove_total board shape Hg) as [move ->].
  { rewrite Forall_forall in Hs. apply Hs. rewrite Hsplit.
    apply elem_of_app. right. apply elem_of_cons. by left. }
  by eexists.
Qed.

(** What [executeMove] is about to do. *)
Lemma executeMove_result board batch call :
  executeMove board batch = Some call →
  match call with
  | AiNoMove =>
      ∀ shape r c, shape ∈ batch → inGrid r c →
                   canPlaceShape board r c shape = Some false
  | AiPlanned shape r c =>
      ∃ i s, batch !! i = Some shape ∧ inGrid r c ∧ candidate board shape r c s ∧
             ∀ i' shape' r' c' t,
               batch !! i' = Some shape' → inGrid r' c' →
               candidate board shape' r' c' t →
               t ≤ s ∧ (triedBefore i' r' c' i r c → t < s)
  end.
Proof.
  unfold executeMove.
  destruct (selectMove board batch) as [best|] eqn:Hsel; [|done].
  cbn [mbind option_bind]. intros [= <-].
  apply selectMove_result in Hsel.
  destruct Hsel as [(Hb & Hs & Hnone)|(sh & i & s & Hb & Hi & Hs & Hg & Hc & Hall)].
  - by rewrite Hb.
  - rewrite Hb, Hs. simpl. by exists i, s.
Qed.

Lemma executeMove_total board batch :
  gridWf board → Forall shapeWf batch → is_Some (executeMove board batch).
Proof.
  intros Hg Hs. unfold executeMove.
  destruct (selectMove_total board batch Hg Hs) as [best ->]. by eexists.
Qed.

(** ** What the AI loop does to the board *)


Lemma runAI_cases g g' :
  runAI g = Some g' →
  g' = g ∨
  ∃ call, executeMove (gameBoard g) (shapes g) = Some call ∧
          g' = withAiCalls (aiCalls g ++ [call]) g.
Proof.
  unfold runAI. case_match; [intros [= <-]; by left|].
  destruct (executeMove _ _) as [call|]; [|done]. cbn [mbind option_bind].
  intros [= <-]. right. by exists call.
Qed.




(** C7: the move [executeMove] picks is a candidate whose score no candidate
    exceeds and which every candidate tried before it (shapes in batch
    order, positions row by row, each row from its first column) is strictly
    below: on equal scores the first one stays.  It picks none exactly when
    there is no candidate. *)
Theorem executeMove_first_best board batch :
  gridWf board → Forall shapeWf batch →
  ∃ call, executeMove board batch = Some call ∧
    match call with
    | AiNoMove =>
        ∀ shape r c, shape ∈ batch → inGrid r c →
                     canPlaceShape board r c shape = Some false
    | AiPlanned shape r c =>
        ∃ i s, batch !! i = Some shape ∧ inGrid r c ∧
               candidate board shape r c s ∧
               ∀ i' shape' r' c' t,
                 batch !! i' = Some shape' → inGrid r' c' →
                 candidate board shape' r' c' t →
                 t ≤ s ∧ (triedBefore i' r' c' i r c → t < s)
    end.
Proof.
  intros Hg Hs. destruct (executeMove_total board batch Hg Hs) as [call Hcall].
  exists call. split; [done|]. by apply executeMove_result.
Qed.

Lemma shapeWf_unitShape cid : shapeWf (unitShape cid).
Proof. split; [done|]. split; [done|]. by repeat constructor. Qed.

Lemma shapeWf_domino cid : shapeWf (domino cid).
Proof. split; [done|]. split; [done|]. by repeat constructor. Qed.

Lemma executeMove_first_best_witness :
  ∃ call, executeMove createEmptyBoard [unitShape 0; domino 1] = Some call ∧
    match call with
    | AiNoMove =>
        ∀ shape r c, shape ∈ [unitShape 0; domino 1] → inGrid r c →
                     canPlaceShape createEmptyBoard r c shape = Some false
    | AiPlanned shape r c =>
        ∃ i s, [unitShape 0; domino 1] !! i = Some shape ∧ inGrid r c ∧
               candidate createEmptyBoard shape r c s ∧
               ∀ i' shape' r' c' t,
                 [unitShape 0; domino 1] !! i' = Some shape' → inGrid r' c' →
                 candidate createEmptyBoard shape' r' c' t →
                 t ≤ s ∧ (triedBefore i' r' c' i r c → t < s)
    end.
Proof.
  apply executeMove_first_best.
  - apply gridWf_createEmptyBoard.
  - repeat constructor; [apply shapeWf_unitShape|apply shapeWf_domino].
Defined.

(** On the empty board the single block goes to row 1, last column, with
    score 60: one gap run in its column, one edge, six rows above the last. *)
Example executeMove_empty_board :
  executeMove createEmptyBoard [unitShape 0; domino 1]
  = Some (AiPlanned (unitShape 0) 1 7)
  ∧ evalMove createEmptyBoard 1 7 (unitShape 0) = Some 60.
Proof. split; vm_compute; reflexivity. Qed.


Lemma gameWf_sampleGame : gameWf sampleGame.
Proof.
  split; [apply gridWf_createEmptyBoard|].
  apply Forall_cons. split; [apply shapeWf_unitShape|].
  apply Forall_cons. split; [apply shapeWf_domino|]. apply Forall_nil_2.
Qed.


(** ** Empty batch *)

(** C10: with no shape left in the batch, [hasValidMoves] answers [false],
    whatever the board holds. *)
Theorem hasValidMoves_empty_batch g :
  shapes g = [] → hasValidMoves g = Some false.
Proof. intros H. unfold hasValidMoves, hasValidMovesOn. by rewrite H. Qed.

Lemma hasValidMoves_empty_batch_witness : hasValidMoves emptyGame = Some false.
Proof. apply hasValidMoves_empty_batch. reflexivity. Defined.

(** ** The cell invariant *)

Lemma setBlock_cellInv board r c new :
  cellInv board → blockOk new → cellInv (setBlock board r c new).
Proof.
  intros Hinv Hnew. unfold setBlock. apply Forall_alter; [done|].
  intros line _ Hline. by apply Forall_insert.
Qed.

Lemma fillBlock_cellInv board r c shade board' :
  shade ≠ 0 → cellInv board → fillBlock board r c shade = Some board' →
  cellInv board'.
Proof.
  intros Hshade Hinv. unfold fillBlock.
  destruct (getBlock board r c) as [blk|]; [|done]. intros [= <-].
  by apply setBlock_cellInv.
Qed.

Lemma placeCells_cellInv shade board r c cells board' :
  shade ≠ 0 → cellInv board → placeCells shade board r c cells = Some board' →
  cellInv board'.
Proof.
  intros Hshade. revert board c. induction cells as [|cell rest IH];
    intros board c Hinv; simpl.
  - by intros [= <-].
  - destruct cell; [|by apply IH].
    destruct (fillBlock board r c shade) as [b1|] eqn:E; [|done]. simpl.
    apply IH. by eapply fillBlock_cellInv.
Qed.

Lemma placeRows_cellInv shade board r c rows board' :
  shade ≠ 0 → cellInv board → placeRows shade board r c rows = Some board' →
  cellInv board'.
Proof.
  intros Hshade. revert board r. induction rows as [|cells rest IH];
    intros board r Hinv; simpl.
  - by intros [= <-].
  - destruct (placeCells shade board r c cells) as [b1|] eqn:E; [|done]. simpl.
    apply IH. by eapply placeCells_cellInv.
Qed.

Lemma clearBlock_cellInv ref board : cellInv board → cellInv (clearBlock ref board).
Proof.
  intros Hinv. unfold clearBlock. case_match; [|done].
  by apply setBlock_cellInv.
Qed.

Lemma createEmptyBoard_cellInv : cellInv createEmptyBoard.
Proof.
  unfold cellInv, createEmptyBoard. apply Forall_fmap, Forall_forall.
  intros r _. unfold compose. apply Forall_fmap, Forall_forall. by intros c _.
Qed.

Lemma stateInv_same g g' :
  gameBoard g' = gameBoard g → shapes g' = shapes g → aiCalls g' = aiCalls g →
  stateInv g → stateInv g'.
Proof. unfold stateInv, coloursOk. by intros -> -> ->. Qed.

Lemma checkLines_stateInv g g' :
  checkLines g = Some g' → stateInv g → stateInv g'.
Proof.
  intros (Hb & Hs & _ & _ & Ha & _)%checkLines_frame. by apply stateInv_same.
Qed.

Lemma checkGameOver_stateInv g g' :
  checkGameOver g = Some g' → stateInv g → stateInv g'.
Proof.
  unfold checkGameOver. destruct (hasValidMoves g) as [[]|]; [| |done];
    by intros [= <-].
Qed.

Lemma placeShape_stateInv r c shape g g' :
  shapeColor shape ≠ 0 → placeShape r c shape g = Some g' →
  stateInv g → stateInv g'.
Proof.
  intros Hshade. unfold placeShape.
  destruct (placeRows _ _ _ _ _) as [board'|] eqn:E; [|done]. simpl.
  intros Hcheck [Hcell Hcol]. apply (checkLines_stateInv _ _ Hcheck).
  split; [|done]. simpl. by eapply placeRows_cellInv.
Qed.

Lemma BLOCK_COLORS_nonzero shade : shade ∈ BLOCK_COLORS → shade ≠ 0.
Proof.
  unfold BLOCK_COLORS. rewrite !elem_of_cons, elem_of_nil.
  intros H. repeat (destruct H as [->|H]; [done|]). done.
Qed.

Lemma newShape_colour d cid shape :
  newShape d cid = Some shape → shapeColor shape ≠ 0.
Proof.
  unfold newShape. destruct (SHAPES !! _); [|done]. simpl.
  destruct (BLOCK_COLORS !! _) as [shade|] eqn:E; [|done]. simpl.
  destruct (rotateTimes _ _) as [m|]; [|done]. simpl.
  destruct (head m); [|done]. simpl. intros [= <-]. simpl.
  apply BLOCK_COLORS_nonzero. by eapply list_elem_of_lookup_2.
Qed.

Lemma generateNewShapes_stateInv rng g g' :
  generateNewShapes rng g = Some g' → stateInv g → stateInv g'.
Proof.
  unfold generateNewShapes. destruct (isGameOver g); [by intros [= <-]|].
  case_match; [by intros [= <-]|].
  destruct (newShape (rng 0%nat) _) as [s0|] eqn:E0; [|done].
  destruct (newShape (rng 1%nat) _) as [s1|] eqn:E1; [|done].
  destruct (newShape (rng 2%nat) _) as [s2|] eqn:E2; [|done].
  cbn [mbind option_bind]. intros Hres [Hcell [Hsh Hcalls]].
  apply newShape_colour in E0, E1, E2.
  assert (stateInv (withNextContainer (nextContainer g + 3)
                      (withShapes (shapes g ++ [s0; s1; s2]) g))) as Hinv.
  { split; [done|]. split; [|done]. simpl. apply Forall_app. split; [done|].
    by repeat constructor. }
  destruct (hasValidMoves _) as [[]|]; [| |done]; by injection Hres as <-.
Qed.

Lemma removeShape_stateInv cid g : stateInv g → stateInv (removeShape cid g).
Proof.
  intros [Hcell [Hsh Hcalls]]. unfold removeShape.
  destruct (list_find _ _) as [[i s]|]; [|done].
  split; [done|]. split; [|done]. simpl.
  by apply Forall_delete.
Qed.

Lemma runAI_stateInv g g' : runAI g = Some g' → stateInv g → stateInv g'.
Proof.
  intros [->|(call & Hcall & ->)]%runAI_cases; [done|].
  intros [Hcell [Hsh Hcalls]]. split; [done|]. split; [done|]. simpl.
  apply Forall_app. split; [done|]. constructor; [|done].
  apply executeMove_result in Hcall. destruct call as [shape r c|]; [|done].
  destruct Hcall as (i & s & Hi & _). simpl.
  rewrite Forall_lookup in Hsh. by eapply Hsh.
Qed.

Lemma onDragStart_stateInv cid g : stateInv g → stateInv (onDragStart cid g).
Proof.
  intros [Hcell [Hsh Hcalls]]. unfold onDragStart.
  destruct (list_find _ _) as [[i s]|] eqn:E; [|done].
  destruct (isGameOver g); [done|].
  split; [done|]. split; [|done]. simpl.
  apply Forall_insert; [done|]. simpl.
  apply list_find_Some in E as (Hi & _). rewrite Forall_lookup in Hsh.
  by eapply Hsh.
Qed.

Lemma onPlaceShape_stateInv r c shape rng g g' :
  shapeColor shape ≠ 0 → onPlaceShape r c shape rng g = Some g' →
  stateInv g → stateInv g'.
Proof.
  intros Hshade. unfold onPlaceShape.
  destruct (placeShape r c shape g) as [g1|] eqn:E1; [|done]. simpl.
  destruct (checkLines g1) as [g2|] eqn:E2; [|done]. simpl.
  intros Hres Hinv.
  assert (stateInv (removeShape (container shape) g2)) as Hinv3.
  { apply removeShape_stateInv. eapply checkLines_stateInv; [done|].
    by eapply placeShape_stateInv. }
  case_match; [by eapply generateNewShapes_stateInv|by injection Hres as <-].
Qed.

Lemma onDragEnd_stateInv gridPos rng g g' :
  onDragEnd gridPos rng g = Some g' → stateInv g → stateInv g'.
Proof.
  unfold onDragEnd. destruct (list_find _ _) as [[i s]|] eqn:E;
    [|by intros [= <-]].
  intros Hres [Hcell [Hsh Hcalls]].
  apply list_find_Some in E as (Hi & _).
  assert (shapeColor s ≠ 0) as Hshade.
  { rewrite Forall_lookup in Hsh. by eapply Hsh. }
  set (g0 := withShapes (<[i:=setDragging false s]> (shapes g)) g) in *.
  assert (stateInv g0) as Hinv0.
  { split; [done|]. split; [|done]. simpl. by apply Forall_insert. }
  destruct (canPlaceShape _ _ _ _) as [[]|]; [| |done]; simpl in Hres.
  - destruct (placeShape _ _ _ g0) as [g1|] eqn:E1; [|done]. simpl in Hres.
    destruct (checkLines _) as [g3|] eqn:E3; [|done]. simpl in Hres.
    assert (stateInv g3) as Hinv3.
    { eapply checkLines_stateInv; [done|]. apply removeShape_stateInv.
      by eapply (placeShape_stateInv _ _ (setDragging false s)). }
    revert Hres. case_match; intros Hres;
      [by eapply generateNewShapes_stateInv|by injection Hres as <-].
  - by injection Hres as <-.
Qed.

Lemma aiResume_stateInv k rng g g' :
  aiResume k rng g = Some g' → stateInv g → stateInv g'.
Proof.
  unfold aiResume. destruct (aiCalls g !! k) as [call|] eqn:Hk;
    [|by intros [= <-]].
  intros Hres [Hcell [Hsh Hcalls]].
  set (g0 := withAiCalls (delete k (aiCalls g)) g) in *.
  assert (stateInv g0) as Hinv0.
  { split; [done|]. split; [done|]. simpl. by apply Forall_delete. }
  destruct call as [shape r c|].
  - destruct (onPlaceShape r c shape rng g0) as [g1|] eqn:E1; [|done].
    simpl in Hres. apply (runAI_stateInv _ _ Hres).
    eapply onPlaceShape_stateInv; [|done..].
    rewrite Forall_lookup in Hcalls. by apply (Hcalls _ _ Hk).
  - destruct (generateNewShapes rng g0) as [g1|] eqn:E1; [|done].
    simpl in Hres. apply (runAI_stateInv _ _ Hres).
    by eapply generateNewShapes_stateInv.
Qed.

Lemma timelineStep_stateInv k g g' :
  timelineStep k g = Some g' → stateInv g → stateInv g'.
Proof.
  unfold timelineStep. destruct (timelines g !! k) as [[|ref rest]|];
    [| |by intros [= <-]].
  - intros H Hinv. by apply (checkGameOver_stateInv _ _ H).
  - intros [= <-] [Hcell Hcol]. split; [|done]. simpl.
    by apply clearBlock_cellInv.
Qed.

Lemma startGame_stateInv rng g g' :
  startGame rng g = Some g' → coloursOk g → stateInv g'.
Proof.
  unfold startGame. intros H Hcol.
  apply (generateNewShapes_stateInv _ _ _ H). split; [|done].
  apply createEmptyBoard_cellInv.
Qed.

Lemma resetGame_stateInv g : stateInv g → stateInv (resetGame g).
Proof.
  intros [Hcell [Hsh Hcalls]]. split; [done|]. split; [|done]. simpl.
  constructor.
Qed.

(** Every handler keeps the invariant. *)
Lemma step_stateInv g e g' : step g e = Some g' → stateInv g → stateInv g'.
Proof.
  destruct e; simpl.
  - intros H [_ Hcol]. by eapply startGame_stateInv.
  - by intros [= <-].
  - unfold onContinue. simpl. destruct (previousAIState g).
    + intros Hrun Hinv. by apply (runAI_stateInv _ _ Hrun).
    + by intros [= <-].
  - intros [= <-]. apply resetGame_stateInv.
  - intros [= <-]. apply onDragStart_stateInv.
  - apply onDragEnd_stateInv.
  - unfold toggleAI. simpl. destruct (negb (isAIEnabled g)).
    + intros Hrun Hinv. by apply (runAI_stateInv _ _ Hrun).
    + by intros [= <-].
  - apply aiResume_stateInv.
  - apply timelineStep_stateInv.
Qed.

Lemma run_stateInv events g g' :
  run events g = Some g' → stateInv g → stateInv g'.
Proof.
  unfold run. revert g. induction events as [|e rest IH]; intros g; simpl.
  - by intros [= <-].
  - destruct (step g e) as [g1|] eqn:E; [|done]. simpl.
    intros Hrun Hinv. apply (IH g1 Hrun). by eapply step_stateInv.
Qed.

Lemma stateInv_newGame : stateInv newGame.
Proof. repeat split; constructor. Qed.

(** C9: placing a shape of a colour other than 0, clearing a block and
    starting or resetting a game keep the cell invariant (an empty block has
    the colour 0, a placed block another colour); the shapes of a batch get
    their colour from the palette, which has no 0; so every handler keeps
    the invariant, and it holds in every state the game reaches. *)
Theorem cell_invariant_kept g :
  stateInv g →
  (∀ r c shape g', shapeColor shape ≠ 0 → placeShape r c shape g = Some g' →
                   cellInv (gameBoard g')) ∧
  (∀ ref, cellInv (clearBlock ref (gameBoard g))) ∧
  cellInv (gameBoard (resetGame g)) ∧
  (∀ rng g', startGame rng g = Some g' → cellInv (gameBoard g')) ∧
  (∀ d cid shape, newShape d cid = Some shape → shapeColor shape ≠ 0) ∧
  (∀ e g', step g e = Some g' → stateInv g') ∧
  (∀ events g', run events newGame = Some g' → cellInv (gameBoard g')).
Proof.
  intros Hinv. split; [|split; [|split; [|split; [|split; [|split]]]]].
  - intros r c shape g' Hshade Hplace.
    by destruct (placeShape_stateInv r c shape g g' Hshade Hplace Hinv).
  - intros ref. apply clearBlock_cellInv, Hinv.
  - apply Hinv.
  - intros rng g' Hstart. destruct Hinv as [_ Hcol].
    by destruct (startGame_stateInv rng g g' Hstart Hcol).
  - apply newShape_colour.
  - intros e g' Hstep. by eapply step_stateInv.
  - intros events g' Hrun.
    by destruct (run_stateInv events newGame g' Hrun stateInv_newGame).
Qed.

Lemma cell_invariant_kept_witness :
  (∀ r c shape g', shapeColor shape ≠ 0 → placeShape r c shape sampleGame = Some g' →
                   cellInv (gameBoard g')) ∧
  (∀ ref, cellInv (clearBlock ref (gameBoard sampleGame))) ∧
  cellInv (gameBoard (resetGame sampleGame)) ∧
  (∀ rng g', startGame rng sampleGame = Some g' → cellInv (gameBoard g')) ∧
  (∀ d cid shape, newShape d cid = Some shape → shapeColor shape ≠ 0) ∧
  (∀ e g', step sampleGame e = Some g' → stateInv g') ∧
  (∀ events g', run events newGame = Some g' → cellInv (gameBoard g')).
Proof.
  apply cell_invariant_kept. split; [apply createEmptyBoard_cellInv|].
  split; [|constructor]. apply Forall_cons. split; [done|].
  apply Forall_cons. split; [done|]. apply Forall_nil_2.
Defined.

(** ** Batch generation *)

Lemma newShape_container d cid shape :
  newShape d cid = Some shape → container shape = cid.
Proof.
  unfold newShape. destruct (SHAPES !! _); [|done]. simpl.
  destruct (BLOCK_COLORS !! _); [|done]. simpl.
  destruct (rotateTimes _ _) as [m|]; [|done]. simpl.
  destruct (head m); [|done]. simpl. by intros [= <-].
Qed.

Lemma generateNewShapes_cases rng g g' :
  generateNewShapes rng g = Some g' →
  g' = g ∨
  (shapes g = [] ∧ isGameOver g = false ∧
   container <$> shapes g' =
     [nextContainer g; S (nextContainer g); S (S (nextContainer g))]).
Proof.
  unfold generateNewShapes. destruct (isGameOver g) eqn:Hover.
  { intros [= <-]. by left. }
  destruct (shapes g) as [|s rest] eqn:Hshapes; simpl; [|intros [= <-]; by left].
  destruct (newShape (rng 0%nat) _) as [s0|] eqn:E0; [|done].
  destruct (newShape (rng 1%nat) _) as [s1|] eqn:E1; [|done].
  destruct (newShape (rng 2%nat) _) as [s2|] eqn:E2; [|done].
  cbn [mbind option_bind]. intros Hres. right. split; [done|]. split; [done|].
  apply newShape_container in E0, E1, E2.
  assert (shapes g' = [s0; s1; s2]) as ->.
  { destruct (hasValidMoves _) as [[]|]; [| |done]; by injection Hres as <-. }
  simpl. rewrite E0, E1, E2. repeat f_equal; lia.
Qed.

Lemma placeShape_batch r c shape g g' :
  placeShape r c shape g = Some g' →
  shapes g' = shapes g ∧ nextContainer g' = nextContainer g.
Proof.
  unfold placeShape. destruct (placeRows _ _ _ _ _) as [board'|]; [|done]. simpl.
  by intros (_ & -> & _ & _ & _ & ->)%checkLines_frame.
Qed.

Lemma removeShape_sublist cid g :
  shapes (removeShape cid g) `sublist_of` shapes g.
Proof.
  unfold removeShape. destruct (list_find _ _) as [[i s]|]; [|done].
  simpl. apply sublist_delete.
Qed.

Lemma removeShape_emptied cid g :
  shapes (removeShape cid g) = [] → (length (shapes g) ≤ 1)%nat.
Proof.
  unfold removeShape. destruct (list_find _ _) as [[i s]|] eqn:E.
  - apply list_find_Some in E as (Hi & _). simpl. intros Hnil.
    apply (f_equal length) in Hnil. rewrite length_delete in Hnil by (by eexists).
    simpl in Hnil. lia.
  - intros ->. simpl. lia.
Qed.

Lemma removeShape_nextContainer cid g :
  nextContainer (removeShape cid g) = nextContainer g.
Proof. unfold removeShape. by destruct (list_find _ _) as [[i s]|]. Qed.

Lemma runAI_batch g g' :
  runAI g = Some g' → shapes g' = shapes g.
Proof. intros [->|(call & _ & ->)]%runAI_cases; done. Qed.

Lemma insert_dragging_ids i s b (l : list Shape) :
  l !! i = Some s → container <$> <[i := setDragging b s]> l = container <$> l.
Proof.
  intros Hi. rewrite list_fmap_insert. simpl. apply list_insert_id.
  by rewrite list_lookup_fmap, Hi.
Qed.

(** After a placement: the shape is taken out of the batch, and a batch is
    asked for when none is left. *)
Lemma refill_batch rng g g2 g' :
  shapes g2 `sublist_of` shapes g → nextContainer g2 = nextContainer g →
  (shapes g2 = [] → (length (shapes g) ≤ 1)%nat) →
  (if Z.of_nat (length (shapes g2)) =? 0 then generateNewShapes rng g2 else Some g2)
    = Some g' →
  batchIds g' `sublist_of` batchIds g ∨
  ((length (shapes g) ≤ 1)%nat ∧
   batchIds g' = [nextContainer g; S (nextContainer g); S (S (nextContainer g))]).
Proof.
  intros Hsub Hn Hempty. unfold batchIds. case_match.
  - intros [->|(Hnil & _ & Hids)]%generateNewShapes_cases.
    + left. by apply fmap_sublist.
    + right. split; [by apply Hempty|]. by rewrite Hids, Hn.
  - intros [= <-]. left. by apply fmap_sublist.
Qed.

(** A handler either leaves the batch as it is up to shapes taken out of
    it, or fills it with a batch of three, whose containers are new; the
    batch then held no shape but the one the handler placed. *)
Lemma step_batch g e g' :
  step g e = Some g' →
  batchIds g' `sublist_of` batchIds g ∨
  ((length (shapes g) ≤ 1)%nat ∧
   batchIds g' = [nextContainer g; S (nextContainer g); S (S (nextContainer g))]).
Proof.
  destruct e; simpl.
  - unfold startGame, batchIds.
    intros [->|(Hnil & _ & Hids)]%generateNewShapes_cases.
    + by left.
    + right. simpl in *. rewrite Hnil. split; [simpl; lia|done].
  - intros [= <-]. by left.
  - unfold onContinue, batchIds. simpl. destruct (previousAIState g).
    + intros ->%runAI_batch. by left.
    + intros [= <-]. by left.
  - intros [= <-]. left. apply sublist_nil_l.
  - intros [= <-]. left. unfold onDragStart, batchIds.
    destruct (list_find _ _) as [[i s]|] eqn:E; [|done].
    destruct (isGameOver g); [done|]. simpl.
    apply list_find_Some in E as (Hi & _). by rewrite insert_dragging_ids.
  - unfold onDragEnd.
    destruct (list_find _ _) as [[i s]|] eqn:E; [|intros [= <-]; by left].
    apply list_find_Some in E as (Hi & _).
    set (g0 := withShapes (<[i:=setDragging false s]> (shapes g)) g).
    assert (Hids0 : batchIds g0 = batchIds g).
    { unfold g0, batchIds. simpl. by apply insert_dragging_ids. }
    assert (Hlen0 : length (shapes g0) = length (shapes g)).
    { unfold g0. simpl. by rewrite length_insert. }
    destruct (canPlaceShape _ _ _ _) as [[]|]; [| |done]; cbn [mbind option_bind].
    + destruct (placeShape _ _ _ g0) as [g1|] eqn:E1; [|done]. cbn [mbind option_bind].
      destruct (checkLines _) as [g3|] eqn:E3; [|done]. cbn [mbind option_bind].
      apply placeShape_batch in E1 as [E1 Hn1].
      apply checkLines_frame in E3 as (_ & E3 & _ & _ & _ & Hn3).
      intros Hres. rewrite <- Hids0, <- Hlen0. change (nextContainer g) with (nextContainer g0).
      apply (refill_batch rng g0 g3 g'); [| | |done].
      * rewrite E3, <- E1. apply removeShape_sublist.
      * by rewrite Hn3, removeShape_nextContainer.
      * rewrite E3, <- E1. apply removeShape_emptied.
    + intros [= <-]. left. by rewrite Hids0.
  - unfold toggleAI, batchIds. simpl. destruct (negb (isAIEnabled g)).
    + intros ->%runAI_batch. by left.
    + intros [= <-]. by left.
  - unfold aiResume. destruct (aiCalls g !! k) as [call|]; [|intros [= <-]; by left].
    set (g0 := withAiCalls (delete k (aiCalls g)) g).
    destruct call as [shape r c|].
    + unfold onPlaceShape.
      destruct (placeShape _ _ _ g0) as [g1|] eqn:E1; [|done]. cbn [mbind option_bind].
      destruct (checkLines _) as [g2|] eqn:E2; [|done]. cbn [mbind option_bind].
      apply placeShape_batch in E1 as [E1 Hn1].
      apply checkLines_frame in E2 as (_ & E2 & _ & _ & _ & Hn2).
      destruct (if _ =? 0 then _ else _) as [g4|] eqn:E4; [|done].
      cbn [mbind option_bind]. intros Hrun. apply runAI_batch in Hrun.
      unfold batchIds. rewrite Hrun.
      apply (refill_batch rng g0 _ g4) in E4; [done| | |].
      * rewrite <- E1, <- E2. apply removeShape_sublist.
      * by rewrite removeShape_nextContainer, Hn2.
      * rewrite <- E1, <- E2. apply removeShape_emptied.
    + destruct (generateNewShapes rng g0) as [g1|] eqn:E1; [|done].
      cbn [mbind option_bind]. intros Hrun. apply runAI_batch in Hrun.
      unfold batchIds. rewrite Hrun.
      apply generateNewShapes_cases in E1 as [->|(Hnil & _ & Hids)]; [by left|].
      right. simpl in *. rewrite Hnil. split; [simpl; lia|done].
  - unfold timelineStep, batchIds. destruct (timelines g !! k) as [[|ref rest]|].
    + unfold checkGameOver. destruct (hasValidMoves _) as [[]|]; [| |done];
        intros [= <-]; by left.
    + intros [= <-]. by left.
    + intros [= <-]. by left.
Qed.


(** ** The earlier revision's counter *)

Lemma Legacy_checkLines_shapes g g' :
  Legacy.checkLines g = Some g' → shapes g' = shapes g.
Proof.
  intros H. pose proof (Legacy_checkLines_agrees g START) as Hagree.
  rewrite H in Hagree. destruct (checkLines g) as [g2|] eqn:E; [|done].
  apply checkLines_frame in E as (_ & <- & _). simpl in Hagree.
  assert (withPhase START g' = withPhase START g2) as Heq by congruence.
  by apply (f_equal shapes) in Heq.
Qed.

Lemma Legacy_placeShape_shapes r c shape g g' :
  Legacy.placeShape r c shape g = Some g' → shapes g' = shapes g.
Proof.
  unfold Legacy.placeShape. destruct (placeRows _ _ _ _ _); [|done]. simpl.
  by intros ->%Legacy_checkLines_shapes.
Qed.

Lemma removeShape_length cid g :
  cid ∈ (container <$> shapes g) →
  S (length (shapes (removeShape cid g))) = length (shapes g).
Proof.
  intros (s & -> & Hin)%list_elem_of_fmap. unfold removeShape.
  destruct (list_find _ _) as [[i s']|] eqn:E.
  - apply list_find_Some in E as (Hi & _). simpl.
    rewrite length_delete by (by eexists). apply lookup_lt_Some in Hi. lia.
  - apply list_find_None in E. rewrite Forall_forall in E. by destruct (E s Hin).
Qed.

Lemma Legacy_generateNewShapes_counter rng st st' :
  Legacy.generateNewShapes rng st = Some st' →
  Legacy.placedShapesCount st + Z.of_nat (length (shapes (Legacy.game st))) = 3 →
  Legacy.placedShapesCount st' + Z.of_nat (length (shapes (Legacy.game st'))) = 3.
Proof.
  unfold Legacy.generateNewShapes. destruct (isGameOver _); [by intros [= <-]|].
  destruct (newShape (rng 0%nat) _) as [s0|]; [|done].
  destruct (newShape (rng 1%nat) _) as [s1|]; [|done].
  destruct (newShape (rng 2%nat) _) as [s2|]; [|done].
  cbn [mbind option_bind]. destruct (hasValidMoves _) as [[]|]; [| |done];
    by intros [= <-].
Qed.

(** As long as only the player places shapes, the counter and the batch
    add up to three: the counter reaches 3 exactly when the batch is
    empty. *)
Lemma Legacy_onDragEnd_counter gridPos rng st st' :
  Legacy.placedShapesCount st + Z.of_nat (length (shapes (Legacy.game st))) = 3 →
  Legacy.onDragEnd gridPos rng st = Some st' →
  Legacy.placedShapesCount st' + Z.of_nat (length (shapes (Legacy.game st'))) = 3.
Proof.
  intros Hinv. unfold Legacy.onDragEnd.
  destruct (list_find _ _) as [[i s]|] eqn:E; [|by intros [= <-]].
  apply list_find_Some in E as (Hi & _).
  set (dragged := setDragging false s).
  set (g0 := withShapes (<[i:=dragged]> (shapes (Legacy.game st))) (Legacy.game st)).
  destruct (canPlaceShape _ _ _ _) as [[]|]; [| |done]; cbn [mbind option_bind].
  - destruct (Legacy.placeShape _ _ _ g0) as [g1|] eqn:E1; [|done].
    cbn [mbind option_bind].
    destruct (Legacy.checkLines _) as [g3|] eqn:E3; [|done].
    cbn [mbind option_bind].
    apply Legacy_placeShape_shapes in E1. apply Legacy_checkLines_shapes in E3.
    assert (S (length (shapes g3)) = length (shapes (Legacy.game st))) as Hlen.
    { rewrite E3, (removeShape_length (container dragged) g1).
      - rewrite E1. unfold g0. simpl. by rewrite length_insert.
      - rewrite E1. unfold g0. simpl. apply list_elem_of_fmap.
        exists dragged. split; [done|]. apply list_elem_of_lookup. exists i.
        apply list_lookup_insert_eq. by eapply lookup_lt_Some. }
    cbn [Legacy.placedShapesCount]. case_match.
    + intros Hgen. apply (Legacy_generateNewShapes_counter _ _ _ Hgen). simpl. lia.
    + intros [= <-]. simpl. lia.
  - intros [= <-]. simpl. by rewrite length_insert.
Qed.

Lemma Legacy_generateNewShapes_cases rng st st' :
  Legacy.generateNewShapes rng st = Some st' →
  st' = st ∨ length (shapes (Legacy.game st')) = 3%nat.
Proof.
  unfold Legacy.generateNewShapes. destruct (isGameOver _); [intros [= <-]; by left|].
  destruct (newShape (rng 0%nat) _) as [s0|]; [|done].
  destruct (newShape (rng 1%nat) _) as [s1|]; [|done].
  destruct (newShape (rng 2%nat) _) as [s2|]; [|done].
  cbn [mbind option_bind]. destruct (hasValidMoves _) as [[]|]; [| |done];
    intros [= <-]; by right.
Qed.

(** With the counter in step with the batch, a drop brings a new batch only
    when it placed the last shape. *)
Lemma Legacy_onDragEnd_batch gridPos rng st st' :
  Legacy.placedShapesCount st + Z.of_nat (length (shapes (Legacy.game st))) = 3 →
  Legacy.onDragEnd gridPos rng st = Some st' →
  batchIds (Legacy.game st') `sublist_of` batchIds (Legacy.game st) ∨
  ((length (shapes (Legacy.game st)) ≤ 1)%nat ∧
   length (shapes (Legacy.game st')) = 3%nat).
Proof.
  intros Hinv. unfold Legacy.onDragEnd, batchIds.
  destruct (list_find _ _) as [[i s]|] eqn:E; [|intros [= <-]; by left].
  apply list_find_Some in E as (Hi & _).
  set (dragged := setDragging false s).
  set (g0 := withShapes (<[i:=dragged]> (shapes (Legacy.game st))) (Legacy.game st)).
  assert (Hids0 : container <$> shapes g0 = container <$> shapes (Legacy.game st)).
  { unfold g0. simpl. by apply insert_dragging_ids. }
  destruct (canPlaceShape _ _ _ _) as [[]|]; [| |done]; cbn [mbind option_bind].
  - destruct (Legacy.placeShape _ _ _ g0) as [g1|] eqn:E1; [|done].
    cbn [mbind option_bind].
    destruct (Legacy.checkLines _) as [g3|] eqn:E3; [|done].
    cbn [mbind option_bind].
    apply Legacy_placeShape_shapes in E1. apply Legacy_checkLines_shapes in E3.
    assert (Hsub : (container <$> shapes g3)
                     `sublist_of` (container <$> shapes (Legacy.game st))).
    { rewrite <- Hids0, E3, <- E1. apply fmap_sublist, removeShape_sublist. }
    cbn [Legacy.placedShapesCount]. case_match eqn:Hcount.
    + intros [->|Hthree]%Legacy_generateNewShapes_cases; [by left|].
      right. split; [|done]. apply Z.leb_le in Hcount. lia.
    + intros [= <-]. by left.
  - intros [= <-]. left. unfold Legacy.withGame. cbn [Legacy.game]. by rewrite Hids0.
Qed.

(** The AI of the earlier revision breaks that: it counts a move for a
    shape the player has already placed, so the next drop brings the counter
    to 3 and a new batch replaces the domino still waiting. *)
Example Legacy_counter_drops_waiting_shape :
  ((fun '(st, _) => (container <$> shapes (Legacy.game st),
                     Legacy.placedShapesCount st))
     <$> Legacy.aiResume 0 noDraw legacyRace) = Some ([1%nat; 2%nat], 2) ∧
  ((fun st => container <$> shapes (Legacy.game st))
     <$> (Legacy.aiResume 0 noDraw legacyRace
            ≫= fun '(st, _) => Legacy.onDragEnd (mkPosition 2 2) noDraw st))
  = Some [3%nat; 4%nat; 5%nat].
Proof. split; vm_compute; reflexivity. Qed.

(** The earlier revision drops a batch that fits nowhere when its AI finds
    no move: the two dominoes are replaced by three new shapes. *)
Example Legacy_runAI_replaces_stuck_batch :
  (fun '(st, again) =>
     (container <$> shapes (Legacy.game st), Legacy.placedShapesCount st, again))
    <$> Legacy.runAI noDraw legacyStuck
  = Some ([3%nat; 4%nat; 5%nat], 0, true).
Proof. vm_compute. reflexivity. Qed.
(** ** When a batch is generated *)

Lemma Legacy_runAI_counter_batch rng st st' again :
  Legacy.runAI rng st = Some (st', again) →
  (Legacy.placedShapesCount st + Z.of_nat (length (shapes (Legacy.game st))) = 3 →
   Legacy.placedShapesCount st' + Z.of_nat (length (shapes (Legacy.game st'))) = 3) ∧
  (Legacy.game st' = Legacy.game st ∨
   (executeMove (gameBoard (Legacy.game st)) (shapes (Legacy.game st)) = Some AiNoMove ∧
    isAIEnabled (Legacy.game st) = true ∧ isGameOver (Legacy.game st) = false ∧
    length (shapes (Legacy.game st')) = 3%nat ∧
    Legacy.placedShapesCount st' = 0)).
Proof.
  unfold Legacy.runAI.
  destruct (isAIEnabled (Legacy.game st)) eqn:Hai;
    [|intros [= <- <-]; split; [done|by left]].
  destruct (isGameOver (Legacy.game st)) eqn:Hover;
    [intros [= <- <-]; split; [done|by left]|].
  cbn [negb orb].
  destruct (executeMove _ _) as [[shape r c|]|] eqn:Hmove; [| |done];
    cbn [mbind option_bind].
  - intros [= <- <-]. split; [done|by left].
  - destruct (Legacy.generateNewShapes rng st) as [st1|] eqn:Hgen; [|done].
    cbn [mbind option_bind]. intros [= <- <-].
    split; [by apply (Legacy_generateNewShapes_counter rng st)|].
    right. split; [done|]. split; [done|]. split; [done|].
    revert Hgen. unfold Legacy.generateNewShapes. rewrite Hover.
    destruct (newShape (rng 0%nat) _) as [s0|]; [|done].
    destruct (newShape (rng 1%nat) _) as [s1|]; [|done].
    destruct (newShape (rng 2%nat) _) as [s2|]; [|done].
    cbn [mbind option_bind]. destruct (hasValidMoves _) as [[]|]; [| |done];
      by intros [= <-].
Qed.

Lemma Legacy_aiResume_counter_batch k rng st st' again :
  Legacy.placedShapesCount st + Z.of_nat (length (shapes (Legacy.game st))) = 3 →
  (∀ shape r c, Legacy.suspended st !! k = Some (Legacy.AtTween shape r c) →
                container shape ∈ batchIds (Legacy.game st)) →
  Legacy.aiResume k rng st = Some (st', again) →
  Legacy.placedShapesCount st' + Z.of_nat (length (shapes (Legacy.game st'))) = 3 ∧
  (batchIds (Legacy.game st') `sublist_of` batchIds (Legacy.game st) ∨
   ((length (shapes (Legacy.game st)) ≤ 1)%nat ∧
    length (shapes (Legacy.game st')) = 3%nat)).
Proof.
  intros Hinv Hin. unfold Legacy.aiResume.
  destruct (Legacy.suspended st !! k) as [call|] eqn:Hcall;
    [|intros [= <- <-]; split; [done|by left]].
  destruct (negb (isAIEnabled (Legacy.game st)));
    [intros [= <- <-]; split; [done|by left]|].
  destruct call as [shape r c|shape r c]; [intros [= <- <-]; split; [done|by left]|].
  specialize (Hin shape r c eq_refl).
  destruct (Legacy.placeShape r c shape (Legacy.game st)) as [g1|] eqn:E1; [|done].
  cbn [mbind option_bind].
  destruct (Legacy.checkLines g1) as [g2|] eqn:E2; [|done].
  cbn [mbind option_bind Legacy.placedShapesCount].
  apply Legacy_placeShape_shapes in E1. apply Legacy_checkLines_shapes in E2.
  assert (shapes g2 = shapes (Legacy.game st)) as Hsame by congruence.
  assert (S (length (shapes (removeShape (container shape) g2)))
          = length (shapes (Legacy.game st))) as Hlen.
  { rewrite <- Hsame. apply removeShape_length. unfold batchIds in Hin.
    by rewrite Hsame. }
  assert (Hsub : (container <$> shapes (removeShape (container shape) g2))
                   `sublist_of` batchIds (Legacy.game st)).
  { unfold batchIds. rewrite <- Hsame. apply fmap_sublist, removeShape_sublist. }
  destruct (3 <=? Legacy.placedShapesCount st + 1) eqn:Hcount.
  - destruct (Legacy.generateNewShapes _ _) as [st4|] eqn:Hgen; [|done].
    cbn [mbind option_bind]. intros [= <- <-]. split.
    + apply (Legacy_generateNewShapes_counter _ _ _ Hgen). simpl. lia.
    + apply Legacy_generateNewShapes_cases in Hgen as [->|Hthree]; [by left|].
      right. split; [|done]. apply Z.leb_le in Hcount. lia.
  - cbn [mbind option_bind]. intros [= <- <-]. split; [simpl; lia|by left].
Qed.

(** C5: in the current revision [generateNewShapes] leaves the game as it
    is while the batch holds a shape; when it does change the batch, the
    batch was empty and the new one has exactly three shapes; and no handler
    brings shapes into the batch by another way: after any event the batch
    is what it was, up to shapes taken out of it, or it is a new batch of
    three and the batch before the event held at most the one shape the
    event placed.  In the earlier revision a placement (a drop by the
    player, a move of the AI for a shape that is still in the batch) brings
    a new batch only when it placed the last shape, as long as the counter
    of placed shapes is in step with the batch, and it leaves the counter in
    step; its AI, when it finds no move, drops the shapes that are left and
    takes three new ones, the counter going back to 0. *)
Theorem batch_generated_only_when_empty rng g g' :
  generateNewShapes rng g = Some g' →
  (shapes g ≠ [] → g' = g) ∧
  (shapes g' ≠ shapes g →
   shapes g = [] ∧ isGameOver g = false ∧ length (shapes g') = 3%nat) ∧
  (∀ e g2, step g e = Some g2 →
     batchIds g2 `sublist_of` batchIds g ∨
     ((length (shapes g) ≤ 1)%nat ∧
      batchIds g2 =
        [nextContainer g; S (nextContainer g); S (S (nextContainer g))])) ∧
  (∀ n l,
     n + Z.of_nat (length (shapes g)) = 3 →
     (∀ gridPos st',
        Legacy.onDragEnd gridPos rng (Legacy.mkState g n l) = Some st' →
        Legacy.placedShapesCount st'
          + Z.of_nat (length (shapes (Legacy.game st'))) = 3 ∧
        (batchIds (Legacy.game st') `sublist_of` batchIds g ∨
         ((length (shapes g) ≤ 1)%nat ∧
          length (shapes (Legacy.game st')) = 3%nat))) ∧
     (∀ k st' again,
        (∀ shape r c, l !! k = Some (Legacy.AtTween shape r c) →
                      container shape ∈ batchIds g) →
        Legacy.aiResume k rng (Legacy.mkState g n l) = Some (st', again) →
        Legacy.placedShapesCount st'
          + Z.of_nat (length (shapes (Legacy.game st'))) = 3 ∧
        (batchIds (Legacy.game st') `sublist_of` batchIds g ∨
         ((length (shapes g) ≤ 1)%nat ∧
          length (shapes (Legacy.game st')) = 3%nat))) ∧
     (∀ st' again,
        Legacy.runAI rng (Legacy.mkState g n l) = Some (st', again) →
        Legacy.placedShapesCount st'
          + Z.of_nat (length (shapes (Legacy.game st'))) = 3 ∧
        (Legacy.game st' = g ∨
         (executeMove (gameBoard g) (shapes g) = Some AiNoMove ∧
          isAIEnabled g = true ∧ isGameOver g = false ∧
          length (shapes (Legacy.game st')) = 3%nat ∧
          Legacy.placedShapesCount st' = 0)))).
Proof.
  intros Hgen. split; [|split; [|split]].
  - intros Hne. by apply generateNewShapes_cases in Hgen as [->|(Hnil & _)].
  - intros Hchanged.
    apply generateNewShapes_cases in Hgen as [->|(Hnil & Hover & Hids)]; [done|].
    split; [done|]. split; [done|].
    apply (f_equal length) in Hids. by rewrite length_fmap in Hids.
  - intros e g2. apply step_batch.
  - intros n l Hinv. split; [|split].
    + intros gridPos st' Hdrop. split.
      * by apply (Legacy_onDragEnd_counter gridPos rng (Legacy.mkState g n l)).
      * by apply (Legacy_onDragEnd_batch gridPos rng (Legacy.mkState g n l)).
    + intros k st' again Hin Hres.
      by apply (Legacy_aiResume_counter_batch k rng (Legacy.mkState g n l) st' again).
    + intros st' again Hrun.
      destruct (Legacy_runAI_counter_batch rng (Legacy.mkState g n l) st' again Hrun)
        as [Hcount Hcases].
      split; [by apply Hcount|done].
Qed.

Lemma batch_generated_only_when_empty_witness :
  ∃ g', generateNewShapes noDraw emptyGame = Some g' ∧
        (shapes emptyGame ≠ [] → g' = emptyGame) ∧
        (shapes g' ≠ shapes emptyGame →
         shapes emptyGame = [] ∧ isGameOver emptyGame = false ∧
         length (shapes g') = 3%nat) ∧
        (∀ e g2, step emptyGame e = Some g2 →
           batchIds g2 `sublist_of` batchIds emptyGame ∨
           ((length (shapes emptyGame) ≤ 1)%nat ∧
            batchIds g2 =
              [nextContainer emptyGame; S (nextContainer emptyGame);
               S (S (nextContainer emptyGame))])) ∧
        (∀ n l,
           n + Z.of_nat (length (shapes emptyGame)) = 3 →
           (∀ gridPos st',
              Legacy.onDragEnd gridPos noDraw (Legacy.mkState emptyGame n l)
                = Some st' →
              Legacy.placedShapesCount st'
                + Z.of_nat (length (shapes (Legacy.game st'))) = 3 ∧
              (batchIds (Legacy.game st') `sublist_of` batchIds emptyGame ∨
               ((length (shapes emptyGame) ≤ 1)%nat ∧
                length (shapes (Legacy.game st')) = 3%nat))) ∧
           (∀ k st' again,
              (∀ shape r c, l !! k = Some (Legacy.AtTween shape r c) →
                            container shape ∈ batchIds emptyGame) →
              Legacy.aiResume k noDraw (Legacy.mkState emptyGame n l)
                = Some (st', again) →
              Legacy.placedShapesCount st'
                + Z.of_nat (length (shapes (Legacy.game st'))) = 3 ∧
              (batchIds (Legacy.game st') `sublist_of` batchIds emptyGame ∨
               ((length (shapes emptyGame) ≤ 1)%nat ∧
                length (shapes (Legacy.game st')) = 3%nat))) ∧
           (∀ st' again,
              Legacy.runAI noDraw (Legacy.mkState emptyGame n l)
                = Some (st', again) →
              Legacy.placedShapesCount st'
                + Z.of_nat (length (shapes (Legacy.game st'))) = 3 ∧
              (Legacy.game st' = emptyGame ∨
               (executeMove (gameBoard emptyGame) (shapes emptyGame)
                  = Some AiNoMove ∧
                isAIEnabled emptyGame = true ∧ isGameOver emptyGame = false ∧
                length (shapes (Legacy.game st')) = 3%nat ∧
                Legacy.placedShapesCount st' = 0)))).
Proof.
  eexists. split; [vm_compute; reflexivity|].
  apply (batch_generated_only_when_empty noDraw). vm_compute. reflexivity.
Defined.

(** The earlier revision does generate a batch while shapes are left: its
    AI finds no move for the two dominoes of [legacyStuck] and replaces them
    by three new shapes, though none of the two has been placed (the board
    is as it was) and the batch is not empty. *)
Lemma regeneration_with_shapes_left :
  ∃ st', Legacy.runAI noDraw legacyStuck = Some (st', true) ∧
         batchIds (Legacy.game legacyStuck) = [1%nat; 2%nat] ∧
         shapes (Legacy.game legacyStuck) ≠ [] ∧
         gameBoard (Legacy.game st') = gameBoard (Legacy.game legacyStuck) ∧
         batchIds (Legacy.game st') = [3%nat; 4%nat; 5%nat].
Proof. eexists. split; [vm_compute; reflexivity|]. by repeat split. Qed.

(** With a shape still in the batch nothing is generated, also when the AI
    asks for a batch because it found no move. *)
Example generateNewShapes_keeps_stuck_batch :
  generateNewShapes noDraw (removeShape 0 stuckGame) = Some (removeShape 0 stuckGame).
Proof. vm_compute. reflexivity. Qed.

(** ** Game over *)

Lemma clearFullLines_frame rows cols g :
  gameBoard (clearFullLines rows cols g) = gameBoard g ∧
  shapes (clearFullLines rows cols g) = shapes g ∧
  isGameOver (clearFullLines rows cols g) = isGameOver g ∧
  currentState (clearFullLines rows cols g) = currentState g.
Proof. unfold clearFullLines. by destruct (_ || _). Qed.

(** With one shape in the batch and no move for it, [checkLines] ends the
    game. *)
Lemma checkLines_last_shape_stuck g :
  gameWf g → length (shapes g) = 1%nat → hasValidMoves g = Some false →
  ∃ g', checkLines g = Some g' ∧ isGameOver g' = true ∧ currentState g' = GAME_OVER.
Proof.
  intros [Hg Hs] Hone Hstuck. unfold checkLines.
  destruct (rowsToRemove_total _ Hg) as [rows ->].
  destruct (colsToRemove_total _ Hg) as [cols ->]. cbn [mbind option_bind].
  destruct (clearFullLines_frame rows cols g) as (Hb & Hsh & _).
  rewrite Hsh, Hone. simpl. unfold hasValidMoves in *. rewrite Hb, Hsh, Hstuck.
  simpl. by eexists.
Qed.

(** With any other number of shapes it leaves the phase alone. *)
Lemma checkLines_other_batch_sizes g g' :
  length (shapes g) ≠ 1%nat → checkLines g = Some g' →
  isGameOver g' = isGameOver g ∧ currentState g' = currentState g.
Proof.
  intros Hne. unfold checkLines.
  destruct (rowsToRemove _) as [rows|]; [|done].
  destruct (colsToRemove _) as [cols|]; [|done]. cbn [mbind option_bind].
  destruct (clearFullLines_frame rows cols g) as (Hb & Hsh & Hover & Hphase).
  rewrite Hsh. destruct (Z.eqb_spec (Z.of_nat (length (shapes g))) 1); [lia|].
  by intros [= <-].
Qed.

Lemma checkGameOver_stuck g :
  hasValidMoves g = Some false → checkGameOver g = Some (gameOver g).
Proof. intros H. unfold checkGameOver. by rewrite H. Qed.

(** ** After the game is over *)

Lemma noNewBlocks_refl board : noNewBlocks board board.
Proof. by intros r c. Qed.

Lemma noNewBlocks_trans b1 b2 b3 :
  noNewBlocks b1 b2 → noNewBlocks b2 b3 → noNewBlocks b1 b3.
Proof. intros H12 H23 r c H. by apply H12, H23. Qed.

Lemma noNewBlocks_clearBlock ref board : noNewBlocks board (clearBlock ref board).
Proof.
  intros r c (blk & Hblk & Hfilled).
  destruct (decide ((r, c) = (row ref, col ref))) as [[= -> ->]|Hne].
  - unfold clearBlock in Hblk.
    destruct (getBlock board (row ref) (col ref)) as [old|] eqn:E.
    + rewrite (setBlock_lookup_eq _ _ _ old) in Hblk by done.
      injection Hblk as <-. done.
    + congruence.
  - rewrite clearBlock_other in Hblk by done. by exists blk.
Qed.

Lemma noNewBlocks_createEmptyBoard board : noNewBlocks board createEmptyBoard.
Proof.
  intros r c (blk & Hblk & Hfilled). exfalso.
  apply getBlock_Some in Hblk as (_ & _ & line & Hl & Hb).
  unfold createEmptyBoard in Hl. apply list_lookup_fmap_Some in Hl as (i & -> & _).
  apply list_lookup_fmap_Some in Hb as (j & -> & _). done.
Qed.

Lemma runAI_game_over g : isGameOver g = true → runAI g = Some g.
Proof. intros H. unfold runAI. rewrite H. by rewrite orb_true_r. Qed.

Lemma generateNewShapes_game_over rng g :
  isGameOver g = true → generateNewShapes rng g = Some g.
Proof. intros H. unfold generateNewShapes. by rewrite H. Qed.

Lemma onDragEnd_quiet gridPos rng g :
  Forall (λ s, dragging s = false) (shapes g) → onDragEnd gridPos rng g = Some g.
Proof.
  intros H. unfold onDragEnd.
  destruct (list_find _ _) as [[i s]|] eqn:E; [|done].
  apply list_find_Some in E as (Hi & Hd & _).
  rewrite Forall_lookup in H. specialize (H _ _ Hi). congruence.
Qed.

(** One handler, run when the game is over and nothing is on its way. *)
Lemma step_after_game_over g e g' :
  isGameOver g = true → quiet g → e ≠ EvHome → step g e = Some g' →
  isGameOver g' = true ∧ quiet g' ∧ shapes g' = shapes g ∧ score g' = score g ∧
  noNewBlocks (gameBoard g) (gameBoard g').
Proof.
  intros Hover [Hdrag Hcalls] Hne.
  destruct e; simpl; try done.
  - unfold startGame. rewrite generateNewShapes_game_over by done.
    intros [= <-]. simpl. repeat split; try done.
    apply noNewBlocks_createEmptyBoard.
  - intros [= <-]. simpl. repeat split; try done. apply noNewBlocks_refl.
  - unfold onContinue. simpl. destruct (previousAIState g).
    + rewrite runAI_game_over by done. intros [= <-]. simpl.
      repeat split; try done. apply noNewBlocks_refl.
    + intros [= <-]. simpl. repeat split; try done. apply noNewBlocks_refl.
  - unfold onDragStart. destruct (list_find _ _) as [[i s]|]; rewrite ?Hover;
      intros [= <-]; repeat split; try done; apply noNewBlocks_refl.
  - rewrite onDragEnd_quiet by done. intros [= <-].
    repeat split; try done. apply noNewBlocks_refl.
  - unfold toggleAI. simpl. destruct (negb (isAIEnabled g)).
    + rewrite runAI_game_over by done. intros [= <-]. simpl.
      repeat split; try done. apply noNewBlocks_refl.
    + intros [= <-]. simpl. repeat split; try done. apply noNewBlocks_refl.
  - unfold aiResume. rewrite Hcalls, lookup_nil. intros [= <-].
    repeat split; try done. apply noNewBlocks_refl.
  - unfold timelineStep. destruct (timelines g !! k) as [[|ref rest]|].
    + unfold checkGameOver. destruct (hasValidMoves _) as [[]|]; [| |done];
        intros [= <-]; simpl; repeat split; try done; apply noNewBlocks_refl.
    + intros [= <-]. simpl. repeat split; try done. apply noNewBlocks_clearBlock.
    + intros [= <-]. repeat split; try done. apply noNewBlocks_refl.
Qed.

Lemma run_after_game_over events g g' :
  isGameOver g = true → quiet g → EvHome ∉ events → run events g = Some g' →
  isGameOver g' = true ∧ quiet g' ∧ shapes g' = shapes g ∧ score g' = score g ∧
  noNewBlocks (gameBoard g) (gameBoard g').
Proof.
  unfold run. revert g. induction events as [|e rest IH]; intros g Hover Hq Hno; simpl.
  - intros [= <-]. repeat split; try done; try apply Hq. apply noNewBlocks_refl.
  - destruct (step g e) as [g1|] eqn:E; [|done]. simpl. intros Hrun.
    apply not_elem_of_cons in Hno as [Hne Hno].
    destruct (step_after_game_over g e g1 Hover Hq) as (Ho1 & Hq1 & Hs1 & Hsc1 & Hb1);
      [congruence|done|].
    destruct (IH g1 Ho1 Hq1 Hno Hrun) as (Ho2 & Hq2 & Hs2 & Hsc2 & Hb2).
    split; [done|]. split; [done|]. split; [congruence|]. split; [congruence|].
    by eapply noNewBlocks_trans.
Qed.
(** What the game-over checks give.  When [checkLines] runs with exactly
    one shape in the batch and [hasValidMoves] is false, the phase becomes
    GAME_OVER; with another batch size [checkLines] skips the test (see
    [stuckGame_drop] below).  [checkGameOver], at the end of
    a clear animation, tests any batch.  Once the game is over and nothing
    is on its way to the board (no shape being dragged, no AI call
    suspended), no event other than the reset places a block, changes the
    score or the batch, or takes the game out of game over; [resetGame]
    does. *)
Lemma game_over_on_last_stuck_shape g :
  gameWf g → hasValidMoves g = Some false →
  (length (shapes g) = 1%nat →
   ∃ g', checkLines g = Some g' ∧ isGameOver g' = true ∧
         currentState g' = GAME_OVER) ∧
  (length (shapes g) ≠ 1%nat →
   ∃ g', checkLines g = Some g' ∧ isGameOver g' = isGameOver g ∧
         currentState g' = currentState g) ∧
  checkGameOver g = Some (gameOver g) ∧
  (∀ events g', quiet g → EvHome ∉ events →
                run events (gameOver g) = Some g' →
                isGameOver g' = true ∧ shapes g' = shapes g ∧
                score g' = score g ∧
                noNewBlocks (gameBoard g) (gameBoard g')) ∧
  isGameOver (resetGame g) = false.
Proof.
  intros Hwf Hstuck. split; [|split; [|split; [|split]]].
  - intros Hone. by apply checkLines_last_shape_stuck.
  - intros Hne. destruct (checkLines_total g Hwf) as [g' Hg'].
    exists g'. split; [done|]. by eapply checkLines_other_batch_sizes.
  - by apply checkGameOver_stuck.
  - intros events g' Hq Hno Hrun.
    destruct (run_after_game_over events (gameOver g) g') as (H1 & _ & H2 & H3 & H4);
      done.
  - done.
Qed.

Lemma gameWf_lastShapeGame : gameWf lastShapeGame.
Proof.
  split; [apply gridWf_boardOf|].
  apply Forall_cons. split; [apply shapeWf_domino|apply Forall_nil_2].
Qed.

Example game_over_on_last_stuck_shape_lastShapeGame :
  (length (shapes lastShapeGame) = 1%nat →
   ∃ g', checkLines lastShapeGame = Some g' ∧ isGameOver g' = true ∧
         currentState g' = GAME_OVER) ∧
  (length (shapes lastShapeGame) ≠ 1%nat →
   ∃ g', checkLines lastShapeGame = Some g' ∧
         isGameOver g' = isGameOver lastShapeGame ∧
         currentState g' = currentState lastShapeGame) ∧
  checkGameOver lastShapeGame = Some (gameOver lastShapeGame) ∧
  (∀ events g', quiet lastShapeGame → EvHome ∉ events →
                run events (gameOver lastShapeGame) = Some g' →
                isGameOver g' = true ∧ shapes g' = shapes lastShapeGame ∧
                score g' = score lastShapeGame ∧
                noNewBlocks (gameBoard lastShapeGame) (gameBoard g')) ∧
  isGameOver (resetGame lastShapeGame) = false.
Proof.
  apply game_over_on_last_stuck_shape.
  - apply gameWf_lastShapeGame.
  - vm_compute. reflexivity.
Qed.

(** The position before the last drop of [stuckPlay]: every other cell and
    the last corner taken, a block and two dominoes in the batch, the block
    the only shape that still fits. *)
Example stuckPlay_position :
  run stuckPlay newGame =
  Some (mkGame (boardOf (fun r c => Z.odd (r + c) || ((r =? 7) && (c =? 7))))
               0 false
               [mkShape [[true]] 0xff0000 33 false 1 1; domino 34; domino 35]
               false false PLAYING [] [] 36).
Proof. vm_compute. reflexivity. Qed.

(** C4 fails at this input: after the play [stuckPlay] from a new game the
    block of the batch is dropped at (0, 0), where it fits; the two dominoes
    left in the batch fit nowhere ([hasValidMoves] is false for a batch that
    is not empty), and the game is not over: both line checks of the drop,
    and any later one, leave the phase at PLAYING and [isGameOver] unset,
    because [checkLines] tests the moves only for a batch of one; no clear
    animation is running whose end would test them. *)
Theorem stuck_batch_is_not_game_over :
  ∃ g g',
    run stuckPlay newGame = Some g ∧
    hasValidMoves g = Some true ∧
    run (dragTo 33 (mkPosition 0 0) noDraw) g = Some g' ∧
    filledAt (gameBoard g') 0 0 ∧
    batchIds g' = [34%nat; 35%nat] ∧
    hasValidMoves g' = Some false ∧
    checkLines g' = Some g' ∧
    timelines g' = [] ∧
    isGameOver g' = false ∧ currentState g' = PLAYING.
Proof.
  eexists. eexists. split; [vm_compute; reflexivity|].
  split; [vm_compute; reflexivity|]. split; [vm_compute; reflexivity|].
  split; [eexists; split; vm_compute; reflexivity|].
  repeat split; vm_compute; reflexivity.
Qed.

(** The same on [stuckGame], where the block is already in hand. *)
Example stuckGame_drop :
  ∃ g', onDragEnd (mkPosition 0 0) noDraw stuckGame = Some g' ∧
        length (shapes g') = 2%nat ∧
        hasValidMoves g' = Some false ∧
        checkLines g' = Some g' ∧
        isGameOver g' = false ∧ currentState g' = PLAYING.
Proof.
  eexists. split; [vm_compute; reflexivity|].
  repeat split; vm_compute; reflexivity.
Qed.

(** The AI, switched on in that state, finds no move, asks for a batch,
    gets none since the batch is not empty, and tries again: the resumed
    call leaves the very state it started from. *)
Example stuck_batch_ai_tries_again :
  ∃ g g1, run (stuckPlay ++ dragTo 33 (mkPosition 0 0) noDraw) newGame = Some g ∧
          toggleAI g = Some g1 ∧
          aiCalls g1 = [AiNoMove] ∧
          aiResume 0 noDraw g1 = Some g1 ∧
          isGameOver g1 = false.
Proof.
  eexists. eexists. split; [vm_compute; reflexivity|].
  split; [vm_compute; reflexivity|]. repeat split; vm_compute; reflexivity.
Qed.

(** ** Remarks on the callers of the line check *)

(** A drop runs the line check twice on the same board, in [placeShape] and
    again in [onDragEnd], before any block of the first animation is
    cleared: the row completed here is counted by both, 100 each. *)
Example drop_checks_lines_twice :
  (score <$> placeShape 3 7 (unitShape 0) almostRowGame) = Some 100 ∧
  (score <$> onDragEnd (mkPosition 3 7) noDraw almostRowGame) = Some 200 ∧
  (length ∘ timelines <$> onDragEnd (mkPosition 3 7) noDraw almostRowGame)
    = Some 2%nat.
Proof. repeat split; vm_compute; reflexivity. Qed.
(** ** Shapes of the catalog and their rotations *)

Lemma rotateTimes_rect n m a b :
  rect m a b → (0 < a)%nat → (0 < b)%nat →
  ∃ m', rotateTimes n m = Some m' ∧ (rect m' a b ∨ rect m' b a).
Proof.
  revert m a b. induction n as [|n IH]; intros m a b Hrect Ha Hb.
  - exists m. split; [done|]. by left.
  - cbn [rotateTimes].
    destruct (rotateShape_rect m a b Hrect Ha) as (m1 & -> & Hrect1 & _).
    cbn [mbind option_bind].
    destruct (IH m1 b a Hrect1 Hb Ha) as (m' & -> & Hcases).
    exists m'. split; [done|]. destruct Hcases; [by right|by left].
Qed.

Lemma SHAPES_rect m :
  m ∈ SHAPES → ∃ a b, rect m a b ∧ (0 < a ≤ 4)%nat ∧ (0 < b ≤ 4)%nat.
Proof.
  unfold SHAPES. rewrite !elem_of_cons, elem_of_nil.
  intros H.
  exists (length m), (length (default [] (head m))).
  repeat (destruct H as [->|H]); [..|done];
    (split; [split; [reflexivity|]|simpl; lia]);
    repeat (apply Forall_cons; split; [reflexivity|]); apply Forall_nil_2.
Qed.

Lemma rect_shapeWf m a b shade cid first :
  rect m a b → (0 < a)%nat → head m = Some first →
  shapeWf (mkShape m shade cid false (Z.of_nat (length first)) (Z.of_nat (length m))).
Proof.
  intros [Hlen Hall] Ha Hhead. split; [|split].
  - simpl. intros ->. simpl in Hlen. lia.
  - done.
  - simpl. destruct m as [|line rest]; [done|]. injection Hhead as ->.
    apply Forall_cons_1 in Hall as Hfirst. destruct Hfirst as [Hfirst _].
    eapply Forall_impl; [exact Hall|]. intros line Hline. simpl in Hline. lia.
Qed.

Lemma newShape_wf d cid :
  drawOk d →
  ∃ s, newShape d cid = Some s ∧ shapeWf s ∧ small s ∧
       dragging s = false ∧ shapeColor s ∈ BLOCK_COLORS.
Proof.
  intros [Hs Hc]. unfold newShape.
  destruct (lookup_lt_is_Some_2 _ _ Hs) as [base Hbase].
  destruct (lookup_lt_is_Some_2 _ _ Hc) as [shade Hshade].
  rewrite Hbase, Hshade. cbn [mbind option_bind].
  destruct (SHAPES_rect base) as (a & b & Hrect & Ha & Hb).
  { by eapply list_elem_of_lookup_2. }
  destruct (rotateTimes_rect (rotations d) base a b Hrect) as (m & -> & Hm);
    [lia|lia|].
  cbn [mbind option_bind].
  assert (∃ a' b', rect m a' b' ∧ (0 < a' ≤ 4)%nat ∧ (0 < b' ≤ 4)%nat)
    as (a' & b' & Hrect' & Ha' & Hb').
  { destruct Hm; [by exists a, b|by exists b, a]. }
  destruct m as [|first rest] eqn:Em.
  { destruct Hrect' as [Hlen _]. simpl in Hlen. lia. }
  cbn [head mbind option_bind]. eexists. split; [done|]. split.
  - apply (rect_shapeWf _ a' b'); [done|lia|done].
  - split; [|split; [done|by eapply list_elem_of_lookup_2]].
    destruct Hrect' as [Hlen Hall]. apply Forall_cons_1 in Hall as [Hfirst _].
    unfold small. cbn [height width]. rewrite Hlen, Hfirst. lia.
Qed.
(** ** Writing a shape over cells that may hold blocks *)

Lemma placeCells_inbounds shade board r c cells :
  gridWf board →
  (∀ j, cells !! j = Some true → is_Some (getBlock board r (c + Z.of_nat j))) →
  ∃ board', placeCells shade board r c cells = Some board' ∧ gridWf board' ∧
    (∀ j, cells !! j = Some true →
          ∃ old, getBlock board r (c + Z.of_nat j) = Some old ∧
                 getBlock board' r (c + Z.of_nat j)
                 = Some (mkBlock shade (position old) false)) ∧
    (∀ r' c', (∀ j, cells !! j = Some true → (r', c') ≠ (r, c + Z.of_nat j)) →
              getBlock board' r' c' = getBlock board r' c').
Proof.
  revert board c. induction cells as [|cell rest IH]; intros board c Hwf Hin.
  - exists board. simpl. split; [done|]. split; [done|]. split; [|done].
    intros j Hj. by rewrite lookup_nil in Hj.
  - cbn [placeCells]. destruct cell.
    + destruct (Hin 0%nat eq_refl) as [blk Hblk]. rewrite Z.add_0_r in Hblk.
      destruct (fillBlock_spec board r c shade blk Hwf Hblk)
        as (b1 & -> & Hwf1 & Hget1 & Hother1 & _).
      cbn [mbind option_bind].
      destruct (IH b1 (c + 1)) as (b2 & -> & Hwf2 & Hset2 & Hother2); [done| |].
      { intros j Hj. rewrite Hother1 by (intros [=]; lia).
        replace (c + 1 + Z.of_nat j) with (c + Z.of_nat (S j)) by lia.
        by apply Hin. }
      exists b2. split; [done|]. split; [done|]. split.
      * intros [|j] Hj.
        -- exists blk. rewrite Z.add_0_r. split; [done|].
           by rewrite Hother2 by (intros j' _ [=]; lia).
        -- destruct (Hset2 j Hj) as (old & Hold & Hnew).
           rewrite Hother1 in Hold by (intros [=]; lia).
           exists old. replace (c + Z.of_nat (S j)) with (c + 1 + Z.of_nat j) by lia.
           done.
      * intros r' c' Hne. rewrite Hother2, Hother1.
        -- done.
        -- specialize (Hne 0%nat eq_refl). by rewrite Z.add_0_r in Hne.
        -- intros j Hj. specialize (Hne (S j) Hj).
           by replace (c + 1 + Z.of_nat j) with (c + Z.of_nat (S j)) by lia.
    + destruct (IH board (c + 1)) as (b2 & -> & Hwf2 & Hset2 & Hother2); [done| |].
      { intros j Hj.
        replace (c + 1 + Z.of_nat j) with (c + Z.of_nat (S j)) by lia.
        by apply Hin. }
      exists b2. split; [done|]. split; [done|]. split.
      * intros [|j] Hj; [done|].
        destruct (Hset2 j Hj) as (old & Hold & Hnew).
        exists old. replace (c + Z.of_nat (S j)) with (c + 1 + Z.of_nat j) by lia.
        done.
      * intros r' c' Hne. apply Hother2. intros j Hj. specialize (Hne (S j) Hj).
        by replace (c + 1 + Z.of_nat j) with (c + Z.of_nat (S j)) by lia.
Qed.

Lemma placeRows_inbounds shade board r c rows :
  gridWf board →
  (∀ i line j, rows !! i = Some line → line !! j = Some true →
        is_Some (getBlock board (r + Z.of_nat i) (c + Z.of_nat j))) →
  ∃ board', placeRows shade board r c rows = Some board' ∧ gridWf board' ∧
    (∀ i line j, rows !! i = Some line → line !! j = Some true →
          ∃ old, getBlock board (r + Z.of_nat i) (c + Z.of_nat j) = Some old ∧
                 getBlock board' (r + Z.of_nat i) (c + Z.of_nat j)
                 = Some (mkBlock shade (position old) false)) ∧
    (∀ r' c', (∀ i line j, rows !! i = Some line → line !! j = Some true →
                           (r', c') ≠ (r + Z.of_nat i, c + Z.of_nat j)) →
              getBlock board' r' c' = getBlock board r' c').
Proof.
  revert board r. induction rows as [|cells rest IH]; intros board r Hwf Hin.
  - exists board. simpl. split; [done|]. split; [done|]. split; [|done].
    intros i line j Hi. by rewrite lookup_nil in Hi.
  - cbn [placeRows].
    destruct (placeCells_inbounds shade board r c cells Hwf)
      as (b1 & -> & Hwf1 & Hset1 & Hother1).
    { intros j Hj. specialize (Hin 0%nat cells j eq_refl Hj).
      by rewrite Z.add_0_r in Hin. }
    cbn [mbind option_bind].
    destruct (IH b1 (r + 1)) as (b2 & -> & Hwf2 & Hset2 & Hother2); [done| |].
    { intros i line j Hi Hj. rewrite Hother1 by (intros j' _ [=]; lia).
      replace (r + 1 + Z.of_nat i) with (r + Z.of_nat (S i)) by lia.
      by eapply Hin. }
    exists b2. split; [done|]. split; [done|]. split.
    + intros [|i] line j Hi Hj.
      * simpl in Hi. injection Hi as <-.
        destruct (Hset1 j Hj) as (old & Hold & Hnew). exists old.
        rewrite Z.add_0_r. split; [done|].
        by rewrite Hother2 by (intros i' l' j' _ _ [=]; lia).
      * destruct (Hset2 i line j Hi Hj) as (old & Hold & Hnew).
        rewrite Hother1 in Hold by (intros j' _ [=]; lia).
        exists old. replace (r + Z.of_nat (S i)) with (r + 1 + Z.of_nat i) by lia.
        done.
    + intros r' c' Hne. rewrite Hother2, Hother1.
      * done.
      * intros j Hj. specialize (Hne 0%nat cells j eq_refl Hj).
        by rewrite Z.add_0_r in Hne.
      * intros i line j Hi Hj. specialize (Hne (S i) line j Hi Hj).
        by replace (r + 1 + Z.of_nat i) with (r + Z.of_nat (S i)) by lia.
Qed.

Lemma covered_inGrid shape r c i j :
  shapeWf shape → ¬ outOfBounds shape r c → shapeCell shape i j →
  inGrid (r + Z.of_nat i) (c + Z.of_nat j).
Proof.
  intros Hs Hin Hcell. destruct (shapeWf_cell_bounds shape i j Hs Hcell).
  unfold outOfBounds in Hin. unfold inGrid. lia.
Qed.

(** [placeShape] on a position within the board, free or not. *)
Lemma placeShape_inbounds r c shape g :
  gameWf g → shapeWf shape → ¬ outOfBounds shape r c →
  ∃ board' g',
    placeRows (shapeColor shape) (gameBoard g) r c (blocks shape) = Some board' ∧
    placeShape r c shape g = Some g' ∧ checkLines (withBoard board' g) = Some g' ∧
    gameBoard g' = board' ∧ gridWf board'.
Proof.
  intros [Hg Hs] Hshape Hin.
  destruct (placeRows_inbounds (shapeColor shape) (gameBoard g) r c (blocks shape) Hg)
    as (board' & Hplace & Hwf' & _).
  { intros i line j Hi Hj. apply getBlock_inGrid; [done|].
    apply (covered_inGrid shape); [done|done|by exists line]. }
  destruct (checkLines_total (withBoard board' g)) as [g' Hg']; [by split|].
  exists board', g'. unfold placeShape. rewrite Hplace. cbn [mbind option_bind].
  split; [done|]. split; [done|]. split; [done|].
  by apply checkLines_frame in Hg' as (-> & _).
Qed.
(** ** No handler throws on a started game *)

Lemma playable_same g g' :
  gameBoard g' = gameBoard g → shapes g' = shapes g → aiCalls g' = aiCalls g →
  playable g → playable g'.
Proof. unfold playable, gameWf. by intros -> -> ->. Qed.

Lemma checkLines_playable g :
  playable g → ∃ g', checkLines g = Some g' ∧ playable g'.
Proof.
  intros Hp. destruct (checkLines_total g) as [g' Hg']; [apply Hp|].
  exists g'. split; [done|].
  apply checkLines_frame in Hg' as (Hb & Hs & _ & _ & Ha & _).
  by apply (playable_same g).
Qed.

Lemma checkGameOver_playable g :
  playable g → ∃ g', checkGameOver g = Some g' ∧ playable g'.
Proof.
  intros Hp. unfold checkGameOver, hasValidMoves.
  destruct (hasValidMovesOn_total (gameBoard g) (shapes g)) as [valid ->];
    [apply Hp|apply Hp|].
  cbn [mbind option_bind]. eexists. split; [done|]. by destruct valid.
Qed.

Lemma generateNewShapes_frame rng g g' :
  generateNewShapes rng g = Some g' →
  gameBoard g' = gameBoard g ∧ score g' = score g ∧
  timelines g' = timelines g ∧ aiCalls g' = aiCalls g.
Proof.
  unfold generateNewShapes. destruct (isGameOver g); [by intros [= <-]|].
  case_match; [by intros [= <-]|].
  destruct (newShape (rng 0%nat) _) as [s0|]; [|done].
  destruct (newShape (rng 1%nat) _) as [s1|]; [|done].
  destruct (newShape (rng 2%nat) _) as [s2|]; [|done].
  cbn [mbind option_bind]. destruct (hasValidMoves _) as [[]|]; [| |done];
    by intros [= <-].
Qed.

Lemma generateNewShapes_gameWf rng g :
  gameWf g → rngOk rng →
  ∃ g', generateNewShapes rng g = Some g' ∧ gameWf g'.
Proof.
  intros Hp Hrng. unfold generateNewShapes.
  destruct (isGameOver g); [by exists g|].
  destruct (0 <? Z.of_nat (length (shapes g))); [by exists g|].
  destruct (newShape_wf (rng 0%nat) (nextContainer g)) as (s0 & -> & Hs0 & _);
    [done|].
  destruct (newShape_wf (rng 1%nat) (nextContainer g + 1)) as (s1 & -> & Hs1 & _);
    [done|].
  destruct (newShape_wf (rng 2%nat) (nextContainer g + 2)) as (s2 & -> & Hs2 & _);
    [done|].
  cbn [mbind option_bind].
  set (g1 := withNextContainer _ _).
  assert (gameWf g1) as Hp1.
  { destruct Hp as [Hg Hs]. split; [done|].
    unfold g1. simpl. apply Forall_app. split; [done|].
    by repeat (apply Forall_cons; split; [done|]). }
  unfold hasValidMoves.
  destruct (hasValidMovesOn_total (gameBoard g1) (shapes g1)) as [valid ->];
    [apply Hp1|apply Hp1|].
  cbn [mbind option_bind]. eexists. split; [done|]. by destruct valid.
Qed.

Lemma generateNewShapes_playable rng g :
  playable g → rngOk rng →
  ∃ g', generateNewShapes rng g = Some g' ∧ playable g'.
Proof.
  intros [Hwf Hc] Hrng.
  destruct (generateNewShapes_gameWf rng g Hwf Hrng) as (g' & Hgen & Hwf').
  exists g'. split; [done|]. split; [done|].
  by apply generateNewShapes_frame in Hgen as (_ & _ & _ & ->).
Qed.

Lemma removeShape_playable cid g : playable g → playable (removeShape cid g).
Proof.
  intros [[Hg Hs] Hc]. unfold removeShape.
  destruct (list_find _ _) as [[i s]|]; [|done].
  split; [split|]; [done| |done]. simpl.
  by apply Forall_delete.
Qed.

Lemma canPlace_inbounds board r c shape :
  shapeWf shape → canPlaceShape board r c shape = Some true →
  ¬ outOfBounds shape r c.
Proof.
  intros Hs Hcan Hout. rewrite canPlaceShape_unfold in Hcan by done.
  by rewrite bool_decide_eq_true_2 in Hcan.
Qed.

Lemma runAI_playable g : playable g → ∃ g', runAI g = Some g' ∧ playable g'.
Proof.
  intros Hp. unfold runAI. case_match; [by exists g|].
  destruct Hp as [[Hg Hs] Hc].
  destruct (executeMove_total (gameBoard g) (shapes g) Hg Hs) as [call Hcall].
  rewrite Hcall. cbn [mbind option_bind]. eexists. split; [done|].
  split; [by split|]. simpl. apply Forall_app. split; [done|].
  apply Forall_cons. split; [|done].
  apply executeMove_result in Hcall. destruct call as [shape r c|]; [|done].
  destruct Hcall as (i & s & Hi & _ & [Hcan _] & _).
  rewrite Forall_lookup in Hs. specialize (Hs _ _ Hi).
  split; [done|]. by eapply canPlace_inbounds.
Qed.

Lemma placeShape_playable r c shape g :
  playable g → shapeWf shape → ¬ outOfBounds shape r c →
  ∃ g', placeShape r c shape g = Some g' ∧ playable g'.
Proof.
  intros [Hwf Hc] Hs Hin.
  destruct (placeShape_inbounds r c shape g Hwf Hs Hin)
    as (board' & g' & _ & Hplace & Hcheck & Hb & Hgrid).
  exists g'. split; [done|].
  apply checkLines_frame in Hcheck as (_ & Hsh & _ & _ & Ha & _).
  split; [split|].
  - by rewrite Hb.
  - rewrite Hsh. apply Hwf.
  - by rewrite Ha.
Qed.

Lemma refill_playable rng g :
  playable g → rngOk rng →
  ∃ g', (if Z.of_nat (length (shapes g)) =? 0
         then generateNewShapes rng g else Some g) = Some g' ∧ playable g'.
Proof.
  intros Hp Hrng. case_match; [by apply generateNewShapes_playable|by exists g].
Qed.

Lemma setDragging_wf b s : shapeWf s → shapeWf (setDragging b s).
Proof. done. Qed.

Lemma onDragEnd_playable gridPos rng g :
  playable g → rngOk rng → ∃ g', onDragEnd gridPos rng g = Some g' ∧ playable g'.
Proof.
  intros Hp Hrng. unfold onDragEnd.
  destruct (list_find _ _) as [[i s]|] eqn:E; [|by exists g].
  apply list_find_Some in E as (Hi & _).
  set (dragged := setDragging false s).
  set (g0 := withShapes (<[i:=dragged]> (shapes g)) g).
  assert (shapeWf dragged) as Hd.
  { destruct Hp as [[_ Hs] _]. rewrite Forall_lookup in Hs.
    apply setDragging_wf. by apply (Hs i). }
  assert (playable g0) as Hp0.
  { destruct Hp as [[Hg Hs] Hc]. split; [split|]; [done| |done].
    unfold g0. simpl. by apply Forall_insert. }
  destruct (canPlaceShape_total (gameBoard g0) dragged (row gridPos) (col gridPos))
    as [ok Hok]; [apply Hp0|done|].
  rewrite Hok. cbn [mbind option_bind]. destruct ok; [|by exists g0].
  destruct (placeShape_playable (row gridPos) (col gridPos) dragged g0)
    as (g1 & -> & Hp1); [done|done|by eapply canPlace_inbounds|].
  cbn [mbind option_bind].
  destruct (checkLines_playable (removeShape (container dragged) g1))
    as (g3 & -> & Hp3); [by apply removeShape_playable|].
  cbn [mbind option_bind]. by apply refill_playable.
Qed.

Lemma aiResume_playable k rng g :
  playable g → rngOk rng → ∃ g', aiResume k rng g = Some g' ∧ playable g'.
Proof.
  intros Hp Hrng. unfold aiResume.
  destruct (aiCalls g !! k) as [call|] eqn:Hk; [|by exists g].
  set (g0 := withAiCalls (delete k (aiCalls g)) g).
  assert (playable g0) as Hp0.
  { destruct Hp as [Hwf Hc]. split; [done|]. unfold g0. simpl.
    by apply Forall_delete. }
  assert (callWf call) as Hcall.
  { destruct Hp as [_ Hc]. rewrite Forall_lookup in Hc. by apply (Hc k). }
  destruct call as [shape r c|].
  - destruct Hcall as [Hs Hin]. unfold onPlaceShape.
    destruct (placeShape_playable r c shape g0) as (g1 & -> & Hp1); [done..|].
    cbn [mbind option_bind].
    destruct (checkLines_playable g1) as (g2 & -> & Hp2); [done|].
    cbn [mbind option_bind].
    destruct (refill_playable rng (removeShape (container shape) g2))
      as (g4 & -> & Hp4); [by apply removeShape_playable|done|].
    cbn [mbind option_bind]. by apply runAI_playable.
  - destruct (generateNewShapes_playable rng g0) as (g1 & -> & Hp1); [done..|].
    cbn [mbind option_bind]. by apply runAI_playable.
Qed.

Lemma onDragStart_playable cid g : playable g → playable (onDragStart cid g).
Proof.
  intros Hp. unfold onDragStart.
  destruct (list_find _ _) as [[i s]|] eqn:E; [|done].
  destruct (isGameOver g); [done|].
  apply list_find_Some in E as (Hi & _).
  destruct Hp as [[Hg Hs] Hc]. split; [split|]; [done| |done]. simpl.
  apply Forall_insert; [done|]. rewrite Forall_lookup in Hs.
  apply setDragging_wf. by apply (Hs i).
Qed.

Lemma timelineStep_playable k g :
  playable g → ∃ g', timelineStep k g = Some g' ∧ playable g'.
Proof.
  intros Hp. unfold timelineStep.
  destruct (timelines g !! k) as [[|ref rest]|]; [| |by exists g].
  - by apply checkGameOver_playable.
  - eexists. split; [done|]. destruct Hp as [[Hg Hs] Hc].
    split; [split|]; [|done|done]. simpl. by apply clearBlock_gridWf.
Qed.

Lemma startGame_playable rng g :
  Forall shapeWf (shapes g) → Forall callWf (aiCalls g) → rngOk rng →
  ∃ g', startGame rng g = Some g' ∧ playable g'.
Proof.
  intros Hs Hc Hrng. unfold startGame. apply generateNewShapes_playable; [|done].
  split; [split|]; [apply gridWf_createEmptyBoard|done|done].
Qed.

Lemma step_playable g e :
  playable g → eventOk e → ∃ g', step g e = Some g' ∧ playable g'.
Proof.
  intros Hp He. destruct e; simpl in *.
  - apply startGame_playable; [apply Hp|apply Hp|done].
  - eexists. split; [done|]. by apply (playable_same g).
  - unfold onContinue. case_match; [|eexists; split; [done|]; by apply (playable_same g)].
    apply runAI_playable. by apply (playable_same g).
  - eexists. split; [done|]. destruct Hp as [[Hg _] Hc]. by split; [split|].
  - eexists. split; [done|]. by apply onDragStart_playable.
  - by apply onDragEnd_playable.
  - unfold toggleAI. case_match; [|eexists; split; [done|]; by apply (playable_same g)].
    apply runAI_playable. by apply (playable_same g).
  - by apply aiResume_playable.
  - by apply timelineStep_playable.
Qed.

Lemma run_playable events g :
  playable g → Forall eventOk events → ∃ g', run events g = Some g' ∧ playable g'.
Proof.
  unfold run. revert g. induction events as [|e rest IH]; intros g Hp Hev.
  - by exists g.
  - apply Forall_cons_1 in Hev as [He Hrest].
    destruct (step_playable g e Hp He) as (g1 & Hstep & Hp1).
    cbn [forM]. rewrite Hstep. cbn [mbind option_bind]. by apply IH.
Qed.

(** X1: on a started game (a full grid, rectangular shapes in the batch,
    moves of the AI within the board) no handler reads a property of
    [undefined], whatever the drop position and whichever shapes and colours
    of the catalog and the palette are drawn; the game it leaves is again
    such a game, so no sequence of handlers throws. *)
Theorem started_game_never_throws g events :
  playable g → Forall eventOk events →
  ∃ g', run events g = Some g' ∧ playable g'.
Proof. apply run_playable. Qed.
Lemma rngOk_noDraw : rngOk noDraw.
Proof. intros i. split; simpl; lia. Qed.

Lemma playable_sampleGame : playable sampleGame.
Proof. split; [apply gameWf_sampleGame|apply Forall_nil_2]. Qed.

Lemma eventOk_sampleSession : Forall eventOk sampleSession.
Proof.
  unfold sampleSession.
  repeat (apply Forall_cons; split; [first [exact I|apply rngOk_noDraw]|]).
  apply Forall_nil_2.
Qed.

Lemma started_game_never_throws_witness :
  ∃ g', run sampleSession sampleGame = Some g' ∧ playable g'.
Proof.
  apply started_game_never_throws;
    [apply playable_sampleGame|apply eventOk_sampleSession].
Defined.
(** ** Rotation keeps the blocks *)

Lemma sum_seq_shift (f : nat → nat) n :
  sum_list_with f (seq 1 n) = sum_list_with (fun i => f (S i)) (seq 0 n).
Proof.
  rewrite <- fmap_S_seq. generalize (seq 0 n). intros l.
  induction l as [|x l IH]; [done|]. rewrite fmap_cons. cbn [sum_list_with].
  by rewrite IH.
Qed.

Lemma sum_seq_S (f : nat → nat) n :
  sum_list_with f (seq 0 (S n)) = (sum_list_with f (seq 0 n) + f n)%nat.
Proof. rewrite seq_S, sum_list_with_app. simpl. lia. Qed.

Lemma sum_seq_ext (f g : nat → nat) n :
  (∀ i, (i < n)%nat → f i = g i) →
  sum_list_with f (seq 0 n) = sum_list_with g (seq 0 n).
Proof.
  induction n as [|n IH]; [done|]. intros Hext.
  rewrite !sum_seq_S, IH by (intros; apply Hext; lia). by rewrite Hext by lia.
Qed.

Lemma sum_seq_add (f g : nat → nat) n :
  sum_list_with (fun i => (f i + g i)%nat) (seq 0 n)
  = (sum_list_with f (seq 0 n) + sum_list_with g (seq 0 n))%nat.
Proof. induction n as [|n IH]; [done|]. rewrite !sum_seq_S, IH. lia. Qed.

Lemma sum_seq_swap (f : nat → nat → nat) a b :
  sum_list_with (fun i => sum_list_with (fun j => f i j) (seq 0 b)) (seq 0 a)
  = sum_list_with (fun j => sum_list_with (fun i => f i j) (seq 0 a)) (seq 0 b).
Proof.
  induction a as [|a IH].
  - simpl. induction b as [|b IHb]; [done|]. rewrite sum_seq_S. simpl in *. lia.
  - rewrite sum_seq_S, IH, <- sum_seq_add. apply sum_seq_ext. intros j _.
    by rewrite sum_seq_S.
Qed.

Lemma sum_seq_rev (f : nat → nat) n :
  sum_list_with (fun j => f (n - 1 - j)%nat) (seq 0 n) = sum_list_with f (seq 0 n).
Proof.
  induction n as [|n IH]; [done|].
  rewrite (sum_seq_S f). cbn [seq sum_list_with]. rewrite sum_seq_shift.
  replace (S n - 1 - 0)%nat with n by lia.
  rewrite (sum_seq_ext (fun i => f (S n - 1 - S i)%nat) (fun j => f (n - 1 - j)%nat))
    by (intros i Hi; f_equal; lia).
  rewrite IH. lia.
Qed.

(** The true cells of a line, cell by cell. *)
Lemma trueCells_line (line : list bool) :
  length (filter (fun cell => cell = true) line)
  = sum_list_with (fun c => if default false (line !! c) then 1 else 0)%nat
                  (seq 0 (length line)).
Proof.
  induction line as [|x line IH]; [done|].
  cbn [length seq sum_list_with]. rewrite sum_seq_shift.
  rewrite (sum_seq_ext _ (fun c => if default false (line !! c) then 1 else 0)%nat)
    by done.
  rewrite <- IH. rewrite filter_cons. destruct x.
  - by rewrite decide_True by done.
  - by rewrite decide_False by done.
Qed.

(** The true cells of a matrix, cell by cell. *)
Lemma trueCells_rect m rows cols :
  rect m rows cols →
  trueCells m
  = sum_list_with (fun r =>
      sum_list_with (fun c => if readCell m r c then 1 else 0)%nat (seq 0 cols))
      (seq 0 rows).
Proof.
  revert rows. induction m as [|line m IH]; intros rows [Hlen Hall].
  - simpl in Hlen. by subst.
  - simpl in Hlen. subst rows. apply Forall_cons_1 in Hall as [Hline Hall].
    unfold trueCells. cbn [concat]. rewrite filter_app, length_app.
    cbn [seq sum_list_with]. rewrite sum_seq_shift.
    fold (trueCells m). rewrite (IH (length m)) by done.
    rewrite trueCells_line, Hline. done.
Qed.

Lemma rotateShape_trueCells m rows cols :
  rect m rows cols → (0 < rows)%nat →
  ∃ m', rotateShape m = Some m' ∧ rect m' cols rows ∧ trueCells m' = trueCells m.
Proof.
  intros Hrect Hrows.
  destruct (rotateShape_readCell m rows cols Hrect Hrows) as (m' & Hm' & Hr' & Hcell).
  exists m'. split; [done|]. split; [done|].
  rewrite (trueCells_rect m' cols rows Hr'), (trueCells_rect m rows cols Hrect).
  rewrite (sum_seq_swap (fun r c => if readCell m r c then 1 else 0)%nat rows cols).
  apply sum_seq_ext. intros i Hi.
  rewrite <- (sum_seq_rev (fun r => if readCell m r i then 1 else 0)%nat rows).
  apply sum_seq_ext. intros j Hj. by rewrite Hcell.
Qed.

Lemma rotateTimes_trueCells n m rows cols :
  rect m rows cols → (0 < rows)%nat → (0 < cols)%nat →
  ∃ m', rotateTimes n m = Some m' ∧ trueCells m' = trueCells m.
Proof.
  revert m rows cols. induction n as [|n IH]; intros m rows cols Hrect Hrows Hcols.
  - by exists m.
  - cbn [rotateTimes].
    destruct (rotateShape_trueCells m rows cols Hrect Hrows) as (m1 & -> & Hr1 & <-).
    cbn [mbind option_bind]. by apply (IH m1 cols rows).
Qed.

(** X2: a rotation neither adds nor removes a block: the rotated matrix
    has as many true cells as the matrix rotated, and so has the matrix
    after any number of rotations. *)
Theorem rotateShape_keeps_blocks m rows cols :
  rect m rows cols → (0 < rows)%nat →
  (∃ m', rotateShape m = Some m' ∧ trueCells m' = trueCells m) ∧
  ((0 < cols)%nat →
   ∀ n, ∃ m', rotateTimes n m = Some m' ∧ trueCells m' = trueCells m).
Proof.
  intros Hrect Hrows. split.
  - destruct (rotateShape_trueCells m rows cols Hrect Hrows) as (m' & ? & _ & ?).
    by exists m'.
  - intros Hcols n. by apply (rotateTimes_trueCells n m rows cols).
Qed.

Lemma rect_matrixL : rect matrixL 3 2.
Proof.
  split; [reflexivity|]. repeat (apply Forall_cons; split; [reflexivity|]).
  apply Forall_nil_2.
Qed.

Lemma rotateShape_keeps_blocks_witness :
  (∃ m', rotateShape matrixL = Some m' ∧ trueCells m' = trueCells matrixL) ∧
  ((0 < 2)%nat →
   ∀ n, ∃ m', rotateTimes n matrixL = Some m' ∧ trueCells m' = trueCells matrixL).
Proof. apply (rotateShape_keeps_blocks matrixL 3 2); [apply rect_matrixL|lia]. Defined.

Lemma SHAPES_blocks m : m ∈ SHAPES → (1 ≤ trueCells m ≤ 4)%nat.
Proof.
  unfold SHAPES. rewrite !elem_of_cons, elem_of_nil. intros H.
  repeat (destruct H as [->|H]); [..|done]; vm_compute; lia.
Qed.

(** X3: every shape of a batch has from one to four blocks, whatever
    the three numbers drawn for it. *)
Theorem newShape_blocks d cid :
  drawOk d →
  ∃ s, newShape d cid = Some s ∧ (1 ≤ trueCells (blocks s) ≤ 4)%nat.
Proof.
  intros Hd. destruct (newShape_wf d cid Hd) as (s & Hs & _). exists s.
  split; [done|]. revert Hs. unfold newShape.
  destruct (SHAPES !! shapeIndex d) as [base|] eqn:Hbase; [|done].
  destruct (BLOCK_COLORS !! colorIndex d) as [shade|]; [|done].
  cbn [mbind option_bind].
  destruct (SHAPES_rect base) as (a & b & Hrect & Ha & Hb).
  { by eapply list_elem_of_lookup_2. }
  destruct (rotateTimes_trueCells (rotations d) base a b Hrect) as (m & -> & Hm);
    [lia|lia|].
  cbn [mbind option_bind]. destruct (head m); [|done]. intros [= <-].
  cbn [blocks]. rewrite Hm. apply SHAPES_blocks. by eapply list_elem_of_lookup_2.
Qed.

Lemma newShape_blocks_witness :
  ∃ s, newShape (mkDraw 4 2 3) 0 = Some s ∧ (1 ≤ trueCells (blocks s) ≤ 4)%nat.
Proof. apply (newShape_blocks (mkDraw 4 2 3) 0). split; simpl; lia. Defined.
(** ** Starting a game *)

Lemma getBlock_createEmptyBoard r c :
  inGrid r c →
  getBlock createEmptyBoard r c = Some (mkBlock 0 (mkPosition r c) true).
Proof.
  intros [Hr Hc]. unfold getBlock. rewrite bool_decide_eq_true_2 by lia.
  unfold createEmptyBoard. rewrite list_lookup_fmap.
  rewrite (lookup_seqZ_lt 0 GRID_SIZE (Z.to_nat r)) by (unfold GRID_SIZE in *; lia).
  cbn [fmap option_fmap option_map mbind option_bind].
  rewrite list_lookup_fmap.
  rewrite (lookup_seqZ_lt 0 GRID_SIZE (Z.to_nat c)) by (unfold GRID_SIZE in *; lia).
  simpl. do 3 f_equal; lia.
Qed.

(** On the empty board a shape that is no larger than the grid fits in the
    first corner. *)
Lemma canPlaceShape_createEmptyBoard shape :
  shapeWf shape → height shape ≤ GRID_SIZE → width shape ≤ GRID_SIZE →
  canPlaceShape createEmptyBoard 0 0 shape = Some true.
Proof.
  intros Hs Hh Hw. rewrite canPlaceShape_unfold by done.
  rewrite bool_decide_eq_false_2 by (unfold outOfBounds; lia).
  apply canPlaceRows_true. intros i line j Hi Hj.
  rewrite getBlock_createEmptyBoard; [by eexists|].
  apply (covered_inGrid shape); [done|unfold outOfBounds; lia|by exists line].
Qed.

(** X4: started on an empty batch and not over (a new game, a game after
    Home), the game gets the empty board and three shapes of the catalog in
    colours of the palette, none being dragged; it is in PLAYING and never
    over at once, since the first shape fits; the score is as it was. *)
Theorem startGame_live rng g :
  rngOk rng → shapes g = [] → isGameOver g = false →
  ∃ g', startGame rng g = Some g' ∧
        gameBoard g' = createEmptyBoard ∧
        currentState g' = PLAYING ∧ isGameOver g' = false ∧
        length (shapes g') = 3%nat ∧
        Forall (λ s, shapeWf s ∧ small s ∧ dragging s = false ∧
                     shapeColor s ∈ BLOCK_COLORS) (shapes g') ∧
        hasValidMoves g' = Some true ∧
        score g' = score g.
Proof.
  intros Hrng Hnil Hover. unfold startGame, generateNewShapes. simpl.
  rewrite Hover, Hnil. simpl.
  destruct (newShape_wf (rng 0%nat) (nextContainer g)) as (s0 & -> & Hs0); [done|].
  destruct (newShape_wf (rng 1%nat) (nextContainer g + 1)) as (s1 & -> & Hs1);
    [done|].
  destruct (newShape_wf (rng 2%nat) (nextContainer g + 2)) as (s2 & -> & Hs2);
    [done|].
  cbn [mbind option_bind]. unfold hasValidMoves. simpl.
  assert (hasValidMovesOn createEmptyBoard [s0; s1; s2] = Some true) as Hvalid.
  { apply hasValidMovesOn_true.
    - apply gridWf_createEmptyBoard.
    - repeat (apply Forall_cons; split; [tauto|]). apply Forall_nil_2.
    - exists s0, 0, 0. split; [apply list_elem_of_here|].
      split; [unfold inGrid, GRID_SIZE; lia|].
      destruct Hs0 as (Hwf & [Hh Hw] & _).
      apply canPlaceShape_createEmptyBoard; [done|unfold GRID_SIZE; lia..]. }
  rewrite Hvalid. cbn [mbind option_bind]. eexists. split; [done|]. simpl.
  split; [done|]. split; [done|]. split; [done|]. split; [done|].
  split; [|by rewrite Hvalid].
  repeat (apply Forall_cons; split; [done|]). apply Forall_nil_2.
Qed.

Lemma startGame_live_witness :
  ∃ g', startGame noDraw (resetGame stuckGame) = Some g' ∧
        gameBoard g' = createEmptyBoard ∧
        currentState g' = PLAYING ∧ isGameOver g' = false ∧
        length (shapes g') = 3%nat ∧
        Forall (λ s, shapeWf s ∧ small s ∧ dragging s = false ∧
                     shapeColor s ∈ BLOCK_COLORS) (shapes g') ∧
        hasValidMoves g' = Some true ∧
        score g' = score (resetGame stuckGame).
Proof.
  apply startGame_live; [apply rngOk_noDraw|reflexivity|reflexivity].
Defined.
(** ** Move availability *)

Lemma canPlace_moves_left board r c shape :
  shapeWf shape → canPlaceShape board r c shape = Some true →
  ∃ c', inGrid r c' ∧ canPlaceShape board r c' shape = Some true.
Proof.
  intros Hs Hcan. pose proof (canPlace_inbounds board r c shape Hs Hcan) as Hin.
  destruct Hs as (Hne & Hh & Hw).
  assert (0 < height shape) as Hpos.
  { rewrite Hh. destruct (blocks shape); [done|]. simpl. lia. }
  unfold outOfBounds in Hin.
  destruct (decide (c < GRID_SIZE)) as [Hc|Hc].
  { exists c. split; [unfold inGrid; lia|done]. }
  assert (0 ≤ width shape) as Hnonneg.
  { destruct (blocks shape) as [|first rest]; [done|].
    apply Forall_cons_1 in Hw as [<- _]. lia. }
  assert (width shape = 0) as Hzero by lia.
  exists 0. split; [unfold inGrid, GRID_SIZE in *; lia|].
  rewrite canPlaceShape_unfold by done.
  rewrite bool_decide_eq_false_2 by (unfold outOfBounds, GRID_SIZE in *; lia).
  apply canPlaceRows_true. intros i line j Hi Hj. exfalso.
  rewrite Forall_lookup in Hw. specialize (Hw _ _ Hi).
  apply lookup_lt_Some in Hj. lia.
Qed.

(** X5: [hasValidMoves] returns, and returns [true] exactly when some shape
    of the batch can be placed at some position: [false] means that no
    shape fits anywhere, the positions it does not try included. *)
Theorem hasValidMoves_iff g :
  gameWf g →
  ∃ b, hasValidMoves g = Some b ∧
       (b = true ↔ ∃ shape r c, shape ∈ shapes g ∧
                                canPlaceShape (gameBoard g) r c shape = Some true).
Proof.
  intros [Hg Hs]. unfold hasValidMoves.
  destruct (hasValidMovesOn_total _ _ Hg Hs) as [b Hb]. exists b.
  split; [done|]. split.
  - intros ->. apply hasValidMovesOn_true in Hb as (shape & r & c & Hin & _ & Hcan);
      [|done..].
    by exists shape, r, c.
  - intros (shape & r & c & Hin & Hcan).
    assert (shapeWf shape) as Hwf.
    { rewrite Forall_forall in Hs. by apply Hs. }
    destruct (canPlace_moves_left _ _ _ _ Hwf Hcan) as (c' & Hgrid & Hcan').
    assert (hasValidMovesOn (gameBoard g) (shapes g) = Some true) as Htrue.
    { apply hasValidMovesOn_true; [done..|]. by exists shape, r, c'. }
    congruence.
Qed.

Lemma hasValidMoves_iff_witness :
  ∃ b, hasValidMoves lastShapeGame = Some b ∧
       (b = true ↔ ∃ shape r c, shape ∈ shapes lastShapeGame ∧
                     canPlaceShape (gameBoard lastShapeGame) r c shape = Some true).
Proof. apply hasValidMoves_iff, gameWf_lastShapeGame. Defined.

(** ** Clearing never takes a move away *)

Lemma canPlaceRows_clearBlock ref board r c rows :
  canPlaceRows board r c rows = Some true →
  canPlaceRows (clearBlock ref board) r c rows = Some true.
Proof.
  rewrite !canPlaceRows_true. intros H i line j Hi Hj.
  destruct (H i line j Hi Hj) as (blk & Hblk & Hemp).
  destruct (decide ((r + Z.of_nat i, c + Z.of_nat j) = (row ref, col ref)))
    as [Heq|Hne].
  - injection Heq as Hr Hc.
    destruct (clearBlock_at ref board) as (blk' & Hblk' & Hemp' & _).
    { rewrite <- Hr, <- Hc. by eexists. }
    exists blk'. by rewrite Hr, Hc.
  - exists blk. by rewrite clearBlock_other.
Qed.

Lemma canPlaceShape_clearBlock ref board r c shape :
  canPlaceShape board r c shape = Some true →
  canPlaceShape (clearBlock ref board) r c shape = Some true.
Proof.
  unfold canPlaceShape. case_match; [done|].
  destruct (head (blocks shape)) as [first|]; [|done]. cbn [mbind option_bind].
  case_match; [done|]. apply canPlaceRows_clearBlock.
Qed.

(** X6: clearing a block never takes a move away: a shape that fits stays
    placeable, and a callback of a clear animation (a block cleared, or the
    check at its end) leaves a game that had a move with a move, not over
    and in the phase it was in. *)
Theorem clearing_keeps_moves g k g' :
  gameWf g → hasValidMoves g = Some true → timelineStep k g = Some g' →
  hasValidMoves g' = Some true ∧
  isGameOver g' = isGameOver g ∧ currentState g' = currentState g ∧
  (∀ ref shape r c,
     canPlaceShape (gameBoard g) r c shape = Some true →
     canPlaceShape (clearBlock ref (gameBoard g)) r c shape = Some true).
Proof.
  intros [Hg Hs] Hvalid Hstep.
  split; [|split; [|split]]; [| | |intros; by apply canPlaceShape_clearBlock].
  - revert Hstep. unfold timelineStep.
    destruct (timelines g !! k) as [[|ref rest]|]; [| |by intros [= <-]].
    + unfold checkGameOver. unfold hasValidMoves in *. simpl. rewrite Hvalid.
      cbn [mbind option_bind]. by intros [= <-].
    + intros [= <-]. unfold hasValidMoves in *. simpl.
      apply hasValidMovesOn_true in Hvalid as (shape & r & c & Hin & Hgrid & Hcan);
        [|done..].
      apply hasValidMovesOn_true; [by apply clearBlock_gridWf|done|].
      exists shape, r, c. split; [done|]. split; [done|].
      by apply canPlaceShape_clearBlock.
  - revert Hstep. unfold timelineStep.
    destruct (timelines g !! k) as [[|ref rest]|]; [| |by intros [= <-]].
    + unfold checkGameOver. unfold hasValidMoves in *. simpl. rewrite Hvalid.
      cbn [mbind option_bind]. by intros [= <-].
    + by intros [= <-].
  - revert Hstep. unfold timelineStep.
    destruct (timelines g !! k) as [[|ref rest]|]; [| |by intros [= <-]].
    + unfold checkGameOver. unfold hasValidMoves in *. simpl. rewrite Hvalid.
      cbn [mbind option_bind]. by intros [= <-].
    + by intros [= <-].
Qed.

Lemma gameWf_clearingGame : gameWf clearingGame.
Proof.
  split; [apply gridWf_boardOf|].
  apply Forall_cons. split; [apply shapeWf_unitShape|apply Forall_nil_2].
Qed.

Lemma clearing_keeps_moves_witness :
  ∃ g', timelineStep 0 clearingGame = Some g' ∧
    hasValidMoves g' = Some true ∧
    isGameOver g' = isGameOver clearingGame ∧
    currentState g' = currentState clearingGame ∧
    (∀ ref shape r c,
       canPlaceShape (gameBoard clearingGame) r c shape = Some true →
       canPlaceShape (clearBlock ref (gameBoard clearingGame)) r c shape = Some true).
Proof.
  eexists. split; [vm_compute; reflexivity|].
  apply (clearing_keeps_moves clearingGame 0).
  - apply gameWf_clearingGame.
  - vm_compute. reflexivity.
  - vm_compute. reflexivity.
Defined.
(** ** The score of a drop *)

Lemma removeShape_frame cid g :
  gameBoard (removeShape cid g) = gameBoard g ∧
  score (removeShape cid g) = score g ∧
  timelines (removeShape cid g) = timelines g.
Proof. unfold removeShape. by destruct (list_find _ _) as [[i s]|]. Qed.

Lemma removeShape_gameWf cid g : gameWf g → gameWf (removeShape cid g).
Proof.
  intros [Hg Hs]. unfold removeShape. destruct (list_find _ _) as [[i s]|]; [|done].
  split; [done|]. simpl. by apply Forall_delete.
Qed.

(** One line check: the score and the animations it leaves. *)
Lemma checkLines_pass g rows cols :
  gameWf g →
  rowsToRemove (gameBoard g) = Some rows → colsToRemove (gameBoard g) = Some cols →
  ∃ g', checkLines g = Some g' ∧ gameWf g' ∧ gameBoard g' = gameBoard g ∧
        score g' = score g + (Z.of_nat (length rows) + Z.of_nat (length cols)) * 100 ∧
        timelines g' = if decide (rows = [] ∧ cols = []) then timelines g
                       else timelines g ++ [blocksToRemove rows cols].
Proof.
  intros Hwf Hrows Hcols. destruct (checkLines_total g Hwf) as [g' Hg'].
  exists g'. split; [done|].
  destruct (checkLines_result g rows cols g' Hrows Hcols Hg') as [Hscore Htl].
  apply checkLines_frame in Hg' as (Hb & Hs & _).
  split; [|split; [done|]].
  - destruct Hwf as [Hg Hsh]. split; [by rewrite Hb|by rewrite Hs].
  - by rewrite Hscore, Htl, clearFullLines_score, clearFullLines_timelines.
Qed.

Lemma two_passes g rows cols g1 cid :
  gameWf g1 → gameBoard g1 = gameBoard g →
  rowsToRemove (gameBoard g) = Some rows → colsToRemove (gameBoard g) = Some cols →
  score g1 = score g + (Z.of_nat (length rows) + Z.of_nat (length cols)) * 100 →
  timelines g1 = (if decide (rows = [] ∧ cols = []) then timelines g
                  else timelines g ++ [blocksToRemove rows cols]) →
  ∃ g3, checkLines (removeShape cid g1) = Some g3 ∧ gameWf g3 ∧
        gameBoard g3 = gameBoard g ∧
        score g3 = score g
                   + 2 * ((Z.of_nat (length rows) + Z.of_nat (length cols)) * 100) ∧
        timelines g3 = timelines g ++ twice rows cols.
Proof.
  intros Hwf1 Hb1 Hrows Hcols Hscore1 Htl1.
  destruct (removeShape_frame cid g1) as (Hb2 & Hscore2 & Htl2).
  destruct (checkLines_pass (removeShape cid g1) rows cols)
    as (g3 & Hg3 & Hwf3 & Hb3 & Hscore3 & Htl3).
  - by apply removeShape_gameWf.
  - by rewrite Hb2, Hb1.
  - by rewrite Hb2, Hb1.
  - exists g3. split; [done|]. split; [done|]. split; [congruence|].
    split; [lia|]. rewrite Htl3, Htl2, Htl1. unfold twice.
    case_decide; [by rewrite app_nil_r|by rewrite <- app_assoc].
Qed.

Lemma canPlaceShape_setDragging board r c b s :
  canPlaceShape board r c (setDragging b s) = canPlaceShape board r c s.
Proof. done. Qed.

(** X7: a drop that fits is scored by two line checks: the one that ends
    [placeShape] and the one [onDragEnd] runs next, both on the board as the
    placement left it, since the blocks are cleared later.  Every line the
    placement completes counts 200, and two animations are started for the
    same blocks. *)
Theorem drop_scores_lines_twice gridPos rng g i s :
  gameWf g → rngOk rng →
  list_find (λ s, dragging s = true) (shapes g) = Some (i, s) →
  canPlaceShape (gameBoard g) (row gridPos) (col gridPos) s = Some true →
  ∃ board' rows cols g',
    placeRows (shapeColor s) (gameBoard g) (row gridPos) (col gridPos) (blocks s)
      = Some board' ∧
    rowsToRemove board' = Some rows ∧ colsToRemove board' = Some cols ∧
    onDragEnd gridPos rng g = Some g' ∧
    gameBoard g' = board' ∧
    score g' = score g
               + 2 * ((Z.of_nat (length rows) + Z.of_nat (length cols)) * 100) ∧
    timelines g' = timelines g ++ twice rows cols.
Proof.
  intros [Hg Hs] Hrng Hfind Hcan. unfold onDragEnd. rewrite Hfind.
  apply list_find_Some in Hfind as (Hi & _).
  set (dragged := setDragging false s).
  set (g0 := withShapes (<[i:=dragged]> (shapes g)) g).
  assert (gameWf g0) as Hwf0.
  { split; [done|]. unfold g0. simpl. apply Forall_insert; [done|].
    apply setDragging_wf. rewrite Forall_lookup in Hs. by apply (Hs i). }
  assert (canPlaceShape (gameBoard g0) (row gridPos) (col gridPos) dragged
          = Some true) as -> by exact Hcan.
  cbn [mbind option_bind].
  pose proof (canPlaceShape_true_rows _ _ _ _ Hcan) as Hrowsfree.
  destruct (placeRows_spec (shapeColor s) (gameBoard g) (row gridPos) (col gridPos)
              (blocks s) Hg) as (board' & Hplace & Hgrid' & _).
  { by apply canPlaceRows_true. }
  destruct (rowsToRemove_total board' Hgrid') as [rows Hrows].
  destruct (colsToRemove_total board' Hgrid') as [cols Hcols].
  exists board', rows, cols.
  destruct (checkLines_pass (withBoard board' g0) rows cols)
    as (g1 & Hg1 & Hwf1 & Hb1 & Hscore1 & Htl1);
    [split; [done|apply Hwf0]|done|done|].
  assert (placeShape (row gridPos) (col gridPos) dragged g0 = Some g1) as ->.
  { unfold placeShape.
    assert (placeRows (shapeColor dragged) (gameBoard g0) (row gridPos)
              (col gridPos) (blocks dragged) = Some board') as -> by exact Hplace.
    done. }
  cbn [mbind option_bind].
  destruct (two_passes (withBoard board' g0) rows cols g1 (container dragged))
    as (g3 & Hg3 & Hwf3 & Hb3 & Hscore3 & Htl3); [done..|].
  rewrite Hg3. cbn [mbind option_bind].
  assert (∃ g', (if Z.of_nat (length (shapes g3)) =? 0
                 then generateNewShapes rng g3 else Some g3) = Some g' ∧
                gameBoard g' = gameBoard g3 ∧ score g' = score g3 ∧
                timelines g' = timelines g3) as (g' & -> & Hb & Hsc & Htl).
  { destruct (Z.of_nat (length (shapes g3)) =? 0); [|exists g3; by repeat split].
    destruct (generateNewShapes_gameWf rng g3 Hwf3 Hrng) as (g' & Hgen & _).
    exists g'. split; [done|].
    by apply generateNewShapes_frame in Hgen as (? & ? & ? & _). }
  exists g'. split; [done|]. split; [done|]. split; [done|]. split; [done|].
  split; [by rewrite Hb, Hb3|]. split; [by rewrite Hsc, Hscore3|].
  by rewrite Htl, Htl3.
Qed.

Lemma gameWf_almostRowGame : gameWf almostRowGame.
Proof.
  split; [apply gridWf_boardOf|].
  apply Forall_cons. split; [apply (setDragging_wf true), shapeWf_unitShape|].
  apply Forall_cons. split; [apply shapeWf_domino|].
  apply Forall_cons. split; [apply shapeWf_domino|apply Forall_nil_2].
Qed.

Lemma drop_scores_lines_twice_witness :
  ∃ board' rows cols g',
    placeRows (shapeColor (setDragging true (unitShape 0)))
              (gameBoard almostRowGame) 3 7
              (blocks (setDragging true (unitShape 0))) = Some board' ∧
    rowsToRemove board' = Some rows ∧ colsToRemove board' = Some cols ∧
    onDragEnd (mkPosition 3 7) noDraw almostRowGame = Some g' ∧
    gameBoard g' = board' ∧
    score g' = score almostRowGame
               + 2 * ((Z.of_nat (length rows) + Z.of_nat (length cols)) * 100) ∧
    timelines g' = timelines almostRowGame ++ twice rows cols.
Proof.
  apply (drop_scores_lines_twice (mkPosition 3 7) noDraw almostRowGame 0
           (setDragging true (unitShape 0))).
  - apply gameWf_almostRowGame.
  - apply rngOk_noDraw.
  - vm_compute. reflexivity.
  - vm_compute. reflexivity.
Defined.
(** ** The end of the game *)

(** X8: once the game is over and nothing is on its way to the board (no
    shape is being dragged, no call of the AI is suspended), no handler
    other than Home places a block, changes the score or the batch, or
    takes the game out of game over: a drag cannot start, the AI does not
    plan, no batch is generated, and a restart without Home leaves the game
    over. *)
Theorem game_over_is_final g events g' :
  isGameOver g = true → quiet g → EvHome ∉ events → run events g = Some g' →
  isGameOver g' = true ∧ shapes g' = shapes g ∧ score g' = score g ∧
  noNewBlocks (gameBoard g) (gameBoard g') ∧ quiet g'.
Proof.
  intros Hover Hq Hno Hrun.
  destruct (run_after_game_over events g g' Hover Hq Hno Hrun)
    as (H1 & H2 & H3 & H4 & H5).
  done.
Qed.

Lemma game_over_is_final_witness :
  ∃ g', run afterGameOver (gameOver lastShapeGame) = Some g' ∧
        isGameOver g' = true ∧ shapes g' = shapes (gameOver lastShapeGame) ∧
        score g' = score (gameOver lastShapeGame) ∧
        noNewBlocks (gameBoard (gameOver lastShapeGame)) (gameBoard g') ∧
        quiet g'.
Proof.
  eexists. split; [vm_compute; reflexivity|].
  apply (game_over_is_final (gameOver lastShapeGame) afterGameOver).
  - reflexivity.
  - split; [|reflexivity]. apply Forall_cons. split; [reflexivity|apply Forall_nil_2].
  - unfold afterGameOver. rewrite !not_elem_of_cons.
    repeat split; try discriminate. apply not_elem_of_nil.
  - vm_compute. reflexivity.
Defined.

(** ** A drop that does not fit *)

Lemma overlaps_canPlace board shape r c :
  gridWf board → shapeWf shape →
  outOfBounds shape r c ∨ overlaps board shape r c →
  canPlaceShape board r c shape = Some false.
Proof.
  intros Hg Hs Hbad.
  destruct (canPlaceShape_total board shape r c Hg Hs) as [[] Hb]; [|done].
  exfalso. pose proof (canPlace_inbounds _ _ _ _ Hs Hb) as Hin.
  destruct Hbad as [Hout|(i & j & (line & Hi & Hj) & blk & Hblk & Hfilled)]; [done|].
  apply canPlaceShape_true_rows in Hb.
  destruct (proj1 (canPlaceRows_true _ _ _ _) Hb i line j Hi Hj) as (b & Hb' & He).
  congruence.
Qed.

(** X9: a shape dropped outside the board or onto a placed block is not
    placed: the board, the score, the running animations, the phase and
    the shapes of the batch are as they were, only the shape is no longer
    being dragged. *)
Theorem rejected_drop gridPos rng g i s :
  gameWf g →
  list_find (λ s, dragging s = true) (shapes g) = Some (i, s) →
  outOfBounds s (row gridPos) (col gridPos)
  ∨ overlaps (gameBoard g) s (row gridPos) (col gridPos) →
  ∃ g', onDragEnd gridPos rng g = Some g' ∧
        gameBoard g' = gameBoard g ∧ score g' = score g ∧
        timelines g' = timelines g ∧ aiCalls g' = aiCalls g ∧
        isGameOver g' = isGameOver g ∧ currentState g' = currentState g ∧
        shapes g' = <[i := setDragging false s]> (shapes g) ∧
        batchIds g' = batchIds g.
Proof.
  intros [Hg Hs] Hfind Hbad. unfold onDragEnd. rewrite Hfind.
  apply list_find_Some in Hfind as (Hi & _).
  assert (shapeWf s) as Hwf.
  { rewrite Forall_lookup in Hs. by apply (Hs i). }
  assert (canPlaceShape
            (gameBoard (withShapes (<[i:=setDragging false s]> (shapes g)) g))
            (row gridPos) (col gridPos) (setDragging false s) = Some false) as ->.
  { by apply (overlaps_canPlace (gameBoard g) s). }
  cbn [mbind option_bind]. eexists. split; [done|]. simpl.
  repeat split; try done. unfold batchIds. simpl. by apply insert_dragging_ids.
Qed.

Lemma rejected_drop_witness :
  ∃ g', onDragEnd (mkPosition 0 7) noDraw
          (withShapes [setDragging true (domino 1)] sampleGame) = Some g' ∧
        gameBoard g' = gameBoard sampleGame ∧ score g' = score sampleGame ∧
        timelines g' = timelines sampleGame ∧ aiCalls g' = aiCalls sampleGame ∧
        isGameOver g' = isGameOver sampleGame ∧
        currentState g' = currentState sampleGame ∧
        shapes g' = <[0%nat := setDragging false (setDragging true (domino 1))]>
                      [setDragging true (domino 1)] ∧
        batchIds g' = batchIds (withShapes [setDragging true (domino 1)] sampleGame).
Proof.
  apply (rejected_drop (mkPosition 0 7) noDraw
           (withShapes [setDragging true (domino 1)] sampleGame) 0
           (setDragging true (domino 1))).
  - split; [apply gridWf_createEmptyBoard|].
    apply Forall_cons. split; [apply (setDragging_wf true), shapeWf_domino|].
    apply Forall_nil_2.
  - vm_compute. reflexivity.
  - left. unfold outOfBounds. simpl. unfold GRID_SIZE. lia.
Defined.
(** ** The pause menu *)

(** X10: Settings followed by Continue brings the AI switch back to what it
    was and leaves the board, the score, the batch, the animations and the
    game-over flag as they were; the phase is PLAYING afterwards, whatever
    it was before.  If the AI is on and the game not over, Continue starts
    a search at once, next to any call of the AI that is still suspended. *)
Theorem pause_then_continue g :
  gameWf g →
  ∃ g', onContinue (onSettings g) = Some g' ∧
        isAIEnabled g' = isAIEnabled g ∧ previousAIState g' = isAIEnabled g ∧
        currentState g' = PLAYING ∧
        gameBoard g' = gameBoard g ∧ shapes g' = shapes g ∧ score g' = score g ∧
        timelines g' = timelines g ∧ isGameOver g' = isGameOver g ∧
        aiCalls g' =
          (if isAIEnabled g && negb (isGameOver g)
           then aiCalls g ++ option_list (executeMove (gameBoard g) (shapes g))
           else aiCalls g).
Proof.
  intros [Hg Hs]. unfold onContinue, onSettings, runAI. simpl.
  destruct (isAIEnabled g) eqn:Hai; simpl.
  - destruct (isGameOver g) eqn:Hover; simpl.
    + eexists. split; [done|]. simpl. by rewrite ?Hai, ?Hover.
    + destruct (executeMove_total (gameBoard g) (shapes g) Hg Hs) as [call ->].
      simpl. eexists. split; [done|]. simpl. by rewrite ?Hai, ?Hover.
  - eexists. split; [done|]. simpl. by rewrite ?Hai.
Qed.

Lemma pause_then_continue_witness :
  ∃ g', onContinue (onSettings sampleGame) = Some g' ∧
        isAIEnabled g' = isAIEnabled sampleGame ∧
        previousAIState g' = isAIEnabled sampleGame ∧
        currentState g' = PLAYING ∧
        gameBoard g' = gameBoard sampleGame ∧ shapes g' = shapes sampleGame ∧
        score g' = score sampleGame ∧
        timelines g' = timelines sampleGame ∧
        isGameOver g' = isGameOver sampleGame ∧
        aiCalls g' =
          (if isAIEnabled sampleGame && negb (isGameOver sampleGame)
           then aiCalls sampleGame
                ++ option_list (executeMove (gameBoard sampleGame) (shapes sampleGame))
           else aiCalls sampleGame).
Proof. apply pause_then_continue, gameWf_sampleGame. Defined.

(** ** A move of the AI, once chosen *)

Lemma runAI_frame g g' :
  runAI g = Some g' →
  gameBoard g' = gameBoard g ∧ score g' = score g ∧ timelines g' = timelines g.
Proof. intros [->|(call & _ & ->)]%runAI_cases; done. Qed.

(** X11: a move the AI has chosen is placed when its call resumes, whatever
    has happened since: the resumed call tests neither the AI switch, nor
    the phase, nor the game-over flag, nor the cells.  The cells the shape
    covers hold blocks of its colour afterwards, what was there is
    overwritten, and the lines full after the placement are scored by two
    line checks. *)
Theorem suspended_move_is_placed k rng g shape r c :
  playable g → rngOk rng → aiCalls g !! k = Some (AiPlanned shape r c) →
  ∃ board' rows cols g',
    placeRows (shapeColor shape) (gameBoard g) r c (blocks shape) = Some board' ∧
    rowsToRemove board' = Some rows ∧ colsToRemove board' = Some cols ∧
    aiResume k rng g = Some g' ∧
    gameBoard g' = board' ∧
    (∀ i j, shapeCell shape i j →
       ∃ blk, getBlock board' (r + Z.of_nat i) (c + Z.of_nat j) = Some blk ∧
              isEmpty blk = false ∧ color blk = shapeColor shape) ∧
    score g' = score g
               + 2 * ((Z.of_nat (length rows) + Z.of_nat (length cols)) * 100) ∧
    timelines g' = timelines g ++ twice rows cols.
Proof.
  intros Hp Hrng Hk. unfold aiResume. rewrite Hk.
  set (g0 := withAiCalls (delete k (aiCalls g)) g).
  assert (callWf (AiPlanned shape r c)) as [Hs Hin].
  { destruct Hp as [_ Hc]. rewrite Forall_lookup in Hc. by apply (Hc k). }
  assert (gameWf g0) as Hwf0 by apply Hp.
  destruct Hwf0 as [Hg0 Hs0].
  destruct (placeRows_inbounds (shapeColor shape) (gameBoard g) r c (blocks shape))
    as (board' & Hplace & Hgrid' & Hset & _); [apply Hp| |].
  { intros i line j Hi Hj. apply getBlock_inGrid; [apply Hp|].
    apply (covered_inGrid shape); [done|done|by exists line]. }
  destruct (rowsToRemove_total board' Hgrid') as [rows Hrows].
  destruct (colsToRemove_total board' Hgrid') as [cols Hcols].
  exists board', rows, cols.
  destruct (checkLines_pass (withBoard board' g0) rows cols)
    as (g1 & Hg1 & Hwf1 & Hb1 & Hscore1 & Htl1); [by split|done|done|].
  destruct (checkLines_pass g1 rows cols)
    as (g2 & Hg2 & Hwf2 & Hb2 & Hscore2 & Htl2);
    [done|by rewrite Hb1|by rewrite Hb1|].
  unfold onPlaceShape.
  assert (placeShape r c shape g0 = Some g1) as ->.
  { unfold placeShape.
    assert (placeRows (shapeColor shape) (gameBoard g0) r c (blocks shape)
            = Some board') as -> by exact Hplace.
    done. }
  cbn [mbind option_bind]. rewrite Hg2. cbn [mbind option_bind].
  set (g3 := removeShape (container shape) g2).
  destruct (removeShape_frame (container shape) g2) as (Hb3 & Hscore3 & Htl3).
  assert (∃ g4, (if Z.of_nat (length (shapes g3)) =? 0
                 then generateNewShapes rng g3 else Some g3) = Some g4 ∧
                gameWf g4 ∧
                gameBoard g4 = gameBoard g3 ∧ score g4 = score g3 ∧
                timelines g4 = timelines g3) as (g4 & -> & Hwf4 & Hb4 & Hsc4 & Htl4).
  { assert (gameWf g3) as Hwf3 by by apply removeShape_gameWf.
    destruct (Z.of_nat (length (shapes g3)) =? 0);
      [|exists g3; split; [done|]; split; [done|]; by repeat split].
    destruct (generateNewShapes_gameWf rng g3 Hwf3 Hrng) as (g4 & Hgen & Hwf4).
    exists g4. split; [done|]. split; [done|].
    by apply generateNewShapes_frame in Hgen as (? & ? & ? & _). }
  cbn [mbind option_bind].
  destruct Hwf4 as [Hg4 Hs4].
  assert (is_Some (runAI g4)) as [g' Hrun].
  { unfold runAI.
    destruct (negb (isAIEnabled g4) || isGameOver g4
              || negb (isPlaying (currentState g4))); [by eexists|].
    destruct (executeMove_total (gameBoard g4) (shapes g4) Hg4 Hs4) as [call ->].
    by eexists. }
  exists g'. split; [done|]. split; [done|]. split; [done|]. split; [done|].
  apply runAI_frame in Hrun as (Hb5 & Hsc5 & Htl5).
  assert (gameBoard g' = board') as Hboard.
  { rewrite Hb5, Hb4. unfold g3. by rewrite Hb3, Hb2, Hb1. }
  split; [done|]. split; [|split].
  - intros i j (line & Hi & Hj).
    destruct (Hset i line j Hi Hj) as (old & _ & Hnew). by eexists.
  - rewrite Hsc5, Hsc4. unfold g3. rewrite Hscore3, Hscore2, Hscore1. simpl. lia.
  - rewrite Htl5, Htl4. unfold g3. rewrite Htl3, Htl2, Htl1. simpl. unfold twice.
    case_decide; [by rewrite app_nil_r|by rewrite <- app_assoc].
Qed.

Lemma playable_pausedGame : playable pausedGame.
Proof.
  split; [split|].
  - apply gridWf_boardOf.
  - apply Forall_cons. split; [apply shapeWf_unitShape|].
    apply Forall_cons. split; [apply shapeWf_domino|apply Forall_nil_2].
  - apply Forall_cons. split; [|apply Forall_nil_2].
    split; [apply shapeWf_unitShape|].
    unfold outOfBounds. simpl. unfold GRID_SIZE. lia.
Qed.

Lemma suspended_move_is_placed_witness :
  ∃ board' rows cols g',
    placeRows (shapeColor (unitShape 0)) (gameBoard pausedGame) 1 7
              (blocks (unitShape 0)) = Some board' ∧
    rowsToRemove board' = Some rows ∧ colsToRemove board' = Some cols ∧
    aiResume 0 noDraw pausedGame = Some g' ∧
    gameBoard g' = board' ∧
    (∀ i j, shapeCell (unitShape 0) i j →
       ∃ blk, getBlock board' (1 + Z.of_nat i) (7 + Z.of_nat j) = Some blk ∧
              isEmpty blk = false ∧ color blk = shapeColor (unitShape 0)) ∧
    score g' = score pausedGame
               + 2 * ((Z.of_nat (length rows) + Z.of_nat (length cols)) * 100) ∧
    timelines g' = timelines pausedGame ++ twice rows cols.
Proof.
  apply (suspended_move_is_placed 0 noDraw pausedGame (unitShape 0) 1 7).
  - apply playable_pausedGame.
  - apply rngOk_noDraw.
  - reflexivity.
Defined.
(** ** What holds in every state of a game *)

Lemma checkLines_score g g' :
  checkLines g = Some g' → ∃ k, 0 ≤ k ∧ score g' = score g + k * 100.
Proof.
  intros H.
  destruct (rowsToRemove (gameBoard g)) as [rows|] eqn:Hrows;
    [|by unfold checkLines in H; rewrite Hrows in H].
  destruct (colsToRemove (gameBoard g)) as [cols|] eqn:Hcols;
    [|by unfold checkLines in H; rewrite Hrows, Hcols in H].
  destruct (checkLines_result g rows cols g' Hrows Hcols H) as [-> _].
  rewrite clearFullLines_score. eexists. split; [|done]. lia.
Qed.

Lemma lineScore_add n k : lineScore n → 0 ≤ k → lineScore (n + k * 100).
Proof. intros (m & Hm & ->) Hk. exists (m + k). split; lia. Qed.

Lemma placeShape_score r c shape g g' :
  placeShape r c shape g = Some g' → ∃ k, 0 ≤ k ∧ score g' = score g + k * 100.
Proof.
  unfold placeShape. destruct (placeRows _ _ _ _ _) as [board'|]; [|done].
  cbn [mbind option_bind]. by intros (k & Hk & ->)%checkLines_score; exists k.
Qed.

Lemma refill_score rng g g' :
  (if Z.of_nat (length (shapes g)) =? 0 then generateNewShapes rng g else Some g)
  = Some g' → score g' = score g.
Proof.
  destruct (_ =? 0); [|by intros [= <-]].
  by intros (_ & -> & _)%generateNewShapes_frame.
Qed.

Lemma step_lineScore g e g' :
  step g e = Some g' → lineScore (score g) → lineScore (score g').
Proof.
  intros Hstep Hscore. destruct e; simpl in Hstep.
  - unfold startGame in Hstep.
    by apply generateNewShapes_frame in Hstep as (_ & -> & _).
  - by injection Hstep as <-.
  - unfold onContinue in Hstep. revert Hstep. case_match.
    + by intros (_ & -> & _)%runAI_frame.
    + by intros [= <-].
  - injection Hstep as <-. exists 0. simpl. lia.
  - injection Hstep as <-. unfold onDragStart.
    destruct (list_find _ _) as [[i s]|]; [|done]. by destruct (isGameOver g).
  - revert Hstep. unfold onDragEnd.
    destruct (list_find _ _) as [[i s]|]; [|by intros [= <-]].
    destruct (canPlaceShape _ _ _ _) as [[]|]; [| |done]; cbn [mbind option_bind];
      [|by intros [= <-]].
    destruct (placeShape _ _ _ _) as [g1|] eqn:E1; [|done]. cbn [mbind option_bind].
    destruct (checkLines _) as [g3|] eqn:E3; [|done]. cbn [mbind option_bind].
    intros ->%refill_score.
    apply placeShape_score in E1 as (k1 & Hk1 & E1).
    apply checkLines_score in E3 as (k3 & Hk3 & ->).
    destruct (removeShape_frame (container (setDragging false s)) g1) as (_ & -> & _).
    rewrite E1. simpl. by repeat apply lineScore_add.
  - unfold toggleAI in Hstep. revert Hstep. case_match.
    + by intros (_ & -> & _)%runAI_frame.
    + by intros [= <-].
  - revert Hstep. unfold aiResume.
    destruct (aiCalls g !! k) as [[shape r c|]|]; [| |by intros [= <-]].
    + unfold onPlaceShape.
      destruct (placeShape _ _ _ _) as [g1|] eqn:E1; [|done]. cbn [mbind option_bind].
      destruct (checkLines _) as [g2|] eqn:E2; [|done]. cbn [mbind option_bind].
      destruct (if _ =? 0 then _ else _) as [g4|] eqn:E4; [|done].
      cbn [mbind option_bind]. intros (_ & -> & _)%runAI_frame.
      apply refill_score in E4 as ->.
      destruct (removeShape_frame (container shape) g2) as (_ & -> & _).
      apply placeShape_score in E1 as (k1 & Hk1 & E1).
      apply checkLines_score in E2 as (k2 & Hk2 & ->).
      rewrite E1. simpl. by repeat apply lineScore_add.
    + destruct (generateNewShapes _ _) as [g1|] eqn:E1; [|done].
      cbn [mbind option_bind]. intros (_ & -> & _)%runAI_frame.
      by apply generateNewShapes_frame in E1 as (_ & -> & _).
  - revert Hstep. unfold timelineStep.
    destruct (timelines g !! k) as [[|ref rest]|]; [| |by intros [= <-]].
    + unfold checkGameOver. destruct (hasValidMoves _) as [[]|]; [| |done];
        by intros [= <-].
    + by intros [= <-].
Qed.

Lemma step_batch_size g e g' :
  step g e = Some g' → (length (shapes g) ≤ 3)%nat → (length (shapes g') ≤ 3)%nat.
Proof.
  intros Hstep Hlen. apply step_batch in Hstep as [Hsub|[_ Hids]].
  - apply sublist_length in Hsub. unfold batchIds in Hsub.
    rewrite !length_fmap in Hsub. lia.
  - apply (f_equal length) in Hids. unfold batchIds in Hids.
    rewrite length_fmap in Hids. simpl in Hids. lia.
Qed.

Lemma run_invariant (Inv : Game → Prop) events g g' :
  (∀ g e g', step g e = Some g' → Inv g → Inv g') →
  run events g = Some g' → Inv g → Inv g'.
Proof.
  intros Hstep. unfold run. revert g.
  induction events as [|e rest IH]; intros g; simpl.
  - by intros [= <-].
  - destruct (step g e) as [g1|] eqn:E; [|done]. simpl.
    intros Hrun Hinv. apply (IH g1 Hrun). by eapply Hstep.
Qed.

(** X12: in every state a game reaches from its construction the batch
    holds at most three shapes and the score is a multiple of 100 that is
    not negative. *)
Theorem batch_and_score_bounds events g :
  run events newGame = Some g →
  (length (shapes g) ≤ 3)%nat ∧ lineScore (score g).
Proof.
  intros Hrun. split.
  - apply (run_invariant (λ g, (length (shapes g) ≤ 3)%nat) events newGame g);
      [apply step_batch_size|done|simpl; lia].
  - apply (run_invariant (λ g, lineScore (score g)) events newGame g);
      [apply step_lineScore|done|]. exists 0. simpl. lia.
Qed.

Lemma batch_and_score_bounds_witness :
  ∃ g, run stuckPlay newGame = Some g ∧
       (length (shapes g) ≤ 3)%nat ∧ lineScore (score g).
Proof.
  eexists. split; [vm_compute; reflexivity|].
  apply (batch_and_score_bounds stuckPlay). vm_compute. reflexivity.
Defined.

(** ** Blocks stay where they were created *)

Lemma setBlock_positionsOk board r c old new :
  positionsOk board → getBlock board r c = Some old →
  position new = position old → positionsOk (setBlock board r c new).
Proof.
  intros Hpos Hold Hsame r' c' blk Hblk.
  destruct (decide ((r', c') = (r, c))) as [[= -> ->]|Hne].
  - rewrite (setBlock_lookup_eq board r c old new Hold) in Hblk.
    injection Hblk as <-. rewrite Hsame. by apply Hpos.
  - rewrite setBlock_lookup_ne in Hblk by (by eexists || done). by apply Hpos.
Qed.

Lemma fillBlock_positionsOk board r c shade board' :
  positionsOk board → fillBlock board r c shade = Some board' → positionsOk board'.
Proof.
  intros Hpos. unfold fillBlock. destruct (getBlock board r c) as [blk|] eqn:E; [|done].
  simpl. intros [= <-]. by apply (setBlock_positionsOk board r c blk).
Qed.

Lemma placeCells_positionsOk shade board r c cells board' :
  positionsOk board → placeCells shade board r c cells = Some board' →
  positionsOk board'.
Proof.
  revert board c. induction cells as [|cell rest IH]; intros board c Hpos; simpl.
  - by intros [= <-].
  - destruct cell; [|by apply IH].
    destruct (fillBlock board r c shade) as [b1|] eqn:E; [|done]. simpl.
    apply IH. by eapply fillBlock_positionsOk.
Qed.

Lemma placeRows_positionsOk shade board r c rows board' :
  positionsOk board → placeRows shade board r c rows = Some board' →
  positionsOk board'.
Proof.
  revert board r. induction rows as [|cells rest IH]; intros board r Hpos; simpl.
  - by intros [= <-].
  - destruct (placeCells shade board r c cells) as [b1|] eqn:E; [|done]. simpl.
    apply IH. by eapply placeCells_positionsOk.
Qed.

Lemma clearBlock_positionsOk ref board :
  positionsOk board → positionsOk (clearBlock ref board).
Proof.
  intros Hpos. unfold clearBlock.
  destruct (getBlock board (row ref) (col ref)) as [blk|] eqn:E; [|done].
  by apply (setBlock_positionsOk board _ _ blk).
Qed.

Lemma createEmptyBoard_positionsOk : positionsOk createEmptyBoard.
Proof.
  intros r c blk Hblk.
  assert (inGrid r c) as Hin.
  { apply (getBlock_is_Some_inGrid createEmptyBoard);
      [apply gridWf_createEmptyBoard|by eexists]. }
  rewrite getBlock_createEmptyBoard in Hblk by done. by injection Hblk as <-.
Qed.

Lemma placeShape_positionsOk r c shape g g' :
  placeShape r c shape g = Some g' → positionsOk (gameBoard g) →
  positionsOk (gameBoard g').
Proof.
  unfold placeShape. destruct (placeRows _ _ _ _ _) as [board'|] eqn:E; [|done].
  cbn [mbind option_bind]. intros (-> & _)%checkLines_frame Hpos. simpl.
  by eapply placeRows_positionsOk.
Qed.

Lemma refill_board rng g g' :
  (if Z.of_nat (length (shapes g)) =? 0 then generateNewShapes rng g else Some g)
  = Some g' → gameBoard g' = gameBoard g.
Proof.
  destruct (_ =? 0); [|by intros [= <-]].
  by intros (-> & _)%generateNewShapes_frame.
Qed.

Lemma step_positionsOk g e g' :
  step g e = Some g' → positionsOk (gameBoard g) → positionsOk (gameBoard g').
Proof.
  intros Hstep Hpos. destruct e; simpl in Hstep.
  - unfold startGame in Hstep.
    apply generateNewShapes_frame in Hstep as (-> & _). simpl.
    apply createEmptyBoard_positionsOk.
  - by injection Hstep as <-.
  - unfold onContinue in Hstep. revert Hstep. case_match.
    + by intros (-> & _)%runAI_frame.
    + by intros [= <-].
  - by injection Hstep as <-.
  - injection Hstep as <-. unfold onDragStart.
    destruct (list_find _ _) as [[i s]|]; [|done]. by destruct (isGameOver g).
  - revert Hstep. unfold onDragEnd.
    destruct (list_find _ _) as [[i s]|]; [|by intros [= <-]].
    destruct (canPlaceShape _ _ _ _) as [[]|]; [| |done]; cbn [mbind option_bind];
      [|by intros [= <-]].
    destruct (placeShape _ _ _ _) as [g1|] eqn:E1; [|done]. cbn [mbind option_bind].
    destruct (checkLines _) as [g3|] eqn:E3; [|done]. cbn [mbind option_bind].
    intros ->%refill_board.
    apply checkLines_frame in E3 as (-> & _).
    destruct (removeShape_frame (container (setDragging false s)) g1) as (-> & _).
    by apply (placeShape_positionsOk _ _ _ _ _ E1).
  - unfold toggleAI in Hstep. revert Hstep. case_match.
    + by intros (-> & _)%runAI_frame.
    + by intros [= <-].
  - revert Hstep. unfold aiResume.
    destruct (aiCalls g !! k) as [[shape r c|]|]; [| |by intros [= <-]].
    + unfold onPlaceShape.
      destruct (placeShape _ _ _ _) as [g1|] eqn:E1; [|done]. cbn [mbind option_bind].
      destruct (checkLines _) as [g2|] eqn:E2; [|done]. cbn [mbind option_bind].
      destruct (if _ =? 0 then _ else _) as [g4|] eqn:E4; [|done].
      cbn [mbind option_bind]. intros (-> & _)%runAI_frame.
      apply refill_board in E4 as ->.
      destruct (removeShape_frame (container shape) g2) as (-> & _).
      apply checkLines_frame in E2 as (-> & _).
      by apply (placeShape_positionsOk _ _ _ _ _ E1).
    + destruct (generateNewShapes _ _) as [g1|] eqn:E1; [|done].
      cbn [mbind option_bind]. intros (-> & _)%runAI_frame.
      by apply generateNewShapes_frame in E1 as (-> & _).
  - revert Hstep. unfold timelineStep.
    destruct (timelines g !! k) as [[|ref rest]|]; [| |by intros [= <-]].
    + unfold checkGameOver. destruct (hasValidMoves _) as [[]|]; [| |done];
        by intros [= <-].
    + intros [= <-]. simpl. by apply clearBlock_positionsOk.
Qed.

(** X13: a block of the board never leaves its cell: in every state a game
    reaches from its construction, the block read at a cell carries the
    position of that cell, so the block a clear animation holds is the one
    at its position on the board. *)
Theorem blocks_stay_in_place events g :
  run events newGame = Some g → positionsOk (gameBoard g).
Proof.
  intros Hrun.
  apply (run_invariant (λ g, positionsOk (gameBoard g)) events newGame g);
    [apply step_positionsOk|done|].
  intros r c blk Hblk. apply getBlock_Some in Hblk as (_ & _ & line & Hl & _).
  simpl in Hl. by rewrite lookup_nil in Hl.
Qed.

Lemma blocks_stay_in_place_witness :
  ∃ g, run stuckPlay newGame = Some g ∧ positionsOk (gameBoard g).
Proof.
  eexists. split; [vm_compute; reflexivity|].
  apply (blocks_stay_in_place stuckPlay). vm_compute. reflexivity.
Defined.
(** ** The scan of a line *)

Lemma scanCell_counts s x :
  lineBlocks (scanCell s x) = lineBlocks s + (if x then 1 else 0) ∧
  lineGaps (scanCell s x)
  = lineGaps s + (if prevFilled s && negb x then 1 else 0) ∧
  (0 ≤ lineBlocks s → prevFilled (scanCell s x) = x).
Proof.
  unfold prevFilled, scanCell. destruct x; simpl.
  - split; [done|]. split; [rewrite andb_false_r; lia|].
    intros H. apply Z.ltb_lt. lia.
  - split; [lia|]. split; [|done]. rewrite andb_true_r.
    by destruct (negb (lastWasEmpty s) && (0 <? lineBlocks s)); [|lia].
Qed.

Lemma scanLine_from s cells :
  0 ≤ lineBlocks s →
  lineBlocks (foldl scanCell s cells)
  = lineBlocks s + Z.of_nat (length (filter (λ x, x = true) cells)) ∧
  lineGaps (foldl scanCell s cells)
  = lineGaps s
    + Z.of_nat (length (filter (λ p, p = (true, false))
                               (zip (prevFilled s :: cells) cells))).
Proof.
  revert s. induction cells as [|x rest IH]; intros s Hpos.
  - simpl. lia.
  - destruct (scanCell_counts s x) as (Hb1 & Hg1 & Hprev).
    destruct (IH (scanCell s x)) as [Hb Hg]; [rewrite Hb1; destruct x; lia|].
    cbn [foldl]. rewrite Hb, Hg, Hb1, Hg1, Hprev by done.
    change (zip (prevFilled s :: x :: rest) (x :: rest))
      with ((prevFilled s, x) :: zip (x :: rest) rest).
    rewrite !filter_cons.
    destruct x, (prevFilled s); simpl;
      repeat case_decide; try done; simpl; lia.
Qed.

(** X14: the scan of a line counts its filled cells, and as gaps the empty
    cells that come right after a filled one: empty cells at the start of a
    line and the rest of a run of empty cells do not count. *)
Theorem scanLine_counts cells :
  lineBlocks (scanLine cells)
  = Z.of_nat (length (filter (λ x, x = true) cells)) ∧
  lineGaps (scanLine cells)
  = Z.of_nat (length (filter (λ p, p = (true, false)) (zip cells (drop 1 cells)))).
Proof.
  unfold scanLine.
  destruct (scanLine_from (mkScan 0 0 false) cells) as [Hb Hg]; [simpl; lia|].
  split; [by rewrite Hb|]. rewrite Hg. cbn [lineGaps prevFilled]. f_equal. f_equal.
  destruct cells as [|x rest]; [done|].
  change (zip (prevFilled (mkScan 0 0 false) :: x :: rest) (x :: rest))
    with ((false, x) :: zip (x :: rest) rest).
  rewrite filter_cons_False by (intros [=]). by rewrite skipn_cons, drop_0.
Qed.
(** ** The simulated board *)

Lemma evalMove_predicted board r c shape :
  evalMove board r c shape =
  p ← predicted board r c shape;
  t ← touching board r c shape;
  Some (p.1 * 1000 - p.2 * 50 + t.1 * 100 - t.2 * 30 + (GRID_SIZE - r) * 20
        + (if 0 <? p.1 then 2000 else 0)).
Proof.
  unfold evalMove, predicted, rowScans, colScans.
  destruct (simulatePlacement board r c shape) as [sim|]; [|done].
  cbn [mbind option_bind]. destruct (tally _ _) as [clear gaps].
  destruct (touching board r c shape) as [[tb te]|]; done.
Qed.

Lemma tally_lines acc scans :
  (tally acc scans).1
  = acc.1 + Z.of_nat (length (filter (λ s, lineBlocks s = GRID_SIZE) scans)).
Proof.
  unfold tally. revert acc. induction scans as [|s rest IH]; intros acc.
  - simpl. lia.
  - cbn [foldl]. rewrite IH. rewrite filter_cons. cbn [fst].
    destruct (Z.eqb_spec (lineBlocks s) GRID_SIZE).
    + rewrite decide_True by done. simpl. lia.
    + rewrite decide_False by done. lia.
Qed.

Lemma tally_gaps_lines acc scans : (tally acc scans).1 = (tally (acc.1, 0) scans).1.
Proof. by rewrite !tally_lines. Qed.

Lemma filter_all_length {A} (P : A → Prop) `{!∀ x, Decision (P x)} (l : list A) :
  length (filter P l) = length l ↔ Forall P l.
Proof.
  induction l as [|x l IH]; [by split|]. rewrite filter_cons. case_decide.
  - simpl. rewrite Forall_cons. split.
    + intros [= Hl]. split; [done|]. by apply IH.
    + intros [_ Hl]. f_equal. by apply IH.
  - split.
    + intros Hlen. pose proof (length_filter P l). simpl in Hlen. lia.
    + intros [? _]%Forall_cons. done.
Qed.

Lemma filter_ext_elem {A} (P Q : A → Prop) `{!∀ x, Decision (P x)}
  `{!∀ x, Decision (Q x)} (l : list A) :
  (∀ x, x ∈ l → P x ↔ Q x) → filter P l = filter Q l.
Proof.
  induction l as [|x l IH]; intros Hext; [done|]. rewrite !filter_cons.
  rewrite IH by (intros y Hy; apply Hext; by right).
  destruct (Hext x (list_elem_of_here _ _)).
  repeat case_decide; try done; tauto.
Qed.

(** A line scan finds the line full exactly when every cell is filled. *)
Lemma scanLine_full (f : Z → bool) :
  lineBlocks (scanLine (f <$> seqZ 0 GRID_SIZE)) = GRID_SIZE ↔
  ∀ j, 0 ≤ j < GRID_SIZE → f j = true.
Proof.
  destruct (scanLine_from (mkScan 0 0 false) (f <$> seqZ 0 GRID_SIZE)) as [Hb _];
    [simpl; lia|].
  unfold scanLine. rewrite Hb. cbn [lineBlocks].
  assert (length (f <$> seqZ 0 GRID_SIZE) = Z.to_nat GRID_SIZE) as Hlen.
  { by rewrite length_fmap, length_seqZ. }
  split.
  - intros Hcount.
    assert (Forall (λ x, x = true) (f <$> seqZ 0 GRID_SIZE)) as Hall.
    { apply (proj1 (filter_all_length _ _)). unfold GRID_SIZE in *. lia. }
    intros j Hj. rewrite Forall_fmap, Forall_forall in Hall. apply Hall.
    apply elem_of_seqZ. lia.
  - intros Hall.
    assert (Forall (λ x, x = true) (f <$> seqZ 0 GRID_SIZE)) as Hall'.
    { rewrite Forall_fmap. apply seqZ_grid_Forall. intros j Hj. by apply Hall. }
    rewrite (proj2 (filter_all_length _ _) Hall'), Hlen. unfold GRID_SIZE. lia.
Qed.

Lemma markCell_spec sim r c :
  simWf sim → inGrid r c →
  ∃ sim', markCell sim r c = Some sim' ∧ simWf sim' ∧
    ∀ a b, 0 ≤ a → 0 ≤ b →
           simCell sim' a b = if decide (a = r ∧ b = c) then true else simCell sim a b.
Proof.
  intros [Hlen Hlines] [Hr Hc]. unfold markCell.
  rewrite bool_decide_eq_true_2 by lia.
  destruct (lookup_lt_is_Some_2 sim (Z.to_nat r)) as [line Hline]; [lia|].
  rewrite Hline. cbn [mbind option_bind]. rewrite bool_decide_eq_true_2 by lia.
  assert (length line = Z.to_nat GRID_SIZE) as Hll.
  { rewrite Forall_lookup in Hlines. by apply (Hlines _ _ Hline). }
  eexists. split; [done|]. split.
  - split; [by rewrite length_insert|]. apply Forall_insert; [done|].
    by rewrite length_insert.
  - intros a b Ha Hb. unfold simCell, readCell, cellAt.
    destruct (decide (Z.to_nat a = Z.to_nat r)) as [Heq|Hne].
    + assert (a = r) as -> by lia.
      rewrite list_lookup_insert_eq by lia. cbn [mbind option_bind]. rewrite Hline.
      cbn [mbind option_bind].
      destruct (decide (Z.to_nat b = Z.to_nat c)) as [Heq'|Hne'].
      * assert (b = c) as -> by lia. rewrite decide_True by done.
        by rewrite list_lookup_insert_eq by lia.
      * rewrite decide_False by (intros [_ ->]; done).
        by rewrite list_lookup_insert_ne by done.
    + rewrite decide_False by (intros [-> _]; done).
      by rewrite list_lookup_insert_ne by done.
Qed.

Lemma forCells_markCell sim r c cells :
  simWf sim →
  (∀ j, cells !! j = Some true → inGrid r (c + Z.of_nat j)) →
  ∃ sim', forCells markCell r c cells sim = Some sim' ∧ simWf sim' ∧
    ∀ a b, 0 ≤ a → 0 ≤ b →
      (simCell sim' a b = true ↔
       simCell sim a b = true ∨
       ∃ j, cells !! j = Some true ∧ a = r ∧ b = c + Z.of_nat j).
Proof.
  revert sim c. induction cells as [|cell rest IH]; intros sim c Hwf Hin.
  - exists sim. split; [done|]. split; [done|]. intros a b _ _. split; [by left|].
    intros [?|(j & Hj & _)]; [done|]. by rewrite lookup_nil in Hj.
  - assert (Hrest : ∀ j, rest !! j = Some true → inGrid r (c + 1 + Z.of_nat j)).
    { intros j Hj. replace (c + 1 + Z.of_nat j) with (c + Z.of_nat (S j)) by lia.
      by apply Hin. }
    cbn [forCells]. destruct cell.
    + destruct (markCell_spec sim r c Hwf) as (s1 & -> & Hwf1 & Hcell1).
      { specialize (Hin 0%nat eq_refl). by rewrite Z.add_0_r in Hin. }
      cbn [mbind option_bind].
      destruct (IH s1 (c + 1) Hwf1 Hrest) as (s2 & -> & Hwf2 & Hcell2).
      exists s2. split; [done|]. split; [done|]. intros a b Ha Hb.
      rewrite Hcell2, Hcell1 by done. split.
      * intros [Hold|(j & Hj & -> & ->)].
        -- case_decide as Hd; [|by left]. destruct Hd as [-> ->].
           right. exists 0%nat. split; [done|]. lia.
        -- right. exists (S j). split; [done|]. lia.
      * intros [Hold|([|j] & Hj & -> & ->)].
        -- left. by case_decide.
        -- left. rewrite decide_True; [done|lia].
        -- right. exists j. split; [done|]. lia.
    + destruct (IH sim (c + 1) Hwf Hrest) as (s2 & -> & Hwf2 & Hcell2).
      exists s2. split; [done|]. split; [done|]. intros a b Ha Hb.
      rewrite Hcell2 by done. split.
      * intros [Hold|(j & Hj & -> & ->)]; [by left|].
        right. exists (S j). split; [done|]. lia.
      * intros [Hold|([|j] & Hj & -> & ->)]; [by left|done|].
        right. exists j. split; [done|]. lia.
Qed.

Lemma forShape_markCell sim r c rows :
  simWf sim →
  (∀ i line j, rows !! i = Some line → line !! j = Some true →
               inGrid (r + Z.of_nat i) (c + Z.of_nat j)) →
  ∃ sim', forShape markCell r c rows sim = Some sim' ∧ simWf sim' ∧
    ∀ a b, 0 ≤ a → 0 ≤ b →
      (simCell sim' a b = true ↔
       simCell sim a b = true ∨
       ∃ i line j, rows !! i = Some line ∧ line !! j = Some true ∧
                   a = r + Z.of_nat i ∧ b = c + Z.of_nat j).
Proof.
  revert sim r. induction rows as [|cells rest IH]; intros sim r Hwf Hin.
  - exists sim. split; [done|]. split; [done|]. intros a b _ _. split; [by left|].
    intros [?|(i & line & j & Hi & _)]; [done|]. by rewrite lookup_nil in Hi.
  - cbn [forShape].
    destruct (forCells_markCell sim r c cells Hwf) as (s1 & -> & Hwf1 & Hcell1).
    { intros j Hj. specialize (Hin 0%nat cells j eq_refl Hj).
      by rewrite Z.add_0_r in Hin. }
    cbn [mbind option_bind].
    destruct (IH s1 (r + 1) Hwf1) as (s2 & -> & Hwf2 & Hcell2).
    { intros i line j Hi Hj.
      replace (r + 1 + Z.of_nat i) with (r + Z.of_nat (S i)) by lia.
      by eapply Hin. }
    exists s2. split; [done|]. split; [done|]. intros a b Ha Hb.
    rewrite Hcell2, Hcell1 by done. split.
    + intros [[Hold|(j & Hj & -> & ->)]|(i & line & j & Hi & Hj & -> & ->)].
      * by left.
      * right. exists 0%nat, cells, j. split; [done|]. split; [done|]. lia.
      * right. exists (S i), line, j. split; [done|]. split; [done|]. lia.
    + intros [Hold|([|i] & line & j & Hi & Hj & -> & ->)].
      * by left; left.
      * simpl in Hi. injection Hi as <-. left. right. exists j.
        split; [done|]. lia.
      * right. exists i, line, j. split; [done|]. split; [done|]. lia.
Qed.

Lemma initial_sim board sim :
  gridWf board →
  mapM (λ i, mapM (λ j, (λ blk, negb (isEmpty blk)) <$> getBlock board i j)
                  (seqZ 0 GRID_SIZE)) (seqZ 0 GRID_SIZE) = Some sim →
  simWf sim ∧ ∀ i j, inGrid i j → (simCell sim i j = true ↔ filledAt board i j).
Proof.
  intros Hwf Hsim. pose proof (length_mapM _ _ _ Hsim) as Hlen.
  rewrite length_seqZ in Hlen. apply mapM_Some_1 in Hsim. split.
  - split; [done|]. apply Forall_lookup. intros a line Ha.
    destruct (Forall2_lookup_r _ _ _ _ _ Hsim Ha) as (i & _ & Hline).
    apply length_mapM in Hline. by rewrite length_seqZ in Hline.
  - intros i j [Hi Hj].
    assert (seqZ 0 GRID_SIZE !! Z.to_nat i = Some i) as Hli.
    { rewrite lookup_seqZ. lia. }
    assert (seqZ 0 GRID_SIZE !! Z.to_nat j = Some j) as Hlj.
    { rewrite lookup_seqZ. lia. }
    destruct (Forall2_lookup_l _ _ _ _ _ Hsim Hli) as (line & Hline & Hmap).
    apply mapM_Some_1 in Hmap.
    destruct (Forall2_lookup_l _ _ _ _ _ Hmap Hlj) as (v & Hv & Hget).
    unfold simCell, readCell, cellAt. rewrite Hline. cbn [mbind option_bind].
    rewrite Hv. cbn [default]. unfold filledAt.
    destruct (getBlock board i j) as [blk|]; [|done]. simpl in Hget.
    injection Hget as <-. split.
    + intros Hn. exists blk. split; [done|]. by destruct (isEmpty blk).
    + intros (blk' & [= <-] & ->). done.
Qed.

(** The simulated board holds a block exactly where the board does or
    where the shape goes. *)
Lemma simulatePlacement_spec board r c shape :
  gridWf board → canPlaceShape board r c shape = Some true →
  ∃ sim, simulatePlacement board r c shape = Some sim ∧
    ∀ i j, inGrid i j →
      (simCell sim i j = true ↔ filledAt board i j ∨ covers shape r c i j).
Proof.
  intros Hwf Hcan. unfold simulatePlacement.
  destruct (mapM_is_Some_2
    (λ i, mapM (λ j, (λ blk, negb (isEmpty blk)) <$> getBlock board i j)
               (seqZ 0 GRID_SIZE)) (seqZ 0 GRID_SIZE)) as [sim0 Hsim0].
  { apply seqZ_grid_Forall. intros i Hi. apply mapM_is_Some_2.
    apply seqZ_grid_Forall. intros j Hj. unfold compose.
    destruct (getBlock_inGrid board i j Hwf) as [blk ->]; [done|]. by eexists. }
  rewrite Hsim0. cbn [mbind option_bind].
  destruct (initial_sim board sim0 Hwf Hsim0) as [Hwf0 Hcell0].
  apply canPlaceShape_true_rows in Hcan.
  destruct (forShape_markCell sim0 r c (blocks shape) Hwf0) as (sim & -> & _ & Hcell).
  { intros i line j Hi Hj.
    destruct (proj1 (canPlaceRows_true _ _ _ _) Hcan i line j Hi Hj) as (blk & Hblk & _).
    apply (getBlock_is_Some_inGrid board); [done|by eexists]. }
  exists sim. split; [done|]. intros i j Hin.
  rewrite Hcell by (destruct Hin; lia). rewrite Hcell0 by done.
  unfold covers, shapeCell. split.
  - intros [?|(a & line & b & Ha & Hb & -> & ->)]; [by left|].
    right. exists a, b. split; [by exists line|done].
  - intros [?|(a & b & (line & Ha & Hb) & -> & ->)]; [by left|].
    right. by exists a, line, b.
Qed.
(** ** What the AI expects and what the line check finds *)

Lemma filter_fmap_length {A B} (f : A → B) (P : B → Prop)
  `{!∀ y, Decision (P y)} (l : list A) :
  length (filter P (f <$> l)) = length (filter (λ x, P (f x)) l).
Proof.
  induction l as [|x l IH]; [done|]. rewrite fmap_cons, !filter_cons.
  case_decide; simpl; by rewrite IH.
Qed.

Lemma placed_filled board board' r c shape :
  gridWf board → canPlaceShape board r c shape = Some true →
  placeRows (shapeColor shape) board r c (blocks shape) = Some board' →
  gridWf board' ∧
  ∀ i j, inGrid i j →
         (filledAt board' i j ↔ filledAt board i j ∨ covers shape r c i j).
Proof.
  intros Hwf Hcan Hplace.
  pose proof (canPlaceShape_true_rows _ _ _ _ Hcan) as Hrows.
  pose proof (proj1 (canPlaceRows_true _ _ _ _) Hrows) as Hfree.
  destruct (placeRows_spec (shapeColor shape) board r c (blocks shape) Hwf Hfree)
    as (b & Hb & Hwf' & Hset & Hother & _).
  rewrite Hplace in Hb. injection Hb as <-. split; [done|].
  destruct (simulatePlacement_spec board r c shape Hwf Hcan) as (sim & _ & Hsim).
  intros i j Hin. rewrite <- (Hsim i j Hin).
  destruct (simCell sim i j) eqn:Hcell.
  - split; [done|]. intros _.
    destruct (proj1 (Hsim i j Hin) Hcell) as [Hold|(a & b & (line & Ha & Hb) & -> & ->)].
    + destruct Hold as (blk & Hblk & Hfilled).
      exists blk. split; [|done]. rewrite Hother; [done|].
      intros a line b Ha Hb [= -> ->].
      destruct (Hfree a line b Ha Hb) as (blk' & Hblk' & Hemp). congruence.
    + destruct (Hset a line b Ha Hb) as (blk & Hblk & Hfilled & _). by exists blk.
  - split; [|done]. intros (blk & Hblk & Hfilled). exfalso.
    assert (¬ (filledAt board i j ∨ covers shape r c i j)) as Hno.
    { rewrite <- (Hsim i j Hin). by rewrite Hcell. }
    rewrite Hother in Hblk.
    + apply Hno. left. by exists blk.
    + intros a line b Ha Hb [= -> ->]. apply Hno. right.
      exists a, b. split; [by exists line|done].
Qed.

(** X15: the number of lines the AI expects a placement to clear
    ([wouldClearLines], which enters the score with 1000 each and the bonus
    of 2000) is the number of rows and columns the line check finds full
    once the shape is placed. *)
Theorem ai_predicts_cleared_lines board r c shape :
  gridWf board → canPlaceShape board r c shape = Some true →
  ∃ board' rows cols lines gaps,
    placeRows (shapeColor shape) board r c (blocks shape) = Some board' ∧
    rowsToRemove board' = Some rows ∧ colsToRemove board' = Some cols ∧
    predicted board r c shape = Some (lines, gaps) ∧
    lines = Z.of_nat (length rows) + Z.of_nat (length cols) ∧
    ∃ tb te, touching board r c shape = Some (tb, te) ∧
             evalMove board r c shape
             = Some (lines * 1000 - gaps * 50 + tb * 100 - te * 30
                     + (GRID_SIZE - r) * 20 + (if 0 <? lines then 2000 else 0)).
Proof.
  intros Hwf Hcan.
  pose proof (canPlaceShape_true_rows _ _ _ _ Hcan) as Hfree.
  destruct (placeRows_spec (shapeColor shape) board r c (blocks shape) Hwf)
    as (board' & Hplace & _); [by apply canPlaceRows_true|].
  destruct (placed_filled board board' r c shape Hwf Hcan Hplace) as [Hwf' Hfilled].
  destruct (rowsToRemove_total board' Hwf') as [rows Hrows].
  destruct (colsToRemove_total board' Hwf') as [cols Hcols].
  destruct (simulatePlacement_spec board r c shape Hwf Hcan) as (sim & Hsim & Hcell).
  exists board', rows, cols.
  destruct (tally (tally (0, 0) (rowScans sim)) (colScans sim)) as [lines gaps] eqn:E.
  assert (predicted board r c shape = Some (lines, gaps)) as Hpred.
  { unfold predicted. rewrite Hsim. cbn [mbind option_bind]. by rewrite E. }
  exists lines, gaps. split; [done|]. split; [done|]. split; [done|]. split; [done|].
  split; [|destruct (touching_total board r c shape Hwf) as [[tb te] Ht];
           exists tb, te; split; [done|];
           by rewrite evalMove_predicted, Hpred, Ht].
  assert (lines = (tally (tally (0, 0) (rowScans sim)) (colScans sim)).1) as ->
    by by rewrite E.
  rewrite !tally_lines. cbn [fst]. unfold rowScans, colScans.
  rewrite !filter_fmap_length.
  apply filterM_filter in Hrows, Hcols. rewrite Hrows, Hcols.
  assert (∀ i j, inGrid i j → (simCell sim i j = true ↔ filledAt board' i j))
    as Hsame.
  { intros i j Hin. by rewrite Hcell, Hfilled. }
  rewrite (filter_ext_elem
             (λ i, lineBlocks (scanLine ((λ j, simCell sim i j) <$> seqZ 0 GRID_SIZE))
                   = GRID_SIZE)
             (λ i, rowIsFull board' i = Some true)).
  2:{ intros i Hi. apply elem_of_seqZ in Hi. rewrite scanLine_full.
      destruct (rowIsFull_spec board' i Hwf') as (b & -> & Hb); [lia|].
      split.
      - intros Hall. f_equal. apply Hb. intros j Hj. apply Hsame; [split; lia|].
        by apply Hall.
      - intros [= ->]. intros j Hj. apply Hsame; [split; lia|]. by apply Hb. }
  rewrite (filter_ext_elem
             (λ j, lineBlocks (scanLine ((λ i, simCell sim i j) <$> seqZ 0 GRID_SIZE))
                   = GRID_SIZE)
             (λ j, colIsFull board' j = Some true)).
  2:{ intros j Hj. apply elem_of_seqZ in Hj. rewrite scanLine_full.
      destruct (colIsFull_spec board' j Hwf') as (b & -> & Hb); [lia|].
      split.
      - intros Hall. f_equal. apply Hb. intros i Hi. apply Hsame; [split; lia|].
        by apply Hall.
      - intros [= ->]. intros i Hi. apply Hsame; [split; lia|]. by apply Hb. }
  lia.
Qed.

Lemma ai_predicts_cleared_lines_witness :
  ∃ board' rows cols lines gaps,
    placeRows (shapeColor (unitShape 0)) almostRowBoard 3 7 (blocks (unitShape 0))
      = Some board' ∧
    rowsToRemove board' = Some rows ∧ colsToRemove board' = Some cols ∧
    predicted almostRowBoard 3 7 (unitShape 0) = Some (lines, gaps) ∧
    lines = Z.of_nat (length rows) + Z.of_nat (length cols) ∧
    ∃ tb te, touching almostRowBoard 3 7 (unitShape 0) = Some (tb, te) ∧
             evalMove almostRowBoard 3 7 (unitShape 0)
             = Some (lines * 1000 - gaps * 50 + tb * 100 - te * 30
                     + (GRID_SIZE - 3) * 20 + (if 0 <? lines then 2000 else 0)).
Proof.
  apply ai_predicts_cleared_lines; [apply gridWf_boardOf|].
  vm_compute. reflexivity.
Defined.
(** ** The AI over a batch that fits nowhere *)

Lemma executeMove_stuck board batch :
  gridWf board → Forall shapeWf batch →
  hasValidMovesOn board batch = Some false →
  executeMove board batch = Some AiNoMove.
Proof.
  intros Hg Hs Hstuck.
  destruct (executeMove_total board batch Hg Hs) as [call Hcall].
  rewrite Hcall. f_equal.
  pose proof (executeMove_result _ _ _ Hcall) as Hres.
  destruct call as [shape r c|]; [|done]. exfalso.
  destruct Hres as (i & s & Hi & Hin & [Hcan _] & _).
  assert (hasValidMovesOn board batch = Some true) as Htrue; [|congruence].
  apply hasValidMovesOn_true; [done..|]. exists shape, r, c.
  split; [by eapply list_elem_of_lookup_2|done].
Qed.

(** X16: when no shape of a batch that is not empty fits anywhere and the
    game is not over, the AI makes no progress: it finds no move and asks
    for a batch, [generateNewShapes] returns at once because shapes are
    left, and [runAI] searches again, from the very state it started
    from. *)
Theorem ai_spins_on_stuck_batch rng g :
  gameWf g → shapes g ≠ [] → hasValidMoves g = Some false →
  isAIEnabled g = true → isGameOver g = false → currentState g = PLAYING →
  runAI g = Some (withAiCalls (aiCalls g ++ [AiNoMove]) g) ∧
  aiResume (length (aiCalls g)) rng (withAiCalls (aiCalls g ++ [AiNoMove]) g)
  = Some (withAiCalls (aiCalls g ++ [AiNoMove]) g).
Proof.
  intros [Hg Hs] Hne Hstuck Hai Hover Hphase.
  pose proof (executeMove_stuck _ _ Hg Hs Hstuck) as Hexec.
  assert (runAI g = Some (withAiCalls (aiCalls g ++ [AiNoMove]) g)) as Hrun.
  { unfold runAI. rewrite Hai, Hover, Hphase. simpl. by rewrite Hexec. }
  split; [done|].
  set (g1 := withAiCalls (aiCalls g ++ [AiNoMove]) g).
  assert (aiCalls g1 !! length (aiCalls g) = Some AiNoMove) as Hk.
  { unfold g1. simpl. by rewrite list_lookup_middle. }
  assert (withAiCalls (delete (length (aiCalls g)) (aiCalls g1)) g1 = g) as Hback.
  { unfold g1. simpl. rewrite delete_middle, app_nil_r. by destruct g. }
  unfold aiResume. rewrite Hk, Hback.
  assert (generateNewShapes rng g = Some g) as ->.
  { unfold generateNewShapes. rewrite Hover.
    by destruct (shapes g) as [|s rest]. }
  done.
Qed.

Lemma gameWf_stuckAiGame : gameWf stuckAiGame.
Proof.
  split; [apply gridWf_boardOf|].
  apply Forall_cons. split; [apply shapeWf_domino|].
  apply Forall_cons. split; [apply shapeWf_domino|apply Forall_nil_2].
Qed.

Lemma ai_spins_on_stuck_batch_witness :
  runAI stuckAiGame
  = Some (withAiCalls (aiCalls stuckAiGame ++ [AiNoMove]) stuckAiGame) ∧
  aiResume (length (aiCalls stuckAiGame)) noDraw
           (withAiCalls (aiCalls stuckAiGame ++ [AiNoMove]) stuckAiGame)
  = Some (withAiCalls (aiCalls stuckAiGame ++ [AiNoMove]) stuckAiGame).
Proof.
  apply (ai_spins_on_stuck_batch noDraw stuckAiGame).
  - apply gameWf_stuckAiGame.
  - done.
  - vm_compute. reflexivity.
  - reflexivity.
  - reflexivity.
  - reflexivity.
Defined.

(** ** The earlier revision: its AI and its counter *)

Lemma Legacy_generateNewShapes_new rng st :
  gameWf (Legacy.game st) → rngOk rng → isGameOver (Legacy.game st) = false →
  ∃ st', Legacy.generateNewShapes rng st = Some st' ∧
         gameBoard (Legacy.game st') = gameBoard (Legacy.game st) ∧
         score (Legacy.game st') = score (Legacy.game st) ∧
         batchIds (Legacy.game st')
         = [nextContainer (Legacy.game st); S (nextContainer (Legacy.game st));
            S (S (nextContainer (Legacy.game st)))] ∧
         Legacy.placedShapesCount st' = 0 ∧
         Legacy.suspended st' = Legacy.suspended st.
Proof.
  intros [Hg Hs] Hrng Hover. unfold Legacy.generateNewShapes. rewrite Hover.
  destruct (newShape_wf (rng 0%nat) (nextContainer (Legacy.game st)))
    as (s0 & E0 & Hs0 & _); [done|].
  destruct (newShape_wf (rng 1%nat) (nextContainer (Legacy.game st) + 1))
    as (s1 & E1 & Hs1 & _); [done|].
  destruct (newShape_wf (rng 2%nat) (nextContainer (Legacy.game st) + 2))
    as (s2 & E2 & Hs2 & _); [done|].
  rewrite E0, E1, E2. cbn [mbind option_bind].
  apply newShape_container in E0, E1, E2.
  set (g1 := withNextContainer _ _).
  unfold hasValidMoves.
  destruct (hasValidMovesOn_total (gameBoard g1) (shapes g1)) as [valid ->].
  { done. }
  { unfold g1. simpl. by repeat (apply Forall_cons; split; [done|]). }
  cbn [mbind option_bind]. eexists. split; [done|].
  unfold batchIds. destruct valid; simpl; rewrite E0, E1, E2;
    repeat split; try done; repeat f_equal; lia.
Qed.

(** X17: in the earlier revision the AI, finding no move for a batch, does
    not wait and does not end the game: it drops the shapes that are left,
    takes three new ones, sets the counter of placed shapes back to 0 and
    searches again; the board and the score stay. *)
Theorem Legacy_ai_replaces_stuck_batch rng st :
  gameWf (Legacy.game st) → rngOk rng →
  hasValidMoves (Legacy.game st) = Some false →
  isAIEnabled (Legacy.game st) = true → isGameOver (Legacy.game st) = false →
  ∃ st', Legacy.runAI rng st = Some (st', true) ∧
         gameBoard (Legacy.game st') = gameBoard (Legacy.game st) ∧
         score (Legacy.game st') = score (Legacy.game st) ∧
         batchIds (Legacy.game st')
         = [nextContainer (Legacy.game st); S (nextContainer (Legacy.game st));
            S (S (nextContainer (Legacy.game st)))] ∧
         Legacy.placedShapesCount st' = 0 ∧
         Legacy.suspended st' = Legacy.suspended st.
Proof.
  intros Hwf Hrng Hstuck Hai Hover. unfold Legacy.runAI. rewrite Hai, Hover. simpl.
  destruct Hwf as [Hg Hs].
  rewrite (executeMove_stuck _ _ Hg Hs Hstuck). cbn [mbind option_bind].
  destruct (Legacy_generateNewShapes_new rng st) as (st' & -> & Hrest); [done..|].
  cbn [mbind option_bind]. by exists st'.
Qed.

Lemma Legacy_ai_replaces_stuck_batch_witness :
  ∃ st', Legacy.runAI noDraw legacyStuck = Some (st', true) ∧
         gameBoard (Legacy.game st') = gameBoard (Legacy.game legacyStuck) ∧
         score (Legacy.game st') = score (Legacy.game legacyStuck) ∧
         batchIds (Legacy.game st')
         = [nextContainer (Legacy.game legacyStuck);
            S (nextContainer (Legacy.game legacyStuck));
            S (S (nextContainer (Legacy.game legacyStuck)))] ∧
         Legacy.placedShapesCount st' = 0 ∧
         Legacy.suspended st' = Legacy.suspended legacyStuck.
Proof.
  apply Legacy_ai_replaces_stuck_batch.
  - split; [apply gridWf_boardOf|].
    apply Forall_cons. split; [apply shapeWf_domino|].
    apply Forall_cons. split; [apply shapeWf_domino|apply Forall_nil_2].
  - apply rngOk_noDraw.
  - vm_compute. reflexivity.
  - reflexivity.
  - reflexivity.
Defined.

(** ** The counter of the earlier revision *)

(** X18: in the earlier revision, while the counter of placed shapes and
    the batch add up to three, a drop by the player keeps them so, and it
    brings a new batch of three only when it placed the last shape;
    otherwise the batch is what it was, up to the shape placed. *)
Theorem Legacy_counter_in_step gridPos rng st st' :
  Legacy.placedShapesCount st + Z.of_nat (length (shapes (Legacy.game st))) = 3 →
  Legacy.onDragEnd gridPos rng st = Some st' →
  Legacy.placedShapesCount st' + Z.of_nat (length (shapes (Legacy.game st'))) = 3 ∧
  (batchIds (Legacy.game st') `sublist_of` batchIds (Legacy.game st) ∨
   ((length (shapes (Legacy.game st)) ≤ 1)%nat ∧
    length (shapes (Legacy.game st')) = 3%nat)).
Proof.
  intros Hinv Hdrop. split.
  - by apply (Legacy_onDragEnd_counter gridPos rng st).
  - by apply (Legacy_onDragEnd_batch gridPos rng st).
Qed.

Lemma Legacy_counter_in_step_witness :
  ∃ st', Legacy.onDragEnd (mkPosition 2 2) noDraw legacyRace = Some st' ∧
    Legacy.placedShapesCount st' + Z.of_nat (length (shapes (Legacy.game st'))) = 3 ∧
    (batchIds (Legacy.game st') `sublist_of` batchIds (Legacy.game legacyRace) ∨
     ((length (shapes (Legacy.game legacyRace)) ≤ 1)%nat ∧
      length (shapes (Legacy.game st')) = 3%nat)).
Proof.
  eexists. split; [vm_compute; reflexivity|].
  apply (Legacy_counter_in_step (mkPosition 2 2) noDraw legacyRace).
  - vm_compute. reflexivity.
  - vm_compute. reflexivity.
Defined.
(** ** Pixels and cells *)

Lemma div_block a q : a / BLOCK_SIZE = q ↔ q * BLOCK_SIZE ≤ a < q * BLOCK_SIZE + BLOCK_SIZE.
Proof.
  unfold BLOCK_SIZE. split.
  - intros <-. pose proof (Z.div_mod a 40 ltac:(lia)).
    pose proof (Z.mod_pos_bound a 40 ltac:(lia)). lia.
  - intros H. symmetry. apply (Z.div_unique a 40 q (a - q * 40)); lia.
Qed.

(** X19: a container is dropped on the cell whose corner is nearest to its
    own: [getGridPosition] gives the cell [(r, c)] exactly for the
    positions from half a block before the place where the board draws
    that cell (included) to half a block after it (excluded), in both
    directions. *)
Theorem getGridPosition_snaps x y r c :
  getGridPosition x y = mkPosition r c ↔
  cellX c - BLOCK_SIZE / 2 ≤ x < cellX c + BLOCK_SIZE / 2 ∧
  cellY r - BLOCK_SIZE / 2 ≤ y < cellY r + BLOCK_SIZE / 2.
Proof.
  unfold getGridPosition, cellX, cellY. split.
  - intros [= Hr Hc]. apply div_block in Hr, Hc.
    change (BLOCK_SIZE / 2) with 20 in *. unfold BLOCK_SIZE in *. lia.
  - intros [Hx Hy]. f_equal; apply div_block;
      change (BLOCK_SIZE / 2) with 20 in *; unfold BLOCK_SIZE in *; lia.
Qed.

(** X20: a shape of the batch is shown inside the canvas, centred in its
    third of the tray below the board; released there, where it was shown,
    it is never placed, since that is the tenth row of cells. *)
Theorem shape_in_tray index w h :
  0 ≤ index ≤ 2 → 1 ≤ w ≤ 4 → 1 ≤ h ≤ 4 →
  0 ≤ fst (calculateShapePosition index w h) ∧
  fst (calculateShapePosition index w h) + w * BLOCK_SIZE ≤ GAME_WIDTH ∧
  snd (calculateShapePosition index w h) + h * BLOCK_SIZE ≤ GAME_HEIGHT ∧
  2 * fst (calculateShapePosition index w h) + w * BLOCK_SIZE
  = 2 * (SHAPES_AREA_x + 120 * index + 60) ∧
  row (getGridPosition (fst (calculateShapePosition index w h))
                       (snd (calculateShapePosition index w h))) = 9 ∧
  ∀ board shape,
    canPlaceShape board
      (row (getGridPosition (fst (calculateShapePosition index w h))
                            (snd (calculateShapePosition index w h))))
      (col (getGridPosition (fst (calculateShapePosition index w h))
                            (snd (calculateShapePosition index w h))))
      shape = Some false.
Proof.
  intros Hi Hw Hh. unfold calculateShapePosition. cbn [fst snd].
  change ((GAME_WIDTH - 40) / 3) with 120. change (120 / 2) with 60.
  assert (w * BLOCK_SIZE / 2 = w * 20) as ->.
  { unfold BLOCK_SIZE. replace (w * 40) with (w * 20 * 2) by lia.
    by rewrite Z.div_mul. }
  assert (row (getGridPosition (SHAPES_AREA_x + 120 * index + 60 - w * 20)
                               SHAPES_AREA_y) = 9) as Hrow by reflexivity.
  assert (SHAPES_AREA_y = 440) as Hy by reflexivity.
  unfold SHAPES_AREA_x, BLOCK_SIZE, GAME_WIDTH, GAME_HEIGHT.
  split; [lia|]. split; [lia|]. split; [lia|]. split; [lia|]. split; [done|].
  intros board shape. unfold SHAPES_AREA_x in Hrow. rewrite Hrow.
  unfold canPlaceShape.
  assert ((9 + Z.of_nat (length (blocks shape)) >? GRID_SIZE) = true) as ->; [|done].
  unfold GRID_SIZE. apply Z.gtb_lt. lia.
Qed.

Lemma shape_in_tray_witness :
  0 ≤ fst (calculateShapePosition 2 4 1) ∧
  fst (calculateShapePosition 2 4 1) + 4 * BLOCK_SIZE ≤ GAME_WIDTH ∧
  snd (calculateShapePosition 2 4 1) + 1 * BLOCK_SIZE ≤ GAME_HEIGHT ∧
  2 * fst (calculateShapePosition 2 4 1) + 4 * BLOCK_SIZE
  = 2 * (SHAPES_AREA_x + 120 * 2 + 60) ∧
  row (getGridPosition (fst (calculateShapePosition 2 4 1))
                       (snd (calculateShapePosition 2 4 1))) = 9 ∧
  ∀ board shape,
    canPlaceShape board
      (row (getGridPosition (fst (calculateShapePosition 2 4 1))
                            (snd (calculateShapePosition 2 4 1))))
      (col (getGridPosition (fst (calculateShapePosition 2 4 1))
                            (snd (calculateShapePosition 2 4 1))))
      shape = Some false.
Proof. apply (shape_in_tray 2 4 1); lia. Defined.
